(** * Rich-text mini-markup renderer (src/lib/richText.tsx)

    A shallow embedding of [renderBracketHighlights], [renderRichTextInternal],
    [renderRichText] and [RichText], together with the two regular
    expressions they scan with, and the properties of the markup
    interpreter stated in the specification. *)

From Equations Require Import Equations.
From Stdlib Require Import String Ascii Bool List Arith NArith Lia.
Import ListNotations.
Open Scope nat_scope.

Set Warnings "-register-all".

(** ** JavaScript strings

    A JavaScript string is a sequence of UTF-16 code units; both regular
    expressions of the source are written without the [u] flag, so they
    match code unit by code unit. *)

Abbreviation code_unit := N (only parsing).
Abbreviation str := (list N).

(** ASCII literals of the source, as code units. *)
Definition js (s : string) : str := map N_of_ascii (list_ascii_of_string s).

Definition LBRACE : code_unit := 123%N.      (* { *)
Definition RBRACE : code_unit := 125%N.      (* } *)
Definition COLON : code_unit := 58%N.        (* : *)
Definition LBRACKET : code_unit := 12298%N.  (* U+300A, left double angle bracket *)
Definition RBRACKET : code_unit := 12299%N.  (* U+300B, right double angle bracket *)

(** [text.slice(from, to)] and [text.slice(from)] on indices that are
    non-negative integers: both ends are clamped to the length and an empty
    string is returned when [to <= from]. *)
Definition slice (text : str) (from to : nat) : str :=
  firstn (to - from) (skipn from text).

Definition sliceFrom (text : str) (from : nat) : str := skipn from text.

(** Template literals print a non-negative integer in decimal. *)
Fixpoint digits (u : Decimal.uint) : str :=
  match u with
  | Decimal.Nil => []
  | Decimal.D0 r => 48%N :: digits r
  | Decimal.D1 r => 49%N :: digits r
  | Decimal.D2 r => 50%N :: digits r
  | Decimal.D3 r => 51%N :: digits r
  | Decimal.D4 r => 52%N :: digits r
  | Decimal.D5 r => 53%N :: digits r
  | Decimal.D6 r => 54%N :: digits r
  | Decimal.D7 r => 55%N :: digits r
  | Decimal.D8 r => 56%N :: digits r
  | Decimal.D9 r => 57%N :: digits r
  end.

Definition decimal (n : nat) : str := digits (Nat.to_uint n).

(** [String.prototype.trim]: WhiteSpace and LineTerminator code units are
    removed from both ends. *)
Definition isWhiteSpace (c : code_unit) : bool :=
  existsb (N.eqb c)
    [9; 10; 11; 12; 13; 32; 160; 5760; 8192; 8193; 8194; 8195; 8196; 8197;
     8198; 8199; 8200; 8201; 8202; 8232; 8233; 8239; 8287; 12288; 65279]%N.

Fixpoint takeWhile {A} (p : A -> bool) (l : list A) : list A :=
  match l with
  | x :: t => if p x then x :: takeWhile p t else []
  | [] => []
  end.

Fixpoint dropWhile {A} (p : A -> bool) (l : list A) : list A :=
  match l with
  | x :: t => if p x then dropWhile p t else l
  | [] => []
  end.

Definition trim (s : str) : str :=
  rev (dropWhile isWhiteSpace (rev (dropWhile isWhiteSpace s))).

(** ** Values and the style table

    [RICH_TEXT_STYLES] is an object literal.  Reading [obj[key]] first looks
    at the object's own properties and then follows the prototype chain, so
    a key that names a member of [Object.prototype] yields that member (a
    function, or for [__proto__] the prototype object) instead of
    [undefined]. *)

Inductive jsvalue :=
| JString (s : str)
| JInherited (name : str)   (* a member of Object.prototype: an object, never a string *)
| JUndefined.

Definition object := list (str * str).

Definition str_eqb (a b : str) : bool :=
  if list_eq_dec N.eq_dec a b then true else false.

Fixpoint own (o : object) (k : str) : option str :=
  match o with
  | (k', v) :: rest => if str_eqb k k' then Some v else own rest k
  | [] => None
  end.

Definition Object_prototype : list str :=
  map js ["constructor"; "__defineGetter__"; "__defineSetter__";
          "hasOwnProperty"; "__lookupGetter__"; "__lookupSetter__";
          "isPrototypeOf"; "propertyIsEnumerable"; "toString"; "valueOf";
          "__proto__"; "toLocaleString"]%string.

Definition get (o : object) (k : str) : jsvalue :=
  match own o k with
  | Some v => JString v
  | None => if existsb (str_eqb k) Object_prototype then JInherited k
            else JUndefined
  end.

(** Truthiness, as tested by [if (styleClass)]. *)
Definition truthy (v : jsvalue) : bool :=
  match v with
  | JString [] => false
  | JString (_ :: _) => true
  | JInherited _ => true
  | JUndefined => false
  end.

Definition RICH_TEXT_STYLES : object :=
  map (fun kv => (js (fst kv), js (snd kv)))
    [("mark", "text-red-600 font-bold");
     ("red", "text-red-600 font-semibold");
     ("danger", "text-red-600 font-semibold");
     ("amber", "text-amber-600 font-semibold");
     ("warning", "text-amber-600 font-semibold");
     ("green", "text-emerald-600 font-semibold");
     ("success", "text-emerald-600 font-semibold");
     ("blue", "text-blue-600 font-semibold");
     ("info", "text-blue-600 font-semibold");
     ("primary", "text-primary-700 font-semibold");
     ("muted", "text-neutral-600");
     ("strong", "font-semibold text-primary-900");
     ("underline", "underline")]%string.

(** ** Render nodes

    An element of the returned array is a string or a [<span>] element with
    a React key, a class name and children.  The children of a span are a
    node sequence; the single string child of a highlight span is the
    one-element sequence holding that string. *)

Inductive node :=
| Text (value : str)
| Span (key : str) (className : jsvalue) (children : list node).

Fixpoint text_content (n : node) : str :=
  match n with
  | Text s => s
  | Span _ _ children => flat_map text_content children
  end.

Definition text_of (nodes : list node) : str := flat_map text_content nodes.

(** ** Regular expressions

    The two patterns use literals, one greedy [+] and one lazy [*?] over a
    character class, and capture groups around a quantifier.  A pattern is
    a sequence of such atoms, run by backtracking as a JavaScript engine
    does: each atom tries its alternatives in priority order against the
    continuation that matches the rest of the pattern. *)

Inductive atom :=
| Chr (c : code_unit)                 (* a literal code unit *)
| Plus (cls : code_unit -> bool)      (* [cls]+   greedy, one or more *)
| LazyStar (cls : code_unit -> bool)  (* [cls]*?  lazy, zero or more *)
| Group (a : atom).                   (* ( a )    capture group *)

(** A continuation is given the rest of the subject and returns the
    captures made from there on with what is left after the match. *)
Definition cont := str -> option (list str * str).

(** [cls+]: take one code unit of the class, then prefer taking more over
    going on with the continuation. *)
Fixpoint greedy (cls : code_unit -> bool) (k : cont) (s : str)
  : option (list str * str) :=
  match s with
  | x :: s' =>
      if cls x then
        match greedy cls k s' with
        | Some r => Some r
        | None => k s'
        end
      else None
  | [] => None
  end.

(** [cls*?]: prefer going on with the continuation over taking one more
    code unit of the class. *)
Fixpoint lazy (cls : code_unit -> bool) (k : cont) (s : str)
  : option (list str * str) :=
  match k s with
  | Some r => Some r
  | None =>
      match s with
      | x :: s' => if cls x then lazy cls k s' else None
      | [] => None
      end
  end.

Fixpoint step (a : atom) (k : cont) (s : str) : option (list str * str) :=
  match a with
  | Chr c =>
      match s with
      | x :: s' => if N.eqb x c then k s' else None
      | [] => None
      end
  | Plus cls => greedy cls k s
  | LazyStar cls => lazy cls k s
  | Group a' =>
      step a'
        (fun s' =>
           match k s' with
           | Some (caps, rest) =>
               Some (firstn (length s - length s') s :: caps, rest)
           | None => None
           end) s
  end.

Fixpoint run (re : list atom) : cont :=
  match re with
  | [] => fun s => Some ([], s)
  | a :: re' => step a (run re')
  end.

(** A pattern applied to the suffix of the subject that starts at the
    position tried returns the match array: element 0 is the whole match,
    then the capture groups. *)
Definition pattern := str -> option (list str).

Definition matcher (re : list atom) : pattern := fun s =>
  match run re s with
  | Some (caps, rest) => Some (firstn (length s - length rest) s :: caps)
  | None => None
  end.

(** [[^》]] *)
Definition notClose (c : code_unit) : bool := negb (N.eqb c RBRACKET).

(** [[a-zA-Z0-9_-]] *)
Definition isKeyChar (c : code_unit) : bool :=
  ((97 <=? c) && (c <=? 122) || (65 <=? c) && (c <=? 90)
   || (48 <=? c) && (c <=? 57) || (c =? 95) || (c =? 45))%N.

(** [[\s\S]] *)
Definition anyChar (c : code_unit) : bool := true.

(** [/《[^》]+》/g] *)
Definition bracketHighlightRegex : pattern :=
  matcher [Chr LBRACKET; Plus notClose; Chr RBRACKET].

(** [/\{\{([a-zA-Z0-9_-]+):([\s\S]*?)\}\}/g] *)
Definition styleTokenRegex : pattern :=
  matcher [Chr LBRACE; Chr LBRACE; Group (Plus isKeyChar); Chr COLON;
           Group (LazyStar anyChar); Chr RBRACE; Chr RBRACE].

(** Closed forms of the two matchers, proved below to be what the
    backtracking computes.  After the opening bracket the greedy run can
    only be followed by the closing bracket or by the end of the subject,
    so giving back part of the run never produces a match. *)
Definition highlightAt : pattern := fun s =>
  match s with
  | c :: r =>
      if N.eqb c LBRACKET then
        match takeWhile notClose r, dropWhile notClose r with
        | x :: run, d :: _ => Some [c :: (x :: run) ++ [d]]
        | _, _ => None
        end
      else None
  | [] => None
  end.

(** Offset of the first [}}] in [s]: what the lazy content settles on,
    trying the lengths 0, 1, 2, ... in turn. *)
Fixpoint find_close (s : str) : option nat :=
  match s with
  | a :: t =>
      match t with
      | b :: _ =>
          if (N.eqb a RBRACE && N.eqb b RBRACE)%bool then Some 0
          else option_map S (find_close t)
      | [] => None
      end
  | [] => None
  end.

(** The key is the whole run of key characters (the colon that must follow
    is not one, so a shorter key never matches), the content ends at the
    first [}}]. *)
Definition tokenAt : pattern := fun s =>
  match s with
  | c1 :: c2 :: r =>
      if (N.eqb c1 LBRACE && N.eqb c2 LBRACE)%bool then
        match takeWhile isKeyChar r, dropWhile isKeyChar r with
        | k :: key, c3 :: r' =>
            if N.eqb c3 COLON then
              match find_close r' with
              | Some n =>
                  let content := firstn n r' in
                  Some [[c1; c2] ++ (k :: key) ++ [c3] ++ content
                          ++ [RBRACE; RBRACE];
                        k :: key; content]
              | None => None
              end
            else None
        | _, _ => None
        end
      else None
  | _ => None
  end.

(** Leftmost position at or after [i] where the pattern matches; [s] is the
    suffix of the subject that starts at [i].  The position one past the
    last code unit is tried too. *)
Fixpoint scan (re : pattern) (s : str) (i : nat) : option (nat * list str) :=
  match re s with
  | Some m => Some (i, m)
  | None =>
      match s with
      | [] => None
      | _ :: t => scan re t (S i)
      end
  end.

(** [re.exec(text)] for a pattern with the [g] flag whose [lastIndex] is
    [lastIndex]: the result ([null] is [None]) paired with the new
    [lastIndex], which is the end of the match, or 0 after a failure. *)
Definition exec (re : pattern) (lastIndex : nat) (text : str)
  : option (nat * list str) * nat :=
  if length text <? lastIndex then (None, 0)
  else
    match scan re (skipn lastIndex text) lastIndex with
    | Some (i, m) => (Some (i, m), i + length (nth 0 m []))
    | None => (None, 0)
    end.

(** Array destructuring with the source's defaults: [x || ''] and
    [x ?? ''] on an element that is a string or [undefined]. *)
Definition or_empty (x : option str) : str :=
  match x with Some (c :: s) => c :: s | _ => [] end.

Definition nullish_empty (x : option str) : str :=
  match x with Some s => s | None => [] end.

Example styleTokenRegex_ex :
  styleTokenRegex (js "{{red:a{{b}}c}}")
  = Some [js "{{red:a{{b}}"; js "red"; js "a{{b"].
Proof. reflexivity. Qed.

Example bracketHighlightRegex_ex :
  bracketHighlightRegex ([LBRACKET; LBRACKET] ++ js "A" ++ [RBRACKET; RBRACKET])
  = Some [[LBRACKET; LBRACKET] ++ js "A" ++ [RBRACKET]].
Proof. reflexivity. Qed.

(** ** The backtracking matchers in closed form *)

Lemma dropWhile_head {A} (p : A -> bool) l x t :
  dropWhile p l = x :: t -> p x = false.
Proof.
  induction l as [|y l IH]; simpl; [discriminate|].
  destruct (p y) eqn:E; [exact IH|]. intros H; injection H as <- _. exact E.
Qed.

Lemma skipn_app_exact {A} (a b : list A) : skipn (length a) (a ++ b) = b.
Proof. induction a; simpl; auto. Qed.

Lemma firstn_app_exact {A} (a b : list A) : firstn (length a) (a ++ b) = a.
Proof. induction a; simpl; congruence. Qed.

Lemma takeWhile_dropWhile {A} (p : A -> bool) l :
  takeWhile p l ++ dropWhile p l = l.
Proof.
  induction l as [|x l IH]; simpl; [reflexivity|].
  destruct (p x); simpl; [now rewrite IH | reflexivity].
Qed.

Lemma takeWhile_nil_dropWhile {A} (p : A -> bool) l :
  takeWhile p l = [] -> dropWhile p l = l.
Proof. destruct l as [|x l]; simpl; [reflexivity|]. now destruct (p x). Qed.

(** When the continuation cannot start with a code unit of the class, the
    greedy run is the whole run: no shorter one is followed by a match. *)
Lemma greedy_whole_run cls (k : cont) s :
  (forall x t, cls x = true -> k (x :: t) = None) ->
  greedy cls k s =
  match takeWhile cls s with
  | [] => None
  | _ :: _ => k (dropWhile cls s)
  end.
Proof.
  intros Hk. induction s as [|x s IH]; simpl; [reflexivity|].
  destruct (cls x) eqn:Hx; [|reflexivity]. rewrite IH.
  destruct (takeWhile cls s) as [|y run] eqn:E.
  - now rewrite (takeWhile_nil_dropWhile cls s E).
  - destruct (k (dropWhile cls s)) eqn:Ek; [reflexivity|].
    destruct s as [|z s']; [discriminate|]. simpl in E.
    destruct (cls z) eqn:Hz; [|discriminate]. now apply Hk.
Qed.

(** When the continuation succeeds exactly on the subjects that begin with
    [}}], the lazy run over any code unit stops at the first [}}]. *)
Definition starts_close (s : str) : bool :=
  match s with
  | a :: b :: _ => N.eqb a RBRACE && N.eqb b RBRACE
  | _ => false
  end.

Lemma lazy_first_close (k : cont) s :
  (forall t, starts_close t = false -> k t = None) ->
  (forall t, starts_close t = true -> k t <> None) ->
  lazy anyChar k s =
  match find_close s with
  | Some n => k (skipn n s)
  | None => None
  end.
Proof.
  intros Hno Hyes. induction s as [|a s IH].
  - simpl. now rewrite (Hno [] eq_refl).
  - destruct s as [|b s'].
    + simpl. now rewrite (Hno [a] eq_refl), (Hno [] eq_refl).
    + change (find_close (a :: b :: s')) with
        (if (N.eqb a RBRACE && N.eqb b RBRACE)%bool then Some 0
         else option_map S (find_close (b :: s'))).
      change (lazy anyChar k (a :: b :: s')) with
        (match k (a :: b :: s') with
         | Some r => Some r
         | None => lazy anyChar k (b :: s')
         end).
      destruct (N.eqb a RBRACE && N.eqb b RBRACE)%bool eqn:E.
      * pose proof (Hyes (a :: b :: s') E) as Hk. cbn [skipn].
        now destruct (k (a :: b :: s')).
      * rewrite (Hno (a :: b :: s') E), IH.
        now destruct (find_close (b :: s')).
Qed.

Lemma length_dropWhile {A} (p : A -> bool) l :
  length l - length (dropWhile p l) = length (takeWhile p l).
Proof.
  rewrite <- (takeWhile_dropWhile p l) at 1. rewrite length_app. lia.
Qed.

Lemma firstn_takeWhile {A} (p : A -> bool) l :
  firstn (length l - length (dropWhile p l)) l = takeWhile p l.
Proof.
  rewrite length_dropWhile. rewrite <- (takeWhile_dropWhile p l) at 2.
  induction (takeWhile p l); simpl; congruence.
Qed.

Lemma firstn_prefix {A} (p q : list A) :
  firstn (length (p ++ q) - length q) (p ++ q) = p.
Proof.
  replace (length (p ++ q) - length q) with (length p)
    by (rewrite length_app; lia).
  apply firstn_app_exact.
Qed.

Lemma bracketHighlightRegex_closed_form s :
  bracketHighlightRegex s = highlightAt s.
Proof.
  unfold bracketHighlightRegex, matcher, highlightAt.
  destruct s as [|c r]; [reflexivity|]. cbn [run step].
  destruct (N.eqb_spec c LBRACKET) as [->|]; [|reflexivity].
  rewrite greedy_whole_run.
  2:{ intros x t Hx. unfold notClose in Hx. apply negb_true_iff in Hx.
      now rewrite Hx. }
  pose proof (takeWhile_dropWhile notClose r) as Hr.
  destruct (takeWhile notClose r) as [|x run]; [reflexivity|].
  destruct (dropWhile notClose r) as [|d rest] eqn:D; [reflexivity|].
  pose proof (dropWhile_head notClose r d rest D) as Hd.
  unfold notClose in Hd. apply negb_false_iff in Hd. rewrite Hd.
  apply N.eqb_eq in Hd as ->. do 2 f_equal.
  replace (LBRACKET :: r)
    with ((LBRACKET :: (x :: run) ++ [RBRACKET]) ++ rest)
    by (rewrite <- Hr; cbn [app]; now rewrite <- app_assoc).
  apply firstn_prefix.
Qed.



Lemma isKeyChar_not_colon x : isKeyChar x = true -> N.eqb x COLON = false.
Proof.
  intros H. destruct (N.eqb_spec x COLON) as [->|]; [discriminate|reflexivity].
Qed.

Lemma find_close_split_raw s n :
  find_close s = Some n ->
  exists a b, s = a ++ RBRACE :: RBRACE :: b /\ length a = n.
Proof.
  revert n; induction s as [|x t IH]; intros n; simpl; [discriminate|].
  destruct t as [|y t']; [discriminate|].
  destruct (N.eqb x RBRACE && N.eqb y RBRACE)%bool eqn:E.
  - intros H; injection H as <-. apply andb_prop in E as [Hx Hy].
    apply N.eqb_eq in Hx as ->, Hy as ->. now exists [], t'.
  - destruct (find_close (y :: t')) as [n'|] eqn:F; [|discriminate].
    intros H; injection H as <-.
    destruct (IH _ eq_refl) as (a & b & Ht & Hlen).
    exists (x :: a), b. split; [now rewrite Ht | simpl; now rewrite Hlen].
Qed.

Lemma styleTokenRegex_closed_form s : styleTokenRegex s = tokenAt s.
Proof.
  unfold styleTokenRegex, matcher, tokenAt.
  destruct s as [|c1 [|c2 r]]; [reflexivity | |].
  { cbn [run step]. now destruct (N.eqb c1 LBRACE). }
  cbn [run step].
  destruct (N.eqb_spec c1 LBRACE) as [->|]; [|reflexivity].
  destruct (N.eqb_spec c2 LBRACE) as [->|]; [|reflexivity].
  cbn [andb]. rewrite greedy_whole_run.
  2:{ intros x t Hx. now rewrite (isKeyChar_not_colon x Hx). }
  pose proof (takeWhile_dropWhile isKeyChar r) as Hr.
  pose proof (firstn_takeWhile isKeyChar r) as Hkey.
  destruct (takeWhile isKeyChar r) as [|k key]; [reflexivity|].
  destruct (dropWhile isKeyChar r) as [|c3 r']; [reflexivity|].
  destruct (N.eqb_spec c3 COLON) as [->|]; [|reflexivity].
  rewrite lazy_first_close.
  2:{ intros [|a [|b t]] Ht; try reflexivity.
      - now destruct (N.eqb a RBRACE).
      - simpl in Ht. destruct (N.eqb a RBRACE); [|reflexivity].
        simpl in Ht. now rewrite Ht. }
  2:{ intros [|a [|b t]] Ht; try discriminate. simpl in Ht.
      apply andb_prop in Ht as [-> ->]. discriminate. }
  destruct (find_close r') as [n|] eqn:F; [|reflexivity].
  destruct (find_close_split_raw _ _ F) as (a & b & -> & <-).
  rewrite skipn_app_exact, !N.eqb_refl, firstn_app_exact.
  rewrite Hkey.
  rewrite (firstn_prefix a (RBRACE :: RBRACE :: b)).
  do 2 f_equal.
  replace (LBRACE :: LBRACE :: r)
    with (([LBRACE; LBRACE] ++ (k :: key) ++ [COLON] ++ a
           ++ [RBRACE; RBRACE]) ++ b)
    by (rewrite <- Hr; now repeat (rewrite <- app_assoc; cbn [app])).
  apply firstn_prefix.
Qed.

(** ** Progress of a scan

    Both patterns only match non-empty text, so every successful [exec]
    moves [lastIndex] forward; this is what makes the two [while] loops
    terminate. *)

Lemma scan_from re s i j m : scan re s i = Some (j, m) -> i <= j.
Proof.
  revert i; induction s as [|c s IH]; intros i; simpl;
    destruct (re _); intros H; try discriminate.
  - injection H as <- _. lia.
  - injection H as <- _. lia.
  - apply IH in H. lia.
Qed.

Lemma scan_matches re s i j m :
  scan re s i = Some (j, m) -> re (skipn (j - i) s) = Some m.
Proof.
  revert i; induction s as [|c s IH]; intros i; simpl;
    destruct (re _) eqn:E; intros H; try discriminate.
  - injection H as <- <-. now rewrite Nat.sub_diag.
  - injection H as <- <-. now rewrite Nat.sub_diag.
  - pose proof (scan_from _ _ _ _ _ H) as Hle. apply IH in H.
    replace (j - i) with (S (j - S i)) by lia. exact H.
Qed.

Lemma bracket_match_nonempty s m :
  bracketHighlightRegex s = Some m -> 0 < length (nth 0 m []).
Proof.
  rewrite bracketHighlightRegex_closed_form. unfold highlightAt.
  destruct s as [|c r]; [discriminate|].
  destruct (N.eqb c LBRACKET); [|discriminate].
  destruct (takeWhile notClose r); [discriminate|].
  destruct (dropWhile notClose r); [discriminate|].
  intros H; injection H as <-. simpl. lia.
Qed.

Lemma style_match_nonempty s m :
  styleTokenRegex s = Some m -> 0 < length (nth 0 m []).
Proof.
  rewrite styleTokenRegex_closed_form. unfold tokenAt.
  destruct s as [|c1 [|c2 r]]; try discriminate.
  destruct (_ && _)%bool; [|discriminate].
  destruct (takeWhile isKeyChar r); [discriminate|].
  destruct (dropWhile isKeyChar r) as [|c3 r']; [discriminate|].
  destruct (N.eqb c3 COLON); [|discriminate].
  destruct (find_close r'); [|discriminate].
  intros H; injection H as <-. simpl. lia.
Qed.

Lemma exec_progress re lastIndex text i m lastIndex' :
  (forall s m, re s = Some m -> 0 < length (nth 0 m [])) ->
  exec re lastIndex text = (Some (i, m), lastIndex') ->
  length text + 1 - lastIndex' < length text + 1 - lastIndex.
Proof.
  intros Hne. unfold exec.
  destruct (Nat.ltb_spec (length text) lastIndex); [discriminate|].
  destruct (scan _ _ _) as [[j x]|] eqn:E; [|discriminate].
  intros H0; injection H0 as <- <- <-.
  pose proof (scan_from _ _ _ _ _ E). apply scan_matches, Hne in E. lia.
Qed.

Definition inspect {A} (a : A) : {b : A | a = b} := exist _ a eq_refl.

(** ** The interpreter *)

Section Interpreter.

(** The style table the functions read; the repository's table is
    [RICH_TEXT_STYLES]. *)
Variable styles : object.

(** The [while] loop of [renderBracketHighlights]; its state is the
    pattern's [lastIndex] and the locals [lastIndex], [matchIndex] and
    [nodes].  The result is what the function returns after the loop. *)
Equations? bracketLoop (text keyPrefix : str)
    (reLastIndex lastIndex matchIndex : nat) (nodes : list node)
  : list node by wf (length text + 1 - reLastIndex) lt :=
  bracketLoop text keyPrefix reLastIndex lastIndex matchIndex nodes
    with inspect (exec bracketHighlightRegex reLastIndex text) := {
    | exist _ (Some (start, m), reLastIndex') _ =>
        let match0 := nth 0 m [] in
        let nodes1 :=
          if lastIndex <? start
          then nodes ++ [Text (slice text lastIndex start)]
          else nodes in
        let nodes2 :=
          nodes1 ++ [Span (keyPrefix ++ js "-mark-" ++ decimal matchIndex)
                          (get styles (js "mark")) [Text match0]] in
        bracketLoop text keyPrefix reLastIndex' (start + length match0)
                    (matchIndex + 1) nodes2
    | exist _ (None, _) _ =>
        if lastIndex <? length text
        then nodes ++ [Text (sliceFrom text lastIndex)]
        else nodes }.
Proof.
  eapply exec_progress; [exact bracket_match_nonempty | eassumption].
Qed.

Definition renderBracketHighlights (text keyPrefix : str) : list node :=
  bracketLoop text keyPrefix 0 0 0 [].

(** The [while] loop of [renderRichTextInternal]; [rec content prefix]
    stands for the recursive call
    [renderRichTextInternal(content, prefix, depth + 1)]. *)
Equations? styleLoop (rec : str -> str -> list node) (text keyPrefix : str)
    (reLastIndex lastIndex matchIndex : nat) (nodes : list node)
  : list node by wf (length text + 1 - reLastIndex) lt :=
  styleLoop rec text keyPrefix reLastIndex lastIndex matchIndex nodes
    with inspect (exec styleTokenRegex reLastIndex text) := {
    | exist _ (Some (start, m), reLastIndex') _ =>
        let fullMatch := nth 0 m [] in
        let rawStyleKey := nth_error m 1 in
        let rawContent := nth_error m 2 in
        let styleKey := trim (or_empty rawStyleKey) in
        let content := nullish_empty rawContent in
        let nodes1 :=
          if lastIndex <? start
          then nodes ++ renderBracketHighlights (slice text lastIndex start)
                          (keyPrefix ++ js "-p-" ++ decimal matchIndex)
          else nodes in
        let children :=
          rec content (keyPrefix ++ js "-s-" ++ decimal matchIndex) in
        let styleClass := get styles styleKey in
        let nodes2 :=
          if truthy styleClass
          then nodes1 ++ [Span (keyPrefix ++ js "-span-" ++ decimal matchIndex)
                               styleClass children]
          else nodes1 ++ children in
        styleLoop rec text keyPrefix reLastIndex' (start + length fullMatch)
                  (matchIndex + 1) nodes2
    | exist _ (None, _) _ =>
        if lastIndex <? length text
        then nodes ++ renderBracketHighlights (sliceFrom text lastIndex)
                        (keyPrefix ++ js "-tail")
        else nodes }.
Proof.
  eapply exec_progress; [exact style_match_nonempty | eassumption].
Qed.

(** [text] is a string or [undefined] ([None]); [!text] holds for
    [undefined] and for the empty string. *)
Equations? renderRichTextInternal (text : option str) (keyPrefix : str)
    (depth : nat) : list node by wf (9 - depth) lt :=
  renderRichTextInternal None _ _ := [];
  renderRichTextInternal (Some []) _ _ := [];
  renderRichTextInternal (Some (c :: t)) keyPrefix depth
    with le_lt_dec depth 8 := {
    | right _ => [Text (c :: t)]
    | left _ =>
        styleLoop
          (fun content prefix =>
             renderRichTextInternal (Some content) prefix (depth + 1))
          (c :: t) keyPrefix 0 0 0 [] }.
Proof. change (9 - (depth + 1) < 9 - depth). lia. Qed.

Definition renderRichText (text : option str) : list node :=
  renderRichTextInternal text (js "rt") 0.

(** The component renders [null] ([None]) for an absent or empty text and
    the fragment of the rendered nodes otherwise. *)
Definition RichText (text : option str) : option (list node) :=
  match text with
  | None | Some [] => None
  | Some _ => Some (renderRichText text)
  end.

End Interpreter.

(** The interpreter of the repository. *)
Definition interpret (text : option str) : list node :=
  renderRichText RICH_TEXT_STYLES text.

(** ** The markup grammar of the specification

    Side conditions are boolean so that they can be checked by evaluation. *)

Definition OPEN : str := [LBRACE; LBRACE].
Definition CLOSE : str := [RBRACE; RBRACE].

Fixpoint prefixb (p s : str) : bool :=
  match p, s with
  | [], _ => true
  | x :: p', y :: s' => N.eqb y x && prefixb p' s'
  | _ :: _, [] => false
  end.

(** [contains p s]: [p] occurs in [s] as a run of consecutive code units. *)
Fixpoint contains (p s : str) : bool :=
  prefixb p s || match s with [] => false | _ :: t => contains p t end.

Definition mem (c : code_unit) (s : str) : bool := existsb (N.eqb c) s.

(** A key matches [[a-zA-Z0-9_-]+]. *)
Definition valid_key (k : str) : bool :=
  match k with [] => false | _ => forallb isKeyChar k end.

(** The text of the style token [{{key:content}}]. *)
Definition token (key content : str) : str :=
  OPEN ++ key ++ [COLON] ++ content ++ CLOSE.

(** The content of a token is the minimal run up to the first following
    [}}]: no [}}] begins inside the content. *)
Definition minimal_content (c : str) : bool := negb (contains CLOSE (c ++ [RBRACE])).

(** A style token begins at the head of [s]. *)
Definition starts_token (s : str) : Prop :=
  exists k c rest, valid_key k = true /\ s = token k c ++ rest.

(** [strips s out]: [out] is [s] without the [{{key:] and [}}] of the
    tokens the code finds in it, reading left to right, a token ending at
    the first [}}] after its key, and the content of a token read in
    turn. *)
Inductive strips : str -> str -> Prop :=
| strips_end : strips [] []
| strips_token k c rest c' rest' :
    valid_key k = true -> minimal_content c = true ->
    strips c c' -> strips rest rest' ->
    strips (token k c ++ rest) (c' ++ rest')
| strips_unit x t t' :
    ~ starts_token (x :: t) -> strips t t' -> strips (x :: t) (x :: t').

(** The opener [{{key:] of a token begins at the head of [s], and begins
    somewhere in [s]. *)
Definition starts_opener (s : str) : bool :=
  match s with
  | c1 :: c2 :: r =>
      N.eqb c1 LBRACE && N.eqb c2 LBRACE
      && match takeWhile isKeyChar r, dropWhile isKeyChar r with
         | _ :: _, c3 :: _ => N.eqb c3 COLON
         | _, _ => false
         end
  | _ => false
  end.

Fixpoint holds_opener (s : str) : bool :=
  starts_opener s
  || match s with [] => false | _ :: t => holds_opener t end.

(** [removes s out]: [s] is read left to right as text and style tokens
    whose content holds no opener of another token, that is, without a
    token inside a token, and [out] is [s] without the [{{key:] and [}}] of
    these tokens.  A text with an opener inside the content of a token has
    no such reading. *)
Inductive removes : str -> str -> Prop :=
| removes_end : removes [] []
| removes_token k c rest rest' :
    valid_key k = true -> minimal_content c = true ->
    holds_opener c = false ->
    removes rest rest' ->
    removes (token k c ++ rest) (c ++ rest')
| removes_unit x t t' :
    ~ starts_token (x :: t) -> removes t t' -> removes (x :: t) (x :: t').

(** The last code unit of [s] is [}]. *)
Definition ends_with_rbrace (s : str) : bool :=
  match rev s with x :: _ => N.eqb x RBRACE | [] => false end.

(** [s] without any bracket glyph. *)
Definition without_brackets (s : str) : str :=
  filter (fun c => negb (N.eqb c LBRACKET || N.eqb c RBRACKET)) s.

(** [n] levels of [{{a:...}}] around [inner]. *)
Fixpoint nested (n : nat) (inner : str) : str :=
  match n with
  | 0 => inner
  | S n' => js "{{a:" ++ nested n' inner ++ js "}}"
  end.

Fixpoint opens (n : nat) : str :=
  match n with 0 => [] | S n' => js "{{a:" ++ opens n' end.

Fixpoint closes (n : nat) : str :=
  match n with 0 => [] | S n' => js "}}" ++ closes n' end.

(** A bracket highlight begins at the head of [s]: the opening bracket, a
    non-empty run without the closing bracket, the closing bracket. *)
Definition highlight (body : str) : str := [LBRACKET] ++ body ++ [RBRACKET].

Definition starts_highlight (s : str) : Prop :=
  exists body rest,
    body <> [] /\ mem RBRACKET body = false /\ s = highlight body ++ rest.

(** Well-formed markup, after the grammar: plain text and style tokens
    alternate, the content of a token is markup in turn (so tokens nest),
    plain text holds neither [{{] nor [}}], keys are valid. *)
Inductive markup :=
| Plain (t : str)
| Styled (t key : str) (content : markup) (rest : markup).

Fixpoint unparse (d : markup) : str :=
  match d with
  | Plain t => t
  | Styled t k c rest => t ++ token k (unparse c) ++ unparse rest
  end.

(** The text of the markup: everything but the [{{key:] and [}}] of its
    tokens, at every level. *)
Fixpoint visible (d : markup) : str :=
  match d with
  | Plain t => t
  | Styled t _ c rest => t ++ visible c ++ visible rest
  end.

Definition brace_free (t : str) : bool :=
  negb (contains OPEN t) && negb (contains CLOSE t).

Fixpoint well_formed (d : markup) : bool :=
  match d with
  | Plain t => brace_free t
  | Styled t k c rest =>
      brace_free t && valid_key k && well_formed c && well_formed rest
  end.

(** Markup without nesting: the content of every token is plain text. *)
Fixpoint flat (d : markup) : bool :=
  match d with
  | Plain _ => true
  | Styled _ _ (Plain _) rest => flat rest
  | Styled _ _ (Styled _ _ _ _) _ => false
  end.

(** The smallest nested document, [{{red:a{{blue:b}}c}}]. *)
Definition nested_example : markup :=
  Styled [] (js "red")
    (Styled (js "a") (js "blue") (Plain (js "b")) (Plain (js "c")))
    (Plain []).

(** ** Notions used to state the properties *)

(** No match begins at a position inside [gap] when [gap] is followed by
    [suf]. *)
Definition no_match_in (re : pattern) (gap suf : str) : Prop :=
  forall a x b, gap = a ++ x :: b -> re (x :: b ++ suf) = None.

(** The text node pushed for a gap, when the gap is not empty. *)
Definition plain (s : str) : list node :=
  match s with [] => [] | _ => [Text s] end.

(** The span pushed for a bracket highlight. *)
Definition mark_span (styles : object) (keyPrefix : str) (matchIndex : nat) (body : str) : node :=
  Span (keyPrefix ++ js "-mark-" ++ decimal matchIndex)
       (get styles (js "mark")) [Text (highlight body)].

(** The node pushed for a style token: a span when the looked-up class is
    truthy, the bare children otherwise. *)
Definition token_nodes (styles : object) (keyPrefix : str) (matchIndex : nat) (key : str)
    (children : list node) : list node :=
  if truthy (get styles key)
  then [Span (keyPrefix ++ js "-span-" ++ decimal matchIndex)
             (get styles key) children]
  else children.

(** The bracket pass, declaratively.
    [bracket_pass styles keyPrefix i s nodes]: reading [s] left to right,
    every bracket highlight becomes one span of style [mark] around the
    matched run with both brackets, numbered from [i]; the text between and
    around the highlights becomes plain text nodes. *)

Inductive bracket_pass (styles : object) (keyPrefix : str)
  : nat -> str -> list node -> Prop :=
| bracket_pass_done i s :
    (forall a b, s = a ++ b -> ~ starts_highlight b) ->
    bracket_pass styles keyPrefix i s (plain s)
| bracket_pass_highlight i gap body rest nodes :
    (forall a x b, gap = a ++ x :: b ->
                   ~ starts_highlight (x :: b ++ highlight body ++ rest)) ->
    body <> [] -> mem RBRACKET body = false ->
    bracket_pass styles keyPrefix (i + 1) rest nodes ->
    bracket_pass styles keyPrefix i (gap ++ highlight body ++ rest)
      (plain gap ++ mark_span styles keyPrefix i body :: nodes).

(** Equality of looked-up values, and tables whose keys all get the same
    value from either table. *)
Definition jsvalue_eqb (a b : jsvalue) : bool :=
  match a, b with
  | JString x, JString y => str_eqb x y
  | JInherited x, JInherited y => str_eqb x y
  | JUndefined, JUndefined => true
  | _, _ => false
  end.

Definition same_entries (t1 t2 : object) : bool :=
  forallb (fun k => jsvalue_eqb (get t1 k) (get t2 k))
          (map fst t1 ++ map fst t2).

(** * Properties *)

(** ** The loops, one iteration at a time *)

Section Unfolding.

Variable styles : object.

Lemma bracketLoop_iter text keyPrefix reLastIndex lastIndex matchIndex nodes :
  bracketLoop styles text keyPrefix reLastIndex lastIndex matchIndex nodes =
  match exec bracketHighlightRegex reLastIndex text with
  | (Some (start, m), reLastIndex') =>
      bracketLoop styles text keyPrefix reLastIndex'
        (start + length (nth 0 m [])) (matchIndex + 1)
        ((if lastIndex <? start
          then nodes ++ [Text (slice text lastIndex start)] else nodes)
         ++ [Span (keyPrefix ++ js "-mark-" ++ decimal matchIndex)
                  (get styles (js "mark")) [Text (nth 0 m [])]])
  | (None, _) =>
      if lastIndex <? length text
      then nodes ++ [Text (sliceFrom text lastIndex)] else nodes
  end.
Proof.
  rewrite bracketLoop_equation_1.
  destruct (inspect (exec bracketHighlightRegex reLastIndex text))
    as [[[[start m]|] r'] E];
    cbn [bracketLoop_unfold_clause_1 styleLoop_unfold_clause_1];
    rewrite E; reflexivity.
Qed.

Lemma styleLoop_iter rec text keyPrefix reLastIndex lastIndex matchIndex nodes :
  styleLoop styles rec text keyPrefix reLastIndex lastIndex matchIndex nodes =
  match exec styleTokenRegex reLastIndex text with
  | (Some (start, m), reLastIndex') =>
      let styleClass := get styles (trim (or_empty (nth_error m 1))) in
      let children :=
        rec (nullish_empty (nth_error m 2))
            (keyPrefix ++ js "-s-" ++ decimal matchIndex) in
      let nodes1 :=
        if lastIndex <? start
        then nodes ++ renderBracketHighlights styles (slice text lastIndex start)
                        (keyPrefix ++ js "-p-" ++ decimal matchIndex)
        else nodes in
      styleLoop styles rec text keyPrefix reLastIndex'
        (start + length (nth 0 m [])) (matchIndex + 1)
        (if truthy styleClass
         then nodes1 ++ [Span (keyPrefix ++ js "-span-" ++ decimal matchIndex)
                              styleClass children]
         else nodes1 ++ children)
  | (None, _) =>
      if lastIndex <? length text
      then nodes ++ renderBracketHighlights styles (sliceFrom text lastIndex)
                      (keyPrefix ++ js "-tail")
      else nodes
  end.
Proof.
  rewrite styleLoop_equation_1.
  destruct (inspect (exec styleTokenRegex reLastIndex text))
    as [[[[start m]|] r'] E];
    cbn [bracketLoop_unfold_clause_1 styleLoop_unfold_clause_1];
    rewrite E; reflexivity.
Qed.

Lemma renderRichTextInternal_body text keyPrefix depth :
  renderRichTextInternal styles text keyPrefix depth =
  match text with
  | None | Some [] => []
  | Some (c :: t) =>
      if 8 <? depth then [Text (c :: t)]
      else styleLoop styles
             (fun content prefix =>
                renderRichTextInternal styles (Some content) prefix (depth + 1))
             (c :: t) keyPrefix 0 0 0 []
  end.
Proof.
  destruct text as [[|c t]|]; simp renderRichTextInternal; try reflexivity.
  destruct (le_lt_dec depth 8) as [H|H]; simpl.
  - destruct (Nat.ltb_spec 8 depth); [lia | reflexivity].
  - destruct (Nat.ltb_spec 8 depth); [reflexivity | lia].
Qed.

End Unfolding.

(** ** Lists and substrings *)

Ltac norm_app := repeat rewrite <- app_assoc; cbn [app].

Lemma takeWhile_all {A} (p : A -> bool) l : forallb p (takeWhile p l) = true.
Proof.
  induction l as [|x l IH]; simpl; [reflexivity|].
  destruct (p x) eqn:E; simpl; [now rewrite E | reflexivity].
Qed.

Lemma takeWhile_app {A} (p : A -> bool) k x r :
  forallb p k = true -> p x = false -> takeWhile p (k ++ x :: r) = k.
Proof.
  induction k as [|y k IH]; simpl; intros Hk Hx.
  - now rewrite Hx.
  - apply andb_prop in Hk as [-> Hk]. now rewrite IH.
Qed.

Lemma dropWhile_app {A} (p : A -> bool) k x r :
  forallb p k = true -> p x = false -> dropWhile p (k ++ x :: r) = x :: r.
Proof.
  induction k as [|y k IH]; simpl; intros Hk Hx.
  - now rewrite Hx.
  - apply andb_prop in Hk as [-> Hk]. now rewrite IH.
Qed.

Lemma prefixb_app p s : prefixb p (p ++ s) = true.
Proof.
  induction p as [|x p IH]; simpl; [reflexivity|].
  now rewrite N.eqb_refl, IH.
Qed.

Lemma prefixb_split p s : prefixb p s = true -> exists r, s = p ++ r.
Proof.
  revert s; induction p as [|x p IH]; intros s; simpl.
  - now exists s.
  - destruct s as [|y s]; [discriminate|]. intros H.
    apply andb_prop in H as [Hx Hp]. apply N.eqb_eq in Hx as ->.
    destruct (IH _ Hp) as [r ->]. now exists r.
Qed.

Lemma contains_prefix p s : prefixb p s = true -> contains p s = true.
Proof. intros H. destruct s; simpl; rewrite H; reflexivity. Qed.

Lemma contains_app p a b : contains p (a ++ p ++ b) = true.
Proof.
  induction a as [|x a IH].
  - apply contains_prefix, (prefixb_app p b).
  - simpl. simpl in IH. rewrite IH. apply orb_true_r.
Qed.

Lemma contains_split p s :
  contains p s = true -> exists a b, s = a ++ p ++ b.
Proof.
  induction s as [|x s IH]; simpl; intros H.
  - rewrite orb_false_r in H. destruct (prefixb_split _ _ H) as [r Hr].
    now exists [], r.
  - apply orb_prop in H as [H|H].
    + destruct (prefixb_split _ _ H) as [r Hr]. now exists [], r.
    + destruct (IH H) as (a & b & ->). now exists (x :: a), b.
Qed.

Lemma contains_false_app_l p a b :
  contains p (a ++ b) = false -> contains p a = false.
Proof.
  intros H. destruct (contains p a) eqn:E; [|reflexivity].
  destruct (contains_split _ _ E) as (u & v & ->).
  rewrite <- !app_assoc, contains_app in H. discriminate.
Qed.

Lemma contains_false_app_r p a b :
  contains p (a ++ b) = false -> contains p b = false.
Proof.
  intros H. destruct (contains p b) eqn:E; [|reflexivity].
  destruct (contains_split _ _ E) as (u & v & ->).
  rewrite app_assoc, contains_app in H. discriminate.
Qed.

Lemma contains_false_tail p x s :
  contains p (x :: s) = false -> contains p s = false.
Proof. apply (contains_false_app_r p [x] s). Qed.

Lemma mem_app c a b : mem c (a ++ b) = mem c a || mem c b.
Proof. apply existsb_app. Qed.

Lemma skipn_skipn_add {A} (l : list A) a b : skipn a (skipn b l) = skipn (a + b) l.
Proof.
  revert l; induction b as [|b IH]; intros l.
  - now rewrite Nat.add_0_r.
  - destruct l as [|x l]; [now rewrite !skipn_nil|].
    rewrite Nat.add_succ_r. simpl. apply IH.
Qed.

(** ** What the two patterns match *)

Lemma find_close_split s n :
  find_close s = Some n ->
  exists a b, s = a ++ CLOSE ++ b /\ length a = n /\ minimal_content a = true.
Proof.
  revert n; induction s as [|x t IH]; intros n; simpl; [discriminate|].
  destruct t as [|y t']; [discriminate|].
  destruct (N.eqb x RBRACE && N.eqb y RBRACE)%bool eqn:E.
  - intros H; injection H as <-. apply andb_prop in E as [Hx Hy].
    apply N.eqb_eq in Hx as ->, Hy as ->. now exists [], t'.
  - destruct (find_close (y :: t')) as [n'|] eqn:F; [|discriminate].
    intros H; injection H as <-.
    destruct (IH _ eq_refl) as (a & b & Ht & Hlen & Hmin).
    exists (x :: a), b.
    split; [change (x :: y :: t' = x :: (a ++ CLOSE ++ b)); now rewrite Ht|].
    split; [simpl; now rewrite Hlen|].
    unfold minimal_content in *. apply negb_true_iff in Hmin.
    apply negb_true_iff. simpl. simpl in Hmin. rewrite Hmin, orb_false_r.
    destruct a as [|z a]; simpl in *.
    + injection Ht as -> _. now rewrite N.eqb_refl, andb_true_r in *.
    + injection Ht as -> _. now rewrite andb_true_r.
Qed.

Lemma find_close_found a b :
  minimal_content a = true -> find_close (a ++ CLOSE ++ b) = Some (length a).
Proof.
  unfold minimal_content. induction a as [|x a IH]; intros H.
  - reflexivity.
  - apply negb_true_iff in H.
    pose proof (contains_false_tail _ _ _ H) as Ha.
    simpl in H. apply orb_false_elim in H as [Hp _].
    change ((x :: a) ++ CLOSE ++ b) with (x :: (a ++ CLOSE ++ b)).
    change (find_close (x :: a ++ CLOSE ++ b)) with
      (match a ++ CLOSE ++ b with
       | y :: _ => if (N.eqb x RBRACE && N.eqb y RBRACE)%bool then Some 0
                   else option_map S (find_close (a ++ CLOSE ++ b))
       | [] => None
       end).
    rewrite IH by now apply negb_true_iff.
    destruct a as [|y a]; simpl in *.
    + rewrite andb_true_r in Hp. now rewrite Hp.
    + rewrite andb_true_r in Hp. now rewrite Hp.
Qed.

Lemma find_close_some s :
  contains CLOSE s = true -> exists n, find_close s = Some n.
Proof.
  induction s as [|x t IH]; [discriminate|].
  intros H. change (contains CLOSE (x :: t)) with
    (prefixb CLOSE (x :: t) || contains CLOSE t)%bool in H.
  apply orb_prop in H as [H|H].
  - destruct (prefixb_split _ _ H) as [r Hr]. injection Hr as -> ->.
    now exists 0.
  - destruct (IH H) as [n Hn]. destruct t as [|y t']; [discriminate|].
    simpl. simpl in Hn.
    destruct (N.eqb x RBRACE && N.eqb y RBRACE)%bool; [now exists 0|].
    rewrite Hn. now exists (S n).
Qed.

Lemma isKeyChar_colon : isKeyChar COLON = false.
Proof. reflexivity. Qed.

Lemma style_match_sound s m :
  styleTokenRegex s = Some m ->
  exists k c rest,
    valid_key k = true /\ minimal_content c = true /\
    s = token k c ++ rest /\ m = [token k c; k; c].
Proof.
  rewrite styleTokenRegex_closed_form. unfold tokenAt.
  destruct s as [|c1 [|c2 r]]; try discriminate.
  destruct (N.eqb c1 LBRACE && N.eqb c2 LBRACE)%bool eqn:E; [|discriminate].
  apply andb_prop in E as [H1 H2]. apply N.eqb_eq in H1 as ->, H2 as ->.
  pose proof (takeWhile_dropWhile isKeyChar r) as Hr.
  pose proof (takeWhile_all isKeyChar r) as Hk.
  destruct (takeWhile isKeyChar r) as [|k key]; [discriminate|].
  destruct (dropWhile isKeyChar r) as [|c3 r']; [discriminate|].
  destruct (N.eqb_spec c3 COLON) as [->|]; [|discriminate].
  destruct (find_close r') as [n|] eqn:F; [|discriminate].
  destruct (find_close_split _ _ F) as (a & b & -> & <- & Hmin).
  rewrite firstn_app_exact. intros H; injection H as <-.
  exists (k :: key), a, b. repeat split; try assumption.
  rewrite <- Hr. unfold token, OPEN. now norm_app.
Qed.

Lemma style_match_complete k c rest :
  valid_key k = true -> minimal_content c = true ->
  styleTokenRegex (token k c ++ rest) = Some [token k c; k; c].
Proof.
  intros Hk Hc. destruct k as [|k0 k]; [discriminate|].
  unfold valid_key in Hk.
  unfold token, OPEN. rewrite <- !app_assoc.
  change ([LBRACE; LBRACE] ++ (k0 :: k) ++ [COLON] ++ c ++ CLOSE ++ rest)
    with (LBRACE :: LBRACE :: ((k0 :: k) ++ COLON :: (c ++ CLOSE ++ rest))).
  rewrite styleTokenRegex_closed_form. unfold tokenAt. rewrite !N.eqb_refl.
  rewrite (takeWhile_app isKeyChar _ _ _ Hk isKeyChar_colon).
  rewrite (dropWhile_app isKeyChar _ _ _ Hk isKeyChar_colon).
  rewrite N.eqb_refl, (find_close_found _ _ Hc), firstn_app_exact.
  reflexivity.
Qed.

Lemma style_match_starts s : starts_token s -> styleTokenRegex s <> None.
Proof.
  intros (k & c & rest & Hk & ->). destruct k as [|k0 k]; [discriminate|].
  unfold valid_key in Hk.
  unfold token, OPEN. rewrite <- !app_assoc.
  change ([LBRACE; LBRACE] ++ (k0 :: k) ++ [COLON] ++ c ++ CLOSE ++ rest)
    with (LBRACE :: LBRACE :: ((k0 :: k) ++ COLON :: (c ++ CLOSE ++ rest))).
  rewrite styleTokenRegex_closed_form. unfold tokenAt. rewrite !N.eqb_refl.
  rewrite (takeWhile_app isKeyChar _ _ _ Hk isKeyChar_colon).
  rewrite (dropWhile_app isKeyChar _ _ _ Hk isKeyChar_colon).
  rewrite N.eqb_refl.
  destruct (find_close_some (c ++ CLOSE ++ rest) (contains_app _ _ _))
    as [n ->].
  discriminate.
Qed.

Lemma style_none_no_token s : styleTokenRegex s = None -> ~ starts_token s.
Proof. intros H Hs. now apply style_match_starts in Hs. Qed.

Lemma notClose_all body :
  forallb notClose body = true <-> mem RBRACKET body = false.
Proof.
  unfold mem. induction body as [|x body IH]; cbn [forallb existsb]; [tauto|].
  unfold notClose at 1. rewrite (N.eqb_sym RBRACKET x).
  destruct (N.eqb x RBRACKET); cbn [negb andb orb];
    [split; discriminate | exact IH].
Qed.

Lemma bracket_match_sound s m :
  bracketHighlightRegex s = Some m ->
  exists body rest,
    body <> [] /\ mem RBRACKET body = false /\
    s = highlight body ++ rest /\ m = [highlight body].
Proof.
  rewrite bracketHighlightRegex_closed_form. unfold highlightAt.
  destruct s as [|c r]; [discriminate|].
  destruct (N.eqb_spec c LBRACKET) as [->|]; [|discriminate].
  pose proof (takeWhile_dropWhile notClose r) as Hr.
  pose proof (takeWhile_all notClose r) as Hb.
  destruct (takeWhile notClose r) as [|x run]; [discriminate|].
  destruct (dropWhile notClose r) as [|d rest] eqn:D; [discriminate|].
  apply dropWhile_head in D. unfold notClose in D.
  apply negb_false_iff, N.eqb_eq in D as ->.
  intros H; injection H as <-.
  exists (x :: run), rest. repeat split.
  - discriminate.
  - now apply notClose_all.
  - unfold highlight. rewrite <- Hr. now norm_app.
Qed.

Lemma bracket_match_complete body rest :
  body <> [] -> mem RBRACKET body = false ->
  bracketHighlightRegex (highlight body ++ rest) = Some [highlight body].
Proof.
  intros Hne Hb. apply notClose_all in Hb.
  destruct body as [|x body]; [congruence|].
  unfold highlight. rewrite <- !app_assoc.
  change ([LBRACKET] ++ (x :: body) ++ [RBRACKET] ++ rest)
    with (LBRACKET :: ((x :: body) ++ RBRACKET :: rest)).
  rewrite bracketHighlightRegex_closed_form. unfold highlightAt.
  rewrite N.eqb_refl.
  rewrite (takeWhile_app notClose _ RBRACKET _ Hb eq_refl).
  rewrite (dropWhile_app notClose _ RBRACKET _ Hb eq_refl).
  reflexivity.
Qed.

Lemma bracket_none_no_highlight s :
  bracketHighlightRegex s = None -> ~ starts_highlight s.
Proof.
  intros H (body & rest & Hne & Hb & ->).
  now rewrite bracket_match_complete in H.
Qed.

(** ** What a scan finds *)

Lemma no_match_in_tail re x gap suf :
  no_match_in re (x :: gap) suf -> no_match_in re gap suf.
Proof. intros H a y b ->. apply (H (x :: a) y b). reflexivity. Qed.

Lemma scan_found re gap suf i m :
  no_match_in re gap suf -> re suf = Some m ->
  scan re (gap ++ suf) i = Some (i + length gap, m).
Proof.
  revert i; induction gap as [|x gap IH]; intros i Hgap Hm.
  - simpl. destruct suf; simpl; rewrite Hm; f_equal; f_equal; lia.
  - simpl. rewrite (Hgap [] x gap eq_refl).
    rewrite IH; [f_equal; f_equal; lia | | exact Hm].
    now apply no_match_in_tail with x.
Qed.

Lemma scan_none re s i :
  (forall a b, s = a ++ b -> re b = None) -> scan re s i = None.
Proof.
  revert i; induction s as [|x s IH]; intros i H.
  - simpl. now rewrite (H [] [] eq_refl).
  - simpl. rewrite (H [] (x :: s) eq_refl). apply IH.
    intros a b ->. now apply (H (x :: a) b).
Qed.

Lemma scan_some_inv re s i j m :
  scan re s i = Some (j, m) ->
  exists gap suf,
    s = gap ++ suf /\ j = i + length gap /\ re suf = Some m /\
    no_match_in re gap suf.
Proof.
  revert i; induction s as [|x s IH]; intros i; simpl.
  - destruct (re []) eqn:E; [|discriminate].
    intros H; injection H as <- <-. exists [], [].
    split; [reflexivity|]. split; [simpl; lia|]. split; [exact E|].
    intros [|? ?] ? ?; discriminate.
  - destruct (re (x :: s)) eqn:E.
    + intros H; injection H as <- <-. exists [], (x :: s).
      split; [reflexivity|]. split; [simpl; lia|]. split; [exact E|].
      intros [|? ?] ? ?; discriminate.
    + intros H. destruct (IH _ H) as (gap & suf & -> & -> & Hm & Hgap).
      exists (x :: gap), suf.
      split; [reflexivity|]. split; [simpl; lia|]. split; [exact Hm|].
      intros [|y a] z b Heq; injection Heq as -> ->; [exact E|].
      now apply (Hgap a z b).
Qed.

Lemma scan_none_inv re s i :
  scan re s i = None -> forall a b, s = a ++ b -> re b = None.
Proof.
  revert i; induction s as [|x s IH]; intros i; simpl.
  - destruct (re []) eqn:E; [discriminate|]. intros _ a b H.
    symmetry in H. apply app_eq_nil in H as [_ ->]. exact E.
  - destruct (re (x :: s)) eqn:E; [discriminate|]. intros H a b Heq.
    destruct a as [|y a]; simpl in Heq.
    + now subst b.
    + injection Heq as _ ->. now apply (IH _ H a b).
Qed.

Lemma exec_found re text p gap suf m :
  p <= length text -> skipn p text = gap ++ suf ->
  no_match_in re gap suf -> re suf = Some m ->
  exec re p text
  = (Some (p + length gap, m), p + length gap + length (nth 0 m [])).
Proof.
  intros Hp Hs Hgap Hm. unfold exec.
  destruct (Nat.ltb_spec (length text) p); [lia|].
  now rewrite Hs, (scan_found re gap suf p m Hgap Hm).
Qed.

Lemma exec_none re text p :
  (forall a b, skipn p text = a ++ b -> re b = None) ->
  exec re p text = (None, 0).
Proof.
  intros H. unfold exec. destruct (length text <? p); [reflexivity|].
  now rewrite scan_none.
Qed.

Lemma exec_cases re text p :
  p <= length text ->
  (exec re p text = (None, 0) /\
   forall a b, skipn p text = a ++ b -> re b = None)
  \/ exists gap suf m,
       skipn p text = gap ++ suf /\ no_match_in re gap suf /\
       re suf = Some m /\
       exec re p text
       = (Some (p + length gap, m), p + length gap + length (nth 0 m [])).
Proof.
  intros Hp. destruct (scan re (skipn p text) p) as [[j m]|] eqn:E.
  - right. destruct (scan_some_inv _ _ _ _ _ E) as (gap & suf & Hs & -> & Hm & Hg).
    exists gap, suf, m. repeat split; auto. now apply exec_found with suf.
  - left. pose proof (scan_none_inv _ _ _ E) as H. split; auto.
    now apply exec_none.
Qed.

(** Positions and suffixes. *)
Lemma suffix_bounds (text : str) p a b :
  p <= length text -> skipn p text = a ++ b ->
  p + length a <= length text /\ skipn (p + length a) text = b /\
  slice text p (p + length a) = a.
Proof.
  intros Hp Hs.
  assert (Hlen : length (skipn p text) = length text - p) by apply length_skipn.
  rewrite Hs, length_app in Hlen. split; [lia|]. split.
  - rewrite Nat.add_comm, <- skipn_skipn_add, Hs. apply skipn_app_exact.
  - unfold slice. replace (p + length a - p) with (length a) by lia.
    rewrite Hs. apply firstn_app_exact.
Qed.

Lemma text_of_app a b : text_of (a ++ b) = text_of a ++ text_of b.
Proof. apply flat_map_app. Qed.

(** ** One iteration of each loop, from the shape of the remaining text

    In both loops the pattern's [lastIndex] and the local [lastIndex]
    coincide: they start at 0 and are both set to the end of each match. *)

Section Iterations.

Variable styles : object.

Lemma bracketLoop_highlight text keyPrefix p matchIndex nodes gap body rest :
  p <= length text -> skipn p text = gap ++ highlight body ++ rest ->
  no_match_in bracketHighlightRegex gap (highlight body ++ rest) ->
  body <> [] -> mem RBRACKET body = false ->
  bracketLoop styles text keyPrefix p p matchIndex nodes =
  bracketLoop styles text keyPrefix
    (p + length gap + length (highlight body))
    (p + length gap + length (highlight body)) (matchIndex + 1)
    (nodes ++ plain gap ++ [mark_span styles keyPrefix matchIndex body]).
Proof.
  intros Hp Hs Hgap Hne Hb.
  rewrite bracketLoop_iter.
  rewrite (exec_found _ text p gap _ _ Hp Hs Hgap
             (bracket_match_complete body rest Hne Hb)).
  cbn [nth]. f_equal.
  destruct (suffix_bounds text p gap _ Hp Hs) as (_ & _ & Hsl).
  destruct gap as [|x gap].
  - simpl length. rewrite Nat.add_0_r, Nat.ltb_irrefl. reflexivity.
  - destruct (Nat.ltb_spec p (p + length (x :: gap))); [|simpl in *; lia].
    rewrite Hsl, <- app_assoc. reflexivity.
Qed.

Lemma bracketLoop_done text keyPrefix p matchIndex nodes :
  p <= length text ->
  (forall a b, skipn p text = a ++ b -> bracketHighlightRegex b = None) ->
  bracketLoop styles text keyPrefix p p matchIndex nodes
  = nodes ++ plain (skipn p text).
Proof.
  intros Hp H. rewrite bracketLoop_iter, (exec_none _ _ _ H).
  unfold sliceFrom. destruct (Nat.ltb_spec p (length text)) as [Hlt|Hge].
  - destruct (skipn p text) eqn:E; [|reflexivity].
    apply (f_equal (@length _)) in E. rewrite length_skipn in E.
    simpl in E. lia.
  - rewrite skipn_all2 by lia. simpl. now rewrite app_nil_r.
Qed.

Lemma bracket_cases text p :
  p <= length text ->
  (forall a b, skipn p text = a ++ b -> bracketHighlightRegex b = None)
  \/ exists gap body rest,
       skipn p text = gap ++ highlight body ++ rest /\
       no_match_in bracketHighlightRegex gap (highlight body ++ rest) /\
       body <> [] /\ mem RBRACKET body = false.
Proof.
  intros Hp.
  destruct (exec_cases bracketHighlightRegex text p Hp)
    as [[_ H]|(gap & suf & m & Hs & Hgap & Hm & _)]; [now left | right].
  destruct (bracket_match_sound _ _ Hm) as (body & rest & Hne & Hb & -> & _).
  now exists gap, body, rest.
Qed.

Lemma renderBracketHighlights_nil keyPrefix :
  renderBracketHighlights styles [] keyPrefix = [].
Proof.
  unfold renderBracketHighlights. rewrite bracketLoop_done; auto.
  intros a b H. symmetry in H. apply app_eq_nil in H as [_ ->]. reflexivity.
Qed.

Lemma isKeyChar_not_space c : isKeyChar c = true -> isWhiteSpace c = false.
Proof.
  intros Hk. destruct (isWhiteSpace c) eqn:E; [|reflexivity].
  unfold isWhiteSpace in E. apply existsb_exists in E as (x & Hin & Hx).
  apply N.eqb_eq in Hx as ->.
  repeat (destruct Hin as [<-|Hin]; [discriminate Hk|]). destruct Hin.
Qed.

Lemma dropWhile_space_key k :
  forallb isKeyChar k = true -> dropWhile isWhiteSpace k = k.
Proof.
  destruct k as [|x k]; [reflexivity|]. simpl. intros H.
  apply andb_prop in H as [H _]. now rewrite (isKeyChar_not_space _ H).
Qed.

Lemma trim_key k : forallb isKeyChar k = true -> trim k = k.
Proof.
  intros H. unfold trim. rewrite (dropWhile_space_key _ H).
  rewrite dropWhile_space_key; [apply rev_involutive|].
  apply forallb_forall. intros x Hx. apply in_rev in Hx.
  revert x Hx. now apply forallb_forall.
Qed.

Lemma valid_key_chars k :
  valid_key k = true -> forallb isKeyChar k = true /\ or_empty (Some k) = k.
Proof. destruct k; [discriminate|]. simpl. auto. Qed.

Lemma styleLoop_token rec text keyPrefix p matchIndex nodes gap k c rest :
  p <= length text -> skipn p text = gap ++ token k c ++ rest ->
  no_match_in styleTokenRegex gap (token k c ++ rest) ->
  valid_key k = true -> minimal_content c = true ->
  styleLoop styles rec text keyPrefix p p matchIndex nodes =
  styleLoop styles rec text keyPrefix
    (p + length gap + length (token k c))
    (p + length gap + length (token k c)) (matchIndex + 1)
    (nodes
     ++ renderBracketHighlights styles gap
          (keyPrefix ++ js "-p-" ++ decimal matchIndex)
     ++ token_nodes styles keyPrefix matchIndex k
          (rec c (keyPrefix ++ js "-s-" ++ decimal matchIndex))).
Proof.
  intros Hp Hs Hgap Hk Hc.
  rewrite styleLoop_iter.
  rewrite (exec_found _ text p gap _ _ Hp Hs Hgap
             (style_match_complete k c rest Hk Hc)).
  cbn [nth nth_error nullish_empty]. cbv zeta.
  destruct (valid_key_chars _ Hk) as [Hchars ->]. rewrite (trim_key _ Hchars).
  f_equal.
  destruct (suffix_bounds text p gap _ Hp Hs) as (_ & _ & Hsl).
  unfold token_nodes.
  assert (Hn1 : (if p <? p + length gap
                 then nodes ++ renderBracketHighlights styles
                        (slice text p (p + length gap))
                        (keyPrefix ++ js "-p-" ++ decimal matchIndex)
                 else nodes)
                = nodes ++ renderBracketHighlights styles gap
                    (keyPrefix ++ js "-p-" ++ decimal matchIndex)).
  { rewrite Hsl. destruct gap as [|x gap].
    - simpl length. rewrite Nat.add_0_r, Nat.ltb_irrefl.
      now rewrite renderBracketHighlights_nil, app_nil_r.
    - destruct (Nat.ltb_spec p (p + length (x :: gap)));
        [reflexivity | simpl in *; lia]. }
  rewrite Hn1. destruct (truthy (get styles k)); now rewrite <- app_assoc.
Qed.

Lemma styleLoop_done rec text keyPrefix p matchIndex nodes :
  p <= length text ->
  (forall a b, skipn p text = a ++ b -> styleTokenRegex b = None) ->
  styleLoop styles rec text keyPrefix p p matchIndex nodes
  = nodes ++ renderBracketHighlights styles (skipn p text)
               (keyPrefix ++ js "-tail").
Proof.
  intros Hp H. rewrite styleLoop_iter, (exec_none _ _ _ H).
  unfold sliceFrom. destruct (Nat.ltb_spec p (length text)) as [Hlt|Hge].
  - reflexivity.
  - rewrite skipn_all2 by lia.
    now rewrite renderBracketHighlights_nil, app_nil_r.
Qed.

Lemma style_cases text p :
  p <= length text ->
  (forall a b, skipn p text = a ++ b -> styleTokenRegex b = None)
  \/ exists gap k c rest,
       skipn p text = gap ++ token k c ++ rest /\
       no_match_in styleTokenRegex gap (token k c ++ rest) /\
       valid_key k = true /\ minimal_content c = true.
Proof.
  intros Hp.
  destruct (exec_cases styleTokenRegex text p Hp)
    as [[_ H]|(gap & suf & m & Hs & Hgap & Hm & _)]; [now left | right].
  destruct (style_match_sound _ _ Hm) as (k & c & rest & Hk & Hc & -> & _).
  now exists gap, k, c, rest.
Qed.

End Iterations.

(** ** Where no match can begin *)

Lemma token_contains_close k c rest : contains CLOSE (token k c ++ rest) = true.
Proof.
  unfold token. replace ((OPEN ++ k ++ [COLON] ++ c ++ CLOSE) ++ rest)
    with ((OPEN ++ k ++ [COLON] ++ c) ++ CLOSE ++ rest) by now norm_app.
  apply contains_app.
Qed.

Lemma token_contains_open k c rest : contains OPEN (token k c ++ rest) = true.
Proof.
  unfold token. rewrite <- app_assoc. apply (contains_app OPEN []).
Qed.

Lemma no_close_no_style s :
  contains CLOSE s = false ->
  forall a b, s = a ++ b -> styleTokenRegex b = None.
Proof.
  intros H a b ->. destruct (styleTokenRegex b) eqn:E; [|reflexivity].
  destruct (style_match_sound _ _ E) as (k & c & rest & _ & _ & -> & _).
  apply contains_false_app_r in H. now rewrite token_contains_close in H.
Qed.

Lemma no_open_no_style s :
  contains OPEN s = false ->
  forall a b, s = a ++ b -> styleTokenRegex b = None.
Proof.
  intros H a b ->. destruct (styleTokenRegex b) eqn:E; [|reflexivity].
  destruct (style_match_sound _ _ E) as (k & c & rest & _ & _ & -> & _).
  apply contains_false_app_r in H. now rewrite token_contains_open in H.
Qed.

Lemma highlight_mem_close body rest :
  mem RBRACKET (highlight body ++ rest) = true.
Proof.
  unfold highlight. rewrite !mem_app. simpl. now rewrite !orb_true_r.
Qed.

Lemma no_rbracket_no_highlight s :
  mem RBRACKET s = false ->
  forall a b, s = a ++ b -> bracketHighlightRegex b = None.
Proof.
  intros H a b ->. destruct (bracketHighlightRegex b) eqn:E; [|reflexivity].
  destruct (bracket_match_sound _ _ E) as (body & rest & _ & _ & -> & _).
  rewrite mem_app, highlight_mem_close, orb_true_r in H. discriminate.
Qed.

Lemma no_lbracket_no_highlight s :
  mem LBRACKET s = false ->
  forall a b, s = a ++ b -> bracketHighlightRegex b = None.
Proof.
  intros H a b ->. destruct (bracketHighlightRegex b) eqn:E; [|reflexivity].
  destruct (bracket_match_sound _ _ E) as (body & rest & _ & _ & -> & _).
  rewrite mem_app in H. apply orb_false_elim in H as [_ H]. discriminate.
Qed.

Lemma minimal_no_close c : minimal_content c = true -> contains CLOSE c = false.
Proof.
  unfold minimal_content. intros H. apply negb_true_iff in H.
  now apply contains_false_app_l in H.
Qed.

(** ** The text of the rendered nodes *)

Section TextContent.

Variable styles : object.

Lemma plain_text s : text_of (plain s) = s.
Proof. destruct s; simpl; [reflexivity | now rewrite app_nil_r]. Qed.

Lemma mark_span_text keyPrefix matchIndex body :
  text_of [mark_span styles keyPrefix matchIndex body] = highlight body.
Proof. unfold text_of. cbn [flat_map mark_span text_content]. now rewrite !app_nil_r. Qed.

Lemma bracketLoop_text n : forall text keyPrefix p matchIndex nodes,
  length text - p <= n -> p <= length text ->
  text_of (bracketLoop styles text keyPrefix p p matchIndex nodes)
  = text_of nodes ++ skipn p text.
Proof.
  induction n as [|n IH]; intros text keyPrefix p matchIndex nodes Hn Hp;
    (destruct (bracket_cases text p Hp)
      as [Hnone|(gap & body & rest & Hs & Hgap & Hne & Hb)];
     [rewrite (bracketLoop_done styles text keyPrefix p matchIndex nodes Hp Hnone);
      now rewrite text_of_app, plain_text|]);
    pose proof (suffix_bounds text p (gap ++ highlight body) rest Hp) as Hb2;
    rewrite <- app_assoc in Hb2; destruct (Hb2 Hs) as (Hle & Hrest & _);
    rewrite length_app in Hle, Hrest; rewrite Nat.add_assoc in Hle, Hrest;
    assert (0 < length (highlight body)) by (unfold highlight; simpl; lia).
  - lia.
  - rewrite (bracketLoop_highlight styles text keyPrefix p matchIndex nodes
               gap body rest Hp Hs Hgap Hne Hb).
    rewrite IH by lia.
    rewrite Hrest, Hs, !text_of_app, plain_text, mark_span_text.
    now rewrite <- !app_assoc.
Qed.

Lemma renderBracketHighlights_text text keyPrefix :
  text_of (renderBracketHighlights styles text keyPrefix) = text.
Proof.
  unfold renderBracketHighlights.
  now rewrite (bracketLoop_text (length text)) by lia.
Qed.

(** The content of a token holds no [}}], hence no token: the recursive
    call on it finds no match and hands the whole content to the bracket
    pass. *)
Lemma render_content c keyPrefix depth :
  contains CLOSE c = false ->
  renderRichTextInternal styles (Some c) keyPrefix depth =
  if 8 <? depth then plain c
  else renderBracketHighlights styles c (keyPrefix ++ js "-tail").
Proof.
  intros H. rewrite renderRichTextInternal_body. destruct c as [|x c].
  - rewrite renderBracketHighlights_nil. now destruct (8 <? depth).
  - destruct (8 <? depth); [reflexivity|].
    rewrite styleLoop_done; [reflexivity | simpl; lia |].
    now apply no_close_no_style.
Qed.

Lemma render_content_text c keyPrefix depth :
  contains CLOSE c = false ->
  text_of (renderRichTextInternal styles (Some c) keyPrefix depth) = c.
Proof.
  intros H. rewrite render_content by exact H.
  destruct (8 <? depth);
    [apply plain_text | apply renderBracketHighlights_text].
Qed.

Lemma token_nodes_text keyPrefix matchIndex k children :
  text_of (token_nodes styles keyPrefix matchIndex k children)
  = text_of children.
Proof.
  unfold token_nodes. destruct (truthy _); [|reflexivity].
  simpl. now rewrite app_nil_r.
Qed.

Lemma strips_gap gap s out :
  (forall a x b, gap = a ++ x :: b -> ~ starts_token (x :: b ++ s)) ->
  strips s out -> strips (gap ++ s) (gap ++ out).
Proof.
  induction gap as [|x gap IH]; intros Hgap Hs; [exact Hs|].
  simpl. apply strips_unit.
  - apply (Hgap [] x gap eq_refl).
  - apply IH; [|exact Hs]. intros a y b ->. now apply (Hgap (x :: a) y b).
Qed.

Lemma strips_no_token s :
  (forall a b, s = a ++ b -> ~ starts_token b) -> strips s s.
Proof.
  induction s as [|x s IH]; intros H; [constructor|].
  apply strips_unit; [now apply (H [] (x :: s)) |].
  apply IH. intros a b ->. now apply (H (x :: a) b).
Qed.

Lemma strips_plain s : contains CLOSE s = false -> strips s s.
Proof.
  intros H. apply strips_no_token. intros a b Hs.
  apply style_none_no_token. now apply (no_close_no_style s H a b).
Qed.

Lemma styleLoop_strips n : forall rec text keyPrefix p matchIndex nodes,
  (forall c prefix, contains CLOSE c = false -> text_of (rec c prefix) = c) ->
  length text - p <= n -> p <= length text ->
  exists out,
    text_of (styleLoop styles rec text keyPrefix p p matchIndex nodes)
    = text_of nodes ++ out
    /\ strips (skipn p text) out.
Proof.
  induction n as [|n IH]; intros rec text keyPrefix p matchIndex nodes Hrec Hn Hp;
    (destruct (style_cases text p Hp)
      as [Hnone|(gap & k & c & rest & Hs & Hgap & Hk & Hc)];
     [exists (skipn p text);
      rewrite (styleLoop_done styles rec text keyPrefix p matchIndex nodes Hp Hnone);
      rewrite text_of_app, renderBracketHighlights_text; split; [reflexivity|];
      apply strips_no_token; intros a b Hab;
      apply style_none_no_token; now apply (Hnone a b) |]);
    pose proof (suffix_bounds text p (gap ++ token k c) rest Hp) as Hb2;
    rewrite <- app_assoc in Hb2; destruct (Hb2 Hs) as (Hle & Hrest & _);
    rewrite length_app in Hle, Hrest; rewrite Nat.add_assoc in Hle, Hrest;
    assert (0 < length (token k c)) by (unfold token; simpl; lia).
  - lia.
  - rewrite (styleLoop_token styles rec text keyPrefix p matchIndex nodes
               gap k c rest Hp Hs Hgap Hk Hc).
    edestruct (IH rec text keyPrefix (p + length gap + length (token k c)))
      as (out & -> & Hout); [exact Hrec | lia | lia |].
    rewrite Hrest in Hout. exists (gap ++ c ++ out). split.
    + rewrite !text_of_app, renderBracketHighlights_text, token_nodes_text.
      rewrite Hrec by now apply minimal_no_close. now rewrite <- !app_assoc.
    + rewrite Hs. apply strips_gap.
      * intros a x b Hab. apply style_none_no_token. now apply (Hgap a x b).
      * apply strips_token; auto. apply strips_plain.
        now apply minimal_no_close.
Qed.

Lemma render_strips s keyPrefix depth :
  depth <= 8 ->
  strips s (text_of (renderRichTextInternal styles (Some s) keyPrefix depth)).
Proof.
  intros Hd. rewrite renderRichTextInternal_body. destruct s as [|x s].
  - constructor.
  - destruct (Nat.ltb_spec 8 depth); [lia|].
    edestruct (styleLoop_strips (length (x :: s))) as (out & -> & Hout);
      [ | | | exact Hout]; [|lia|simpl; lia].
    intros c prefix Hc. now apply render_content_text.
Qed.

End TextContent.

(** ** The grammar reads every string in exactly one way *)

Lemma token_unique k c rest k' c' rest' :
  valid_key k = true -> minimal_content c = true ->
  valid_key k' = true -> minimal_content c' = true ->
  token k c ++ rest = token k' c' ++ rest' ->
  k = k' /\ c = c' /\ rest = rest'.
Proof.
  intros Hk Hc Hk' Hc' Heq.
  pose proof (style_match_complete k c rest Hk Hc) as H1.
  pose proof (style_match_complete k' c' rest' Hk' Hc') as H2.
  rewrite Heq, H2 in H1. injection H1 as _ -> ->.
  repeat split. now apply app_inv_head in Heq.
Qed.

Lemma token_starts k c rest : valid_key k = true -> starts_token (token k c ++ rest).
Proof. intros Hk. now exists k, c, rest. Qed.

Lemma strips_inv s out :
  strips s out ->
  (s = [] /\ out = [])
  \/ (exists k c rest c' rest',
        s = token k c ++ rest /\ valid_key k = true /\
        minimal_content c = true /\ strips c c' /\ strips rest rest' /\
        out = c' ++ rest')
  \/ (exists x t t',
        s = x :: t /\ ~ starts_token (x :: t) /\ strips t t' /\
        out = x :: t').
Proof.
  intros H. destruct H as [|k c rest c' rest' Hk Hc H1 H2|x t t' Hn H1].
  - now left.
  - right; left. now exists k, c, rest, c', rest'.
  - right; right. now exists x, t, t'.
Qed.

Lemma strips_functional s out1 :
  strips s out1 -> forall out2, strips s out2 -> out1 = out2.
Proof.
  induction 1 as [|k c rest c' rest' Hk Hc H1 IH1 H2 IH2|x t t' Hn H1 IH1];
    intros out2 Hout2; apply strips_inv in Hout2
    as [[Hs ->]|[(k2 & c2 & r2 & c2' & r2' & Hs & Hk2 & Hc2 & Hc2' & Hr2' & ->)
                |(y & u & u' & Hs & Hn2 & Hu & ->)]].
  - reflexivity.
  - destruct k2; discriminate.
  - discriminate.
  - unfold token in Hs. discriminate.
  - destruct (token_unique _ _ _ _ _ _ Hk Hc Hk2 Hc2 Hs) as (-> & -> & ->).
    now rewrite (IH1 _ Hc2'), (IH2 _ Hr2').
  - exfalso. apply Hn2. rewrite <- Hs. now apply token_starts.
  - discriminate.
  - exfalso. apply Hn. rewrite Hs. now apply token_starts.
  - injection Hs as <- <-. now rewrite (IH1 _ Hu).
Qed.

(** ** Well-formed flat markup *)

Lemma strips_before_token t k c rest :
  contains OPEN t = false -> valid_key k = true ->
  forall a x b, t = a ++ x :: b -> ~ starts_token (x :: b ++ token k c ++ rest).
Proof.
  intros Ht Hk a x b -> Hs.
  apply style_match_starts in Hs. apply Hs. clear Hs.
  apply contains_false_app_r in Ht.
  destruct k as [|k0 k]; [discriminate|]. unfold valid_key in Hk.
  cbn [forallb] in Hk. apply andb_prop in Hk as [Hk0 _].
  rewrite styleTokenRegex_closed_form. unfold tokenAt.
  destruct b as [|y b]; cbn [app].
  - unfold token, OPEN. cbn [app].
    destruct (N.eqb x LBRACE); [|reflexivity]. rewrite N.eqb_refl.
    cbn [andb takeWhile]. reflexivity.
  - cbn [contains prefixb OPEN] in Ht.
    apply orb_false_elim in Ht as [Ht _]. rewrite andb_true_r in Ht.
    now rewrite Ht.
Qed.

Lemma rbrace_not_token t : ~ starts_token (RBRACE :: t).
Proof. intros (k & c & rest & _ & H). discriminate. Qed.

Lemma content_ends c :
  contains CLOSE c = false ->
  minimal_content c = true
  \/ exists c0, c = c0 ++ [RBRACE] /\ minimal_content c0 = true.
Proof.
  intros H. unfold minimal_content.
  destruct (contains CLOSE (c ++ [RBRACE])) eqn:E; [right | now left].
  destruct (contains_split _ _ E) as (a & b & Hab).
  induction b as [|z b' _] using rev_ind.
  - change (a ++ CLOSE ++ []) with (a ++ [RBRACE] ++ [RBRACE]) in Hab.
    rewrite app_assoc in Hab. apply app_inj_tail in Hab as [-> _].
    exists a. split; [reflexivity|]. now rewrite H.
  - rewrite !app_assoc in Hab. apply app_inj_tail in Hab as [-> _].
    rewrite <- app_assoc, contains_app in H. discriminate.
Qed.

Lemma token_rbrace k c0 rest :
  token k (c0 ++ [RBRACE]) ++ rest = token k c0 ++ RBRACE :: rest.
Proof. unfold token, CLOSE. now norm_app. Qed.

Lemma markup_strips d :
  well_formed d = true -> flat d = true -> strips (unparse d) (visible d).
Proof.
  induction d as [t|t k c _ rest IH]; cbn [unparse visible well_formed flat];
    intros H Hf.
  - unfold brace_free in H. apply andb_prop in H as [_ H].
    apply negb_true_iff in H. now apply strips_plain.
  - destruct c as [c|]; [|discriminate]. cbn [unparse visible well_formed] in *.
    apply andb_prop in H as [H Hrest]. apply andb_prop in H as [H Hc].
    apply andb_prop in H as [Ht Hk]. unfold brace_free in Ht, Hc.
    apply andb_prop in Ht as [Ht _]. apply andb_prop in Hc as [_ Hc].
    apply negb_true_iff in Ht, Hc.
    apply strips_gap; [now apply strips_before_token|].
    destruct (content_ends c Hc) as [Hmin|(c0 & -> & Hmin)].
    + apply strips_token; auto. now apply strips_plain.
    + rewrite token_rbrace, <- app_assoc.
      apply strips_token; auto.
      * apply strips_plain. now apply minimal_no_close.
      * apply strips_unit; [apply rbrace_not_token | auto].
Qed.

(** A reading without a token inside a token is a reading of the code. *)
Lemma removes_strips s out : removes s out -> strips s out.
Proof.
  induction 1 as [|k c rest rest' Hk Hc _ _ IH|x t t' Hx _ IH].
  - constructor.
  - apply strips_token; auto. apply strips_plain. now apply minimal_no_close.
  - now apply strips_unit.
Qed.

(** Text without a brace before a reading, and a last stretch of text in
    which no [}}] closes anything. *)
Lemma removes_gap gap s out :
  mem LBRACE gap = false -> removes s out -> removes (gap ++ s) (gap ++ out).
Proof.
  induction gap as [|x gap IH]; [auto|]. unfold mem. cbn [existsb app].
  intros H Hs. apply orb_false_iff in H as [Hx H].
  apply removes_unit; [|now apply IH].
  intros (k & c & rest & _ & Heq). unfold token, OPEN in Heq.
  cbn [app] in Heq. injection Heq as -> _.
  now rewrite N.eqb_refl in Hx.
Qed.

Lemma removes_unclosed t : contains CLOSE t = false -> removes t t.
Proof.
  induction t as [|x t IH]; [constructor|]. intros H.
  apply removes_unit.
  - intros (k & c & rest & _ & Heq). rewrite Heq in H.
    now rewrite token_contains_close in H.
  - apply IH. now apply contains_false_tail with x.
Qed.

Section Passes.

Variable styles : object.

Lemma bracketLoop_pass n : forall text keyPrefix p matchIndex nodes,
  length text - p <= n -> p <= length text ->
  exists out,
    bracketLoop styles text keyPrefix p p matchIndex nodes = nodes ++ out
    /\ bracket_pass styles keyPrefix matchIndex (skipn p text) out.
Proof.
  induction n as [|n IH]; intros text keyPrefix p matchIndex nodes Hn Hp;
    (destruct (bracket_cases text p Hp)
      as [Hnone|(gap & body & rest & Hs & Hgap & Hne & Hb)];
     [exists (plain (skipn p text));
      rewrite (bracketLoop_done styles text keyPrefix p matchIndex nodes Hp Hnone);
      split; [reflexivity|]; apply bracket_pass_done; intros a b Hab;
      apply bracket_none_no_highlight; now apply (Hnone a b) |]);
    pose proof (suffix_bounds text p (gap ++ highlight body) rest Hp) as Hb2;
    rewrite <- app_assoc in Hb2; destruct (Hb2 Hs) as (Hle & Hrest & _);
    rewrite length_app in Hle, Hrest; rewrite Nat.add_assoc in Hle, Hrest;
    assert (0 < length (highlight body)) by (unfold highlight; simpl; lia).
  - lia.
  - rewrite (bracketLoop_highlight styles text keyPrefix p matchIndex nodes
               gap body rest Hp Hs Hgap Hne Hb).
    edestruct (IH text keyPrefix (p + length gap + length (highlight body)))
      as (out & -> & Hout); [lia | lia |].
    rewrite Hrest in Hout.
    exists (plain gap ++ mark_span styles keyPrefix matchIndex body :: out).
    split; [now rewrite <- !app_assoc|].
    rewrite Hs. apply bracket_pass_highlight; auto.
    intros a x b Hab. apply bracket_none_no_highlight. now apply (Hgap a x b).
Qed.

Lemma renderBracketHighlights_pass text keyPrefix :
  bracket_pass styles keyPrefix 0 text
    (renderBracketHighlights styles text keyPrefix).
Proof.
  unfold renderBracketHighlights.
  destruct (bracketLoop_pass (length text) text keyPrefix 0 0 [])
    as (out & -> & Hout); [lia | lia | exact Hout].
Qed.

(** The loop calls [rec] on token contents only, and these hold no [}}]. *)
Lemma styleLoop_rec_ext n : forall rec1 rec2 text keyPrefix p matchIndex nodes,
  (forall c prefix, contains CLOSE c = false -> rec1 c prefix = rec2 c prefix) ->
  length text - p <= n -> p <= length text ->
  styleLoop styles rec1 text keyPrefix p p matchIndex nodes
  = styleLoop styles rec2 text keyPrefix p p matchIndex nodes.
Proof.
  induction n as [|n IH];
    intros rec1 rec2 text keyPrefix p matchIndex nodes Hrec Hn Hp;
    (destruct (style_cases text p Hp)
      as [Hnone|(gap & k & c & rest & Hs & Hgap & Hk & Hc)];
     [now rewrite !(styleLoop_done styles _ text keyPrefix p matchIndex nodes Hp Hnone)|]);
    pose proof (suffix_bounds text p (gap ++ token k c) rest Hp) as Hb2;
    rewrite <- app_assoc in Hb2; destruct (Hb2 Hs) as (Hle & Hrest & _);
    rewrite length_app in Hle, Hrest; rewrite Nat.add_assoc in Hle, Hrest;
    assert (0 < length (token k c)) by (unfold token; simpl; lia).
  - lia.
  - rewrite !(styleLoop_token styles _ text keyPrefix p matchIndex nodes
                gap k c rest Hp Hs Hgap Hk Hc).
    rewrite (Hrec c) by now apply minimal_no_close.
    apply IH; [exact Hrec | lia | lia].
Qed.

(** Below the ceiling the interpreter is the style pass over the text with
    the bracket pass standing for the recursive call: the recursion never
    goes past the first nested level. *)
Lemma renderRichTextInternal_two_pass x s keyPrefix depth :
  depth <= 7 ->
  renderRichTextInternal styles (Some (x :: s)) keyPrefix depth =
  styleLoop styles
    (fun content prefix =>
       renderBracketHighlights styles content (prefix ++ js "-tail"))
    (x :: s) keyPrefix 0 0 0 [].
Proof.
  intros Hd. rewrite renderRichTextInternal_body.
  destruct (Nat.ltb_spec 8 depth); [lia|].
  apply (styleLoop_rec_ext (length (x :: s))); [|lia|simpl; lia].
  intros c prefix Hc. rewrite render_content by exact Hc.
  destruct (Nat.ltb_spec 8 (depth + 1)); [lia | reflexivity].
Qed.

Lemma depth_guard text keyPrefix depth :
  8 < depth ->
  renderRichTextInternal styles (Some text) keyPrefix depth = plain text.
Proof.
  intros Hd. rewrite renderRichTextInternal_body. destruct text; [reflexivity|].
  destruct (Nat.ltb_spec 8 depth); [reflexivity | lia].
Qed.

(** The nodes already pushed stay in front. *)
Lemma styleLoop_acc n : forall rec text keyPrefix p matchIndex nodes,
  length text - p <= n -> p <= length text ->
  styleLoop styles rec text keyPrefix p p matchIndex nodes
  = nodes ++ styleLoop styles rec text keyPrefix p p matchIndex [].
Proof.
  induction n as [|n IH];
    intros rec text keyPrefix p matchIndex nodes Hn Hp;
    (destruct (style_cases text p Hp)
      as [Hnone|(gap & k & c & rest & Hs & Hgap & Hk & Hc)];
     [now rewrite !(styleLoop_done styles rec text keyPrefix p matchIndex _ Hp Hnone)|]);
    pose proof (suffix_bounds text p (gap ++ token k c) rest Hp) as Hb2;
    rewrite <- app_assoc in Hb2; destruct (Hb2 Hs) as (Hle & _ & _);
    rewrite length_app in Hle; rewrite Nat.add_assoc in Hle;
    assert (0 < length (token k c)) by (unfold token; simpl; lia).
  - lia.
  - rewrite !(styleLoop_token styles rec text keyPrefix p matchIndex _
                gap k c rest Hp Hs Hgap Hk Hc).
    rewrite (IH rec text keyPrefix _ (matchIndex + 1) (nodes ++ _)) by lia.
    rewrite (IH rec text keyPrefix _ (matchIndex + 1) ([] ++ _)) by lia.
    now rewrite <- !app_assoc.
Qed.

(** A token at the head of the text: its nodes come first, and what
    follows the token is rendered after them on its own. *)
Lemma render_token_first k c rest keyPrefix depth :
  depth <= 7 -> valid_key k = true -> minimal_content c = true ->
  exists tail,
    renderRichTextInternal styles (Some (token k c ++ rest)) keyPrefix depth
    = token_nodes styles keyPrefix 0 k
        (renderBracketHighlights styles c (keyPrefix ++ js "-s-0" ++ js "-tail"))
      ++ tail
    /\ strips rest (text_of tail).
Proof.
  intros Hd Hk Hc.
  assert (Htok : exists x s, token k c ++ rest = x :: s)
    by (unfold token; simpl; eauto).
  destruct Htok as (x & s & Htok). rewrite Htok.
  rewrite renderRichTextInternal_two_pass by exact Hd. rewrite <- Htok.
  assert (Hlen : length (token k c) <= length (token k c ++ rest))
    by (rewrite length_app; lia).
  rewrite (styleLoop_token styles _ (token k c ++ rest) keyPrefix 0 0 []
             [] k c rest);
    [ | lia | reflexivity | intros [|? ?] ? ? ?; discriminate
      | exact Hk | exact Hc].
  change (0 + length (@nil N) + length (token k c)) with (length (token k c)).
  rewrite renderBracketHighlights_nil. cbn [app].
  rewrite (styleLoop_acc (length (token k c ++ rest))) by lia.
  replace ((keyPrefix ++ js "-s-" ++ decimal 0) ++ js "-tail")
    with (keyPrefix ++ js "-s-0" ++ js "-tail")
    by (now rewrite <- !app_assoc).
  eexists. split; [reflexivity|].
  edestruct (styleLoop_strips styles (length (token k c ++ rest)))
    as (out & Hout & Hstrips); [ | | exact Hlen | ]; [ | lia | ].
  2:{ rewrite Hout. cbn [text_of flat_map app].
      now rewrite skipn_app_exact in Hstrips. }
  intros c0 prefix Hc0. now apply renderBracketHighlights_text.
Qed.

(** A token followed by text that opens no further token. *)
Lemma render_token_then_text k c rest keyPrefix depth :
  depth <= 7 -> valid_key k = true -> minimal_content c = true ->
  contains OPEN rest = false ->
  renderRichTextInternal styles (Some (token k c ++ rest)) keyPrefix depth =
  token_nodes styles keyPrefix 0 k
    (renderBracketHighlights styles c (keyPrefix ++ js "-s-0" ++ js "-tail"))
  ++ renderBracketHighlights styles rest (keyPrefix ++ js "-tail").
Proof.
  intros Hd Hk Hc Hrest.
  assert (Htok : exists x s, token k c ++ rest = x :: s)
    by (unfold token; simpl; eauto).
  destruct Htok as (x & s & Htok). rewrite Htok.
  rewrite renderRichTextInternal_two_pass by exact Hd. rewrite <- Htok.
  assert (Hlen : length (token k c) <= length (token k c ++ rest))
    by (rewrite length_app; lia).
  rewrite (styleLoop_token styles _ (token k c ++ rest) keyPrefix 0 0 []
             [] k c rest);
    [ | lia | reflexivity | intros [|? ?] ? ? ?; discriminate
      | exact Hk | exact Hc].
  change (0 + length (@nil N) + length (token k c)) with (length (token k c)).
  rewrite styleLoop_done, skipn_app_exact;
    [ | exact Hlen | rewrite skipn_app_exact; now apply no_open_no_style ].
  rewrite renderBracketHighlights_nil. cbn [app].
  now rewrite <- !app_assoc.
Qed.

Lemma render_single_token k c keyPrefix depth :
  depth <= 7 -> valid_key k = true -> minimal_content c = true ->
  renderRichTextInternal styles (Some (token k c)) keyPrefix depth =
  token_nodes styles keyPrefix 0 k
    (renderBracketHighlights styles c (keyPrefix ++ js "-s-0" ++ js "-tail")).
Proof.
  intros Hd Hk Hc.
  pose proof (render_token_then_text k c [] keyPrefix depth Hd Hk Hc eq_refl)
    as H.
  now rewrite renderBracketHighlights_nil, !app_nil_r in H.
Qed.

(** Text with neither a token opener nor a bracket is one plain node. *)
Lemma render_plain_text s keyPrefix depth :
  contains OPEN s = false -> mem LBRACKET s = false ->
  renderRichTextInternal styles (Some s) keyPrefix depth = plain s.
Proof.
  intros Ho Hl. rewrite renderRichTextInternal_body.
  destruct s as [|x s]; [reflexivity|].
  destruct (8 <? depth); [reflexivity|].
  rewrite styleLoop_done; [ | simpl; lia | now apply no_open_no_style ].
  cbn [skipn app]. unfold renderBracketHighlights.
  rewrite bracketLoop_done; [reflexivity | simpl; lia |].
  now apply no_lbracket_no_highlight.
Qed.


Lemma renderBracketHighlights_no_open s keyPrefix :
  mem LBRACKET s = false -> renderBracketHighlights styles s keyPrefix = plain s.
Proof.
  intros H. unfold renderBracketHighlights.
  rewrite bracketLoop_done; [reflexivity | lia |].
  now apply no_lbracket_no_highlight.
Qed.

End Passes.

(** ** The result depends on the table only through the classes it gives *)

Section Agreement.

Variables styles1 styles2 : object.
Hypothesis same_classes :
  forall k, valid_key k = true -> get styles1 k = get styles2 k.

Lemma mark_span_agree keyPrefix i body :
  mark_span styles1 keyPrefix i body = mark_span styles2 keyPrefix i body.
Proof. unfold mark_span. now rewrite (same_classes (js "mark") eq_refl). Qed.

Lemma bracketLoop_agree n : forall text keyPrefix p matchIndex nodes,
  length text - p <= n -> p <= length text ->
  bracketLoop styles1 text keyPrefix p p matchIndex nodes
  = bracketLoop styles2 text keyPrefix p p matchIndex nodes.
Proof.
  induction n as [|n IH]; intros text keyPrefix p matchIndex nodes Hn Hp;
    (destruct (bracket_cases text p Hp)
      as [Hnone|(gap & body & rest & Hs & Hgap & Hne & Hb)];
     [now rewrite !(bracketLoop_done _ text keyPrefix p matchIndex nodes Hp Hnone)|]);
    pose proof (suffix_bounds text p (gap ++ highlight body) rest Hp) as Hb2;
    rewrite <- app_assoc in Hb2; destruct (Hb2 Hs) as (Hle & _ & _);
    rewrite length_app in Hle; rewrite Nat.add_assoc in Hle;
    assert (0 < length (highlight body)) by (unfold highlight; simpl; lia).
  - lia.
  - rewrite !(bracketLoop_highlight _ text keyPrefix p matchIndex nodes
                gap body rest Hp Hs Hgap Hne Hb).
    rewrite mark_span_agree. apply IH; lia.
Qed.

Lemma renderBracketHighlights_agree text keyPrefix :
  renderBracketHighlights styles1 text keyPrefix
  = renderBracketHighlights styles2 text keyPrefix.
Proof. apply (bracketLoop_agree (length text)); lia. Qed.

Lemma token_nodes_agree keyPrefix i k children :
  valid_key k = true ->
  token_nodes styles1 keyPrefix i k children
  = token_nodes styles2 keyPrefix i k children.
Proof. intros Hk. unfold token_nodes. now rewrite (same_classes k Hk). Qed.

Lemma styleLoop_agree n : forall rec1 rec2 text keyPrefix p matchIndex nodes,
  (forall c prefix, contains CLOSE c = false -> rec1 c prefix = rec2 c prefix) ->
  length text - p <= n -> p <= length text ->
  styleLoop styles1 rec1 text keyPrefix p p matchIndex nodes
  = styleLoop styles2 rec2 text keyPrefix p p matchIndex nodes.
Proof.
  induction n as [|n IH];
    intros rec1 rec2 text keyPrefix p matchIndex nodes Hrec Hn Hp;
    (destruct (style_cases text p Hp)
      as [Hnone|(gap & k & c & rest & Hs & Hgap & Hk & Hc)];
     [rewrite !(styleLoop_done _ _ text keyPrefix p matchIndex nodes Hp Hnone);
      now rewrite renderBracketHighlights_agree|]);
    pose proof (suffix_bounds text p (gap ++ token k c) rest Hp) as Hb2;
    rewrite <- app_assoc in Hb2; destruct (Hb2 Hs) as (Hle & _ & _);
    rewrite length_app in Hle; rewrite Nat.add_assoc in Hle;
    assert (0 < length (token k c)) by (unfold token; simpl; lia).
  - lia.
  - rewrite !(styleLoop_token _ _ text keyPrefix p matchIndex nodes
                gap k c rest Hp Hs Hgap Hk Hc).
    rewrite (Hrec c) by now apply minimal_no_close.
    rewrite renderBracketHighlights_agree, (token_nodes_agree _ _ _ _ Hk).
    apply IH; [exact Hrec | lia | lia].
Qed.

Lemma renderRichTextInternal_agree text keyPrefix depth :
  renderRichTextInternal styles1 text keyPrefix depth
  = renderRichTextInternal styles2 text keyPrefix depth.
Proof.
  rewrite !renderRichTextInternal_body.
  destruct text as [[|x s]|]; try reflexivity.
  destruct (8 <? depth); [reflexivity|].
  apply (styleLoop_agree (length (x :: s))); [|lia|simpl; lia].
  intros c prefix Hc. rewrite !render_content by exact Hc.
  destruct (8 <? depth + 1); [reflexivity|].
  apply renderBracketHighlights_agree.
Qed.

End Agreement.

(** * The claims of the specification *)

(** ** Text of the rendered nodes *)

(** C1, as stated, fails: the node text of a bracket highlight keeps both
    bracket glyphs.  For the input 《A》 the style delimiters leave the text
    unchanged, removing the brackets would give [A], and the rendered text
    is the whole 《A》. *)
Lemma brackets_survive_in_rendered_text :
  strips (highlight (js "A")) (highlight (js "A"))
  /\ without_brackets (highlight (js "A")) = js "A"
  /\ text_of (interpret (Some (highlight (js "A")))) = highlight (js "A")
  /\ text_of (interpret (Some (highlight (js "A"))))
     <> without_brackets (highlight (js "A")).
Proof.
  split; [now apply strips_plain|].
  split; [reflexivity|]. split; [reflexivity|]. discriminate.
Qed.

(** C1, amended: for every input string in which no style token holds the
    opener [{{key:] of another token in its content, the concatenated text
    of the returned nodes is the input with only the [{{key:] and [}}]
    delimiters of its style tokens removed; the bracket glyphs stay in the
    text of the highlight nodes.  Nothing is lost, duplicated or
    reordered.  Nothing is said of a text with a token inside a token. *)
Theorem unnested_text_strips_style_delimiters (s out : str) :
  removes s out -> text_of (interpret (Some s)) = out.
Proof.
  intros H.
  apply (strips_functional s);
    [apply render_strips; lia | now apply removes_strips].
Qed.

Lemma unnested_text_strips_style_delimiters_witness :
  removes
    (js "see {{red:" ++ highlight (js "Rules") ++ js " now}}, }} and "
     ++ js "{{nosuchkey:th{{at}} or {{open")
    (js "see " ++ highlight (js "Rules") ++ js " now, }} and th{{at or {{open")
  /\ text_of (interpret
       (Some (js "see {{red:" ++ highlight (js "Rules") ++ js " now}}, }} and "
              ++ js "{{nosuchkey:th{{at}} or {{open")))
     = js "see " ++ highlight (js "Rules") ++ js " now, }} and th{{at or {{open".
Proof.
  assert (H : removes
    (js "see {{red:" ++ highlight (js "Rules") ++ js " now}}, }} and "
     ++ js "{{nosuchkey:th{{at}} or {{open")
    (js "see " ++ highlight (js "Rules") ++ js " now, }} and th{{at or {{open")).
  { apply (removes_gap (js "see ")
             (token (js "red") (highlight (js "Rules") ++ js " now")
              ++ js ", }} and {{nosuchkey:th{{at}} or {{open")
             ((highlight (js "Rules") ++ js " now")
              ++ js ", }} and th{{at or {{open")); [reflexivity|].
    apply removes_token; try reflexivity.
    apply (removes_gap (js ", }} and ")
             (token (js "nosuchkey") (js "th{{at") ++ js " or {{open")
             (js "th{{at" ++ js " or {{open")); [reflexivity|].
    apply removes_token; try reflexivity.
    apply removes_unclosed. reflexivity. }
  split; [exact H|].
  exact (unnested_text_strips_style_delimiters _ _ H).
Defined.

(** For well-formed markup without nesting the concatenated text of the
    returned nodes is the input without the [{{key:] and [}}] delimiters,
    bracket glyphs kept. *)
Lemma flat_text_reconstructed (d : markup) :
  well_formed d = true -> flat d = true ->
  text_of (interpret (Some (unparse d))) = visible d.
Proof.
  intros H Hf.
  apply (strips_functional (unparse d));
    [apply render_strips; lia | now apply markup_strips].
Qed.

(** C2 fails on nested tokens, which the grammar allows in a content and
    the code recurses for: the well-formed [{{red:a{{blue:b}}c}}] should
    give the text [abc]; the outer token is cut at the first [}}], so the
    rendered text keeps the inner [{{blue:] and the outer [}}]. *)
Theorem nested_token_text_keeps_delimiters :
  well_formed nested_example = true
  /\ unparse nested_example = js "{{red:a{{blue:b}}c}}"
  /\ visible nested_example = js "abc"
  /\ interpret (Some (unparse nested_example))
     = [Span (js "rt-span-0") (JString (js "text-red-600 font-semibold"))
             [Text (js "a{{blue:b")];
        Text (js "c}}")]
  /\ text_of (interpret (Some (unparse nested_example))) = js "a{{blue:bc}}"
  /\ text_of (interpret (Some (unparse nested_example)))
     <> visible nested_example.
Proof.
  split; [reflexivity|]. split; [reflexivity|]. split; [reflexivity|].
  split; [reflexivity|]. split; [reflexivity|]. discriminate.
Qed.

(** ** Plain text *)

(** C5, as stated, fails at the empty string: it holds none of [{{], 《, 》,
    and the interpreter returns no node for it. *)
Lemma empty_string_yields_no_node :
  contains OPEN [] = false /\ mem LBRACKET [] = false
  /\ mem RBRACKET [] = false
  /\ interpret (Some []) = []
  /\ interpret (Some []) <> [Text []].
Proof. repeat split; try reflexivity. discriminate. Qed.

(** C5, amended: for every non-empty string with none of [{{], 《, 》 the
    interpreter returns exactly one plain-text node, equal to the string. *)
Theorem plain_text_single_node (s : str) :
  s <> [] -> contains OPEN s = false ->
  mem LBRACKET s = false -> mem RBRACKET s = false ->
  interpret (Some s) = [Text s].
Proof.
  intros Hne Ho Hl _. unfold interpret, renderRichText.
  rewrite render_plain_text by assumption. destruct s; [congruence|reflexivity].
Qed.

Lemma plain_text_single_node_witness :
  js "hello {world}" <> [] /\ interpret (Some (js "hello {world}"))
                              = [Text (js "hello {world}")].
Proof.
  split; [discriminate|].
  apply plain_text_single_node; [discriminate | reflexivity ..].
Defined.

(** ** First closing delimiter *)

Lemma not_ending_minimal a :
  contains CLOSE a = false -> ends_with_rbrace a = false ->
  minimal_content a = true.
Proof.
  intros Hc He. destruct (content_ends a Hc) as [H|(c0 & -> & _)]; [exact H|].
  unfold ends_with_rbrace in He. rewrite rev_app_distr in He. discriminate.
Qed.

(** C4, as stated, fails when the content [a] ends in [}]: with [a] = [}]
    (which holds no [}}]) the first [}}] of [{{k:}}}b}}] begins at that
    brace, so the token is [{{k:}}] with empty content, not [{{k:}}}]. *)
Lemma content_ending_in_brace_counterexample :
  valid_key (js "k") = true /\ contains CLOSE (js "}") = false
  /\ token (js "k") (js "}") ++ js "b}}" = js "{{k:}}}b}}"
  /\ exec styleTokenRegex 0 (js "{{k:}}}b}}")
     = (Some (0, [js "{{k:}}"; js "k"; []]), 6)
  /\ js "{{k:}}" <> token (js "k") (js "}").
Proof. repeat split; try reflexivity. discriminate. Qed.

(** C4, amended: the content of a style token is the run up to the first
    following [}}], whatever [{{] it holds.  In an input [{{k:a}}] followed
    by any text, where [a] holds no [}}] and does not end in [}], the scan
    finds the token exactly [{{k:a}}] with key [k] and content [a]; the
    text that follows, such as [b}}], is outside the token: it is rendered
    on its own after the token's nodes. *)
Theorem first_close_ends_token (k a rest : str) :
  valid_key k = true -> contains CLOSE a = false ->
  ends_with_rbrace a = false ->
  exec styleTokenRegex 0 (token k a ++ rest)
  = (Some (0, [token k a; k; a]), length (token k a))
  /\ exists tail,
       interpret (Some (token k a ++ rest))
       = token_nodes RICH_TEXT_STYLES (js "rt") 0 k
           (renderBracketHighlights RICH_TEXT_STYLES a (js "rt-s-0-tail"))
         ++ tail
       /\ strips rest (text_of tail).
Proof.
  intros Hk Hc He. pose proof (not_ending_minimal a Hc He) as Hmin. split.
  - apply (exec_found styleTokenRegex (token k a ++ rest) 0 [] (token k a ++ rest));
      [lia | reflexivity | intros [|? ?] ? ? ?; discriminate |].
    now apply style_match_complete.
  - unfold interpret, renderRichText.
    apply (render_token_first RICH_TEXT_STYLES k a rest (js "rt") 0);
      [lia | exact Hk | exact Hmin].
Qed.

Lemma first_close_ends_token_witness :
  exec styleTokenRegex 0 (token (js "red") (js "a{{b") ++ js "c}}")
  = (Some (0, [js "{{red:a{{b}}"; js "red"; js "a{{b"]), 12)
  /\ exists tail,
       interpret (Some (token (js "red") (js "a{{b") ++ js "c}}"))
       = [Span (js "rt-span-0") (JString (js "text-red-600 font-semibold"))
            [Text (js "a{{b")]] ++ tail
       /\ strips (js "c}}") (text_of tail).
Proof.
  exact (first_close_ends_token (js "red") (js "a{{b") (js "c}}")
           eq_refl eq_refl eq_refl).
Defined.

(** ** Unknown style keys *)

Lemma unknown_key_unwrapped k c :
  valid_key k = true -> minimal_content c = true ->
  get RICH_TEXT_STYLES k = JUndefined ->
  interpret (Some (token k c))
  = renderBracketHighlights RICH_TEXT_STYLES c (js "rt-s-0-tail").
Proof.
  intros Hk Hc Hu. unfold interpret, renderRichText.
  rewrite render_single_token by (assumption || lia).
  unfold token_nodes. now rewrite Hu.
Qed.

(** C6: a token whose key is not in the style table is rendered as its bare
    children, as for [{{unknownkey:hi}}]; but a key naming a member that the
    table inherits from [Object.prototype], such as [constructor], is not in
    the table and the code still wraps the children in a span, whose class
    is that inherited member. *)
Theorem inherited_key_gets_wrapper :
  own RICH_TEXT_STYLES (js "constructor") = None
  /\ interpret (Some (js "{{constructor:hi}}"))
     = [Span (js "rt-span-0") (JInherited (js "constructor"))
          [Text (js "hi")]]
  /\ interpret (Some (js "{{unknownkey:hi}}")) = [Text (js "hi")].
Proof. repeat split. Qed.

(** ** Nesting and the depth guard *)

Lemma mem_rbrace_opens n : mem RBRACE (opens n) = false.
Proof. induction n as [|n IH]; [reflexivity|].
  cbn [opens]. rewrite mem_app, IH. reflexivity.
Qed.

Lemma mem_lbrace_closes n : mem LBRACE (closes n) = false.
Proof. induction n as [|n IH]; [reflexivity|].
  cbn [closes]. rewrite mem_app, IH. reflexivity.
Qed.

Lemma mem_lbracket_closes n : mem LBRACKET (closes n) = false.
Proof. induction n as [|n IH]; [reflexivity|].
  cbn [closes]. rewrite mem_app, IH. reflexivity.
Qed.

Lemma mem_lbracket_opens n : mem LBRACKET (opens n) = false.
Proof. induction n as [|n IH]; [reflexivity|].
  cbn [opens]. rewrite mem_app, IH. reflexivity.
Qed.

Lemma no_unit_no_pair c s : mem c s = false -> contains [c; c] s = false.
Proof.
  intros H. destruct (contains [c; c] s) eqn:E; [|reflexivity].
  destruct (contains_split _ _ E) as (a & b & ->).
  rewrite mem_app in H. apply orb_false_elim in H as [_ H].
  simpl in H. now rewrite N.eqb_refl in H.
Qed.

Lemma no_rbrace_minimal s : mem RBRACE s = false -> minimal_content s = true.
Proof.
  intros H. apply not_ending_minimal.
  - now apply no_unit_no_pair.
  - unfold ends_with_rbrace. destruct (rev s) as [|x r] eqn:E; [reflexivity|].
    assert (Hin : In x s) by (apply in_rev; rewrite E; now left).
    unfold mem in H. destruct (N.eqb_spec x RBRACE) as [->|]; [|reflexivity].
    assert (existsb (N.eqb RBRACE) s = true)
      by (apply existsb_exists; exists RBRACE; split; [exact Hin | apply N.eqb_refl]).
    congruence.
Qed.

Lemma closes_shift n : closes n ++ js "}}" = js "}}" ++ closes n.
Proof.
  induction n as [|n IH]; [reflexivity|].
  cbn [closes]. rewrite <- app_assoc, IH. reflexivity.
Qed.

Lemma nested_split n inner : nested n inner = opens n ++ inner ++ closes n.
Proof.
  induction n as [|n IH]; cbn [nested opens closes].
  - now rewrite app_nil_r.
  - rewrite IH, <- !app_assoc. do 3 f_equal. apply closes_shift.
Qed.

Lemma nested_token n inner :
  nested (S n) inner = token (js "a") (opens n ++ inner) ++ closes n.
Proof.
  cbn [nested]. rewrite nested_split. unfold token.
  rewrite <- !app_assoc, closes_shift. reflexivity.
Qed.

(** Nested tokens are not read as nested: for every [n] the input with
    [n + 2] levels around [x] is rendered as two plain-text nodes, the
    [n + 1] inner openers with [x] and the [n + 1] closing delimiters left
    over, and the interpreter never goes deeper than the first nested
    level. *)
Lemma nested_render n :
  interpret (Some (nested (S (S n)) (js "x")))
  = [Text (opens (S n) ++ js "x"); Text (closes (S n))].
Proof.
  rewrite nested_token. unfold interpret, renderRichText.
  assert (Hmem : mem RBRACE (opens (S n) ++ js "x") = false)
    by (rewrite mem_app, mem_rbrace_opens; reflexivity).
  rewrite render_token_then_text;
    [ | lia | reflexivity | now apply no_rbrace_minimal
      | apply (no_unit_no_pair LBRACE), mem_lbrace_closes ].
  unfold token_nodes.
  change (get RICH_TEXT_STYLES (js "a")) with JUndefined. cbn [truthy].
  rewrite !renderBracketHighlights_no_open;
    [ | apply mem_lbracket_closes
      | rewrite mem_app, mem_lbracket_opens; reflexivity ].
  reflexivity.
Qed.

(** C3: the depth guard works when it is reached (a call at depth 9 returns
    its text verbatim), but nine nested levels do not reach it: the outer
    token ends at the first [}}], its content is rendered at depth 1 as one
    plain-text node with the eight inner openers still in it, and the eight
    closing delimiters left over follow as a second plain-text node; the
    same happens for every number of levels from two on. *)
Theorem nested_tokens_cut_at_first_close :
  renderRichTextInternal RICH_TEXT_STYLES (Some (js "{{a:x}}")) (js "rt") 9
  = [Text (js "{{a:x}}")]
  /\ nested 9 (js "x")
     = js "{{a:{{a:{{a:{{a:{{a:{{a:{{a:{{a:{{a:x}}}}}}}}}}}}}}}}}}"
  /\ interpret (Some (nested 9 (js "x")))
     = [Text (js "{{a:{{a:{{a:{{a:{{a:{{a:{{a:{{a:x");
        Text (js "}}}}}}}}}}}}}}}}")]
  /\ (forall n,
        interpret (Some (nested (n + 2) (js "x")))
        = [Text (opens (n + 1) ++ js "x"); Text (closes (n + 1))])
  /\ interpret (Some (js "{{red:a{{blue:b}}c}}"))
     = [Span (js "rt-span-0") (JString (js "text-red-600 font-semibold"))
          [Text (js "a{{blue:b")];
        Text (js "c}}")].
Proof.
  repeat split. intros n.
  replace (n + 2) with (S (S n)) by lia. replace (n + 1) with (S n) by lia.
  apply nested_render.
Qed.

(** ** Bracket highlights *)



(** ** The interpreter with its regular-expression objects

    The only objects the source mutates are its two regular expressions
    (each [exec] writes the [lastIndex] of the object it is called on) and
    its local arrays.  A regular-expression literal gives a new object
    every time the body of the function runs.  This section keeps these
    objects in a heap that is threaded through the calls, and keeps the
    two ways a call could fail to return: reading [.length] of an absent
    [match[0]] throws, and a loop that does not stop uses up any fuel.
    The pure functions of section Interpreter are then proved to be what
    these return. *)

(** The [lastIndex] of every regular-expression object created so far, in
    order of creation. *)
Definition heap := list nat.

Inductive outcome (A : Type) :=
| Returns (a : A) (h : heap)
| Throws
| OutOfFuel.

Arguments Returns {A} a h.
Arguments Throws {A}.
Arguments OutOfFuel {A}.

Definition bind {A B} (m : heap -> outcome A) (f : A -> heap -> outcome B)
  : heap -> outcome B :=
  fun h =>
    match m h with
    | Returns a h' => f a h'
    | Throws => Throws
    | OutOfFuel => OutOfFuel
    end.

(** A regular-expression literal: a new object, [lastIndex] 0. *)
Definition newRegExp (h : heap) : nat * heap := (length h, h ++ [0]).

Definition lastIndexOf (h : heap) (re : nat) : nat := nth re h 0.

Fixpoint setLastIndex (h : heap) (re v : nat) : heap :=
  match h, re with
  | [], _ => []
  | _ :: t, 0 => v :: t
  | x :: t, S re' => x :: setLastIndex t re' v
  end.

(** [re.exec(text)] on the object [re], whose pattern is [p]. *)
Definition execM (p : pattern) (re : nat) (text : str) (h : heap)
  : option (nat * list str) * heap :=
  let r := exec p (lastIndexOf h re) text in
  (fst r, setLastIndex h re (snd r)).

Section Objects.

Variable styles : object.

Fixpoint bracketLoopM (fuel : nat) (text keyPrefix : str) (re : nat)
    (lastIndex matchIndex : nat) (nodes : list node) (h : heap)
  : outcome (list node) :=
  match fuel with
  | 0 => OutOfFuel
  | S fuel' =>
      match execM bracketHighlightRegex re text h with
      | (Some (start, m), h') =>
          match nth_error m 0 with
          | None => Throws
          | Some match0 =>
              let nodes1 :=
                if lastIndex <? start
                then nodes ++ [Text (slice text lastIndex start)]
                else nodes in
              let nodes2 :=
                nodes1 ++ [Span (keyPrefix ++ js "-mark-" ++ decimal matchIndex)
                                (get styles (js "mark")) [Text match0]] in
              bracketLoopM fuel' text keyPrefix re (start + length match0)
                           (matchIndex + 1) nodes2 h'
          end
      | (None, h') =>
          Returns (if lastIndex <? length text
                   then nodes ++ [Text (sliceFrom text lastIndex)]
                   else nodes) h'
      end
  end.

Definition renderBracketHighlightsM (fuel : nat) (text keyPrefix : str)
    (h : heap) : outcome (list node) :=
  let (bracketHighlightRegex, h0) := newRegExp h in
  bracketLoopM fuel text keyPrefix bracketHighlightRegex 0 0 [] h0.

Fixpoint styleLoopM (fuel : nat)
    (brackets rec : str -> str -> heap -> outcome (list node))
    (text keyPrefix : str) (re : nat) (lastIndex matchIndex : nat)
    (nodes : list node) (h : heap) : outcome (list node) :=
  match fuel with
  | 0 => OutOfFuel
  | S fuel' =>
      match execM styleTokenRegex re text h with
      | (Some (start, m), h') =>
          match nth_error m 0 with
          | None => Throws
          | Some fullMatch =>
              let styleKey := trim (or_empty (nth_error m 1)) in
              let content := nullish_empty (nth_error m 2) in
              bind
                (if lastIndex <? start
                 then bind (brackets (slice text lastIndex start)
                              (keyPrefix ++ js "-p-" ++ decimal matchIndex))
                           (fun before => Returns (nodes ++ before))
                 else Returns nodes)
                (fun nodes1 =>
                   bind (rec content
                           (keyPrefix ++ js "-s-" ++ decimal matchIndex))
                     (fun children =>
                        let styleClass := get styles styleKey in
                        let nodes2 :=
                          if truthy styleClass
                          then nodes1
                               ++ [Span (keyPrefix ++ js "-span-"
                                         ++ decimal matchIndex)
                                        styleClass children]
                          else nodes1 ++ children in
                        styleLoopM fuel' brackets rec text keyPrefix re
                          (start + length fullMatch) (matchIndex + 1) nodes2))
                h'
          end
      | (None, h') =>
          if lastIndex <? length text
          then bind (brackets (sliceFrom text lastIndex)
                       (keyPrefix ++ js "-tail"))
                    (fun after => Returns (nodes ++ after)) h'
          else Returns nodes h'
      end
  end.

Fixpoint renderRichTextInternalM (fuel : nat) (text : option str)
    (keyPrefix : str) (depth : nat) (h : heap) : outcome (list node) :=
  match fuel with
  | 0 => OutOfFuel
  | S fuel' =>
      match text with
      | None | Some [] => Returns [] h
      | Some (c :: t) =>
          if 8 <? depth then Returns [Text (c :: t)] h
          else
            let (styleTokenRegex, h0) := newRegExp h in
            styleLoopM fuel' (renderBracketHighlightsM fuel')
              (fun content prefix =>
                 renderRichTextInternalM fuel' (Some content) prefix
                   (depth + 1))
              (c :: t) keyPrefix styleTokenRegex 0 0 [] h0
      end
  end.

End Objects.

Definition renderRichTextM (fuel : nat) (text : option str) (h : heap)
  : outcome (list node) :=
  renderRichTextInternalM RICH_TEXT_STYLES fuel text (js "rt") 0 h.

(** *** The heap *)

Lemma lastIndexOf_set h re v :
  re < length h -> lastIndexOf (setLastIndex h re v) re = v.
Proof.
  unfold lastIndexOf. revert re; induction h as [|x h IH]; intros re Hre;
    [simpl in Hre; lia|].
  destruct re as [|re]; [reflexivity|]. simpl in *. apply IH. lia.
Qed.

Lemma setLastIndex_again h re v w :
  setLastIndex (setLastIndex h re v) re w = setLastIndex h re w.
Proof.
  revert re; induction h as [|x h IH]; intros re; [reflexivity|].
  destruct re as [|re]; simpl; [reflexivity | now rewrite IH].
Qed.

Lemma length_setLastIndex h re v : length (setLastIndex h re v) = length h.
Proof.
  revert re; induction h as [|x h IH]; intros re; [reflexivity|].
  destruct re as [|re]; simpl; [reflexivity | now rewrite IH].
Qed.

Lemma lastIndexOf_app h e re :
  re < length h -> lastIndexOf (h ++ e) re = lastIndexOf h re.
Proof. intros H. unfold lastIndexOf. now apply app_nth1. Qed.

Lemma setLastIndex_app h e re v :
  re < length h -> setLastIndex (h ++ e) re v = setLastIndex h re v ++ e.
Proof.
  revert re; induction h as [|x h IH]; intros re Hre; [simpl in Hre; lia|].
  destruct re as [|re]; simpl; [reflexivity|]. rewrite IH; [reflexivity|].
  simpl in Hre. lia.
Qed.

Lemma setLastIndex_new h x v : setLastIndex (h ++ [x]) (length h) v = h ++ [v].
Proof. induction h as [|y h IH]; simpl; [reflexivity | now rewrite IH]. Qed.

(** *** What [exec] returns *)

Lemma matcher_whole re s m :
  matcher re s = Some m -> exists whole caps, m = whole :: caps.
Proof.
  unfold matcher. destruct (run re s) as [[caps rest]|]; [|discriminate].
  intros H; injection H as <-. eauto.
Qed.

Lemma exec_failure re lastIndex text lastIndex' :
  exec re lastIndex text = (None, lastIndex') -> lastIndex' = 0.
Proof.
  unfold exec. destruct (length text <? lastIndex).
  - now intros [= <-].
  - destruct (scan _ _ _) as [[i m]|]; [discriminate | now intros [= <-]].
Qed.

Lemma exec_match re lastIndex text i m lastIndex' :
  exec re lastIndex text = (Some (i, m), lastIndex') ->
  exists s, re s = Some m /\ length s <= length text.
Proof.
  unfold exec. destruct (length text <? lastIndex); [discriminate|].
  destruct (scan _ _ _) as [[j x]|] eqn:E; [|discriminate].
  intros H0; injection H0 as <- <- _. apply scan_matches in E.
  eexists. split; [exact E|]. rewrite !length_skipn. lia.
Qed.

Lemma length_slice (text : str) a b : length (slice text a b) <= length text.
Proof. unfold slice. rewrite length_firstn, length_skipn. lia. Qed.

Lemma style_match_content s m :
  styleTokenRegex s = Some m ->
  length (nullish_empty (nth_error m 2)) < length s.
Proof.
  intros H.
  destruct (style_match_sound _ _ H) as (k & c & rest & _ & _ & -> & ->).
  cbn [nth_error nullish_empty]. unfold token.
  rewrite !length_app. simpl. lia.
Qed.

(** *** The loops return what the pure loops compute *)

Section Simulation.

Variable styles : object.

Lemma bracketLoopM_returns fuel :
  forall text keyPrefix re reLastIndex lastIndex matchIndex nodes h,
  length text + 1 - reLastIndex < fuel -> re < length h ->
  lastIndexOf h re = reLastIndex ->
  bracketLoopM styles fuel text keyPrefix re lastIndex matchIndex nodes h
  = Returns (bracketLoop styles text keyPrefix reLastIndex lastIndex
               matchIndex nodes)
            (setLastIndex h re 0).
Proof.
  induction fuel as [|fuel IH];
    intros text keyPrefix re reLastIndex lastIndex matchIndex nodes h
           Hfuel Hre Hli; [lia|].
  cbn [bracketLoopM]. unfold execM. rewrite Hli, bracketLoop_iter.
  destruct (exec bracketHighlightRegex reLastIndex text)
    as [[[start m]|] li'] eqn:E; cbn [fst snd].
  - destruct (exec_match _ _ _ _ _ _ E) as (s & Hm & _).
    destruct (matcher_whole _ _ _ Hm) as (whole & caps & ->).
    cbn [nth_error nth].
    pose proof (exec_progress _ _ _ _ _ _ bracket_match_nonempty E) as Hlt.
    rewrite (IH text keyPrefix re li');
      [ now rewrite setLastIndex_again | lia
      | now rewrite length_setLastIndex | now apply lastIndexOf_set ].
  - now rewrite (exec_failure _ _ _ _ E).
Qed.

Lemma renderBracketHighlightsM_returns fuel text keyPrefix h :
  length text + 1 < fuel ->
  renderBracketHighlightsM styles fuel text keyPrefix h
  = Returns (renderBracketHighlights styles text keyPrefix) (h ++ [0]).
Proof.
  intros Hfuel. unfold renderBracketHighlightsM, newRegExp.
  rewrite (bracketLoopM_returns fuel text keyPrefix (length h) 0);
    [ now rewrite setLastIndex_new | lia | rewrite length_app; simpl; lia
    | unfold lastIndexOf; now rewrite nth_middle ].
Qed.

Lemma styleLoopM_returns brackets recM rec fuel :
  forall text keyPrefix re reLastIndex lastIndex matchIndex nodes h,
  (forall t prefix h0, length t <= length text ->
     exists e, brackets t prefix h0
               = Returns (renderBracketHighlights styles t prefix) (h0 ++ e)) ->
  (forall c prefix h0, length c < length text ->
     exists e, recM c prefix h0 = Returns (rec c prefix) (h0 ++ e)) ->
  length text + 1 - reLastIndex < fuel -> re < length h ->
  lastIndexOf h re = reLastIndex ->
  exists e,
    styleLoopM styles fuel brackets recM text keyPrefix re lastIndex
      matchIndex nodes h
    = Returns (styleLoop styles rec text keyPrefix reLastIndex lastIndex
                 matchIndex nodes)
              (setLastIndex h re 0 ++ e).
Proof.
  induction fuel as [|fuel IH];
    intros text keyPrefix re reLastIndex lastIndex matchIndex nodes h
           Hb Hr Hfuel Hre Hli; [lia|].
  cbn [styleLoopM]. unfold execM. rewrite Hli, styleLoop_iter.
  destruct (exec styleTokenRegex reLastIndex text)
    as [[[start m]|] li'] eqn:E; cbn [fst snd].
  - destruct (exec_match _ _ _ _ _ _ E) as (s & Hm & Hs).
    destruct (matcher_whole _ _ _ Hm) as (whole & caps & ->).
    pose proof (style_match_content _ _ Hm) as Hc.
    pose proof (exec_progress _ _ _ _ _ _ style_match_nonempty E) as Hlt.
    change (nth_error (whole :: caps) 2) with (nth_error caps 1) in Hc |- *.
    change (nth_error (whole :: caps) 1) with (nth_error caps 0).
    change (nth_error (whole :: caps) 0) with (Some whole).
    change (nth 0 (whole :: caps) []) with whole in Hlt |- *. cbv zeta.
    set (h1 := setLastIndex h re li').
    assert (Hre1 : re < length h1)
      by (unfold h1; now rewrite length_setLastIndex).
    assert (Hli1 : lastIndexOf h1 re = li')
      by (unfold h1; now apply lastIndexOf_set).
    assert (Hgap : exists e1,
      (if lastIndex <? start
       then bind (brackets (slice text lastIndex start)
                    (keyPrefix ++ js "-p-" ++ decimal matchIndex))
                 (fun before => Returns (nodes ++ before))
       else Returns nodes) h1
      = Returns (if lastIndex <? start
                 then nodes ++ renderBracketHighlights styles
                                 (slice text lastIndex start)
                                 (keyPrefix ++ js "-p-" ++ decimal matchIndex)
                 else nodes) (h1 ++ e1)).
    { destruct (lastIndex <? start).
      - destruct (Hb (slice text lastIndex start)
                     (keyPrefix ++ js "-p-" ++ decimal matchIndex) h1
                     (length_slice text _ _)) as [e1 He1].
        exists e1. unfold bind. now rewrite He1.
      - exists []. now rewrite app_nil_r. }
    destruct Hgap as [e1 Hgap]. unfold bind at 1. rewrite Hgap.
    destruct (Hr (nullish_empty (nth_error caps 1))
                 (keyPrefix ++ js "-s-" ++ decimal matchIndex) (h1 ++ e1))
      as [e2 He2]; [lia|].
    unfold bind at 1. rewrite He2.
    edestruct (IH text keyPrefix re li' (start + length whole)
                 (matchIndex + 1)) as [e3 He3];
      [exact Hb | exact Hr | lia | | | rewrite He3].
    + rewrite !length_app. lia.
    + now rewrite !lastIndexOf_app by (rewrite ?length_app; lia).
    + exists (e1 ++ e2 ++ e3). f_equal.
      rewrite !setLastIndex_app by (rewrite ?length_app; lia).
      unfold h1. rewrite setLastIndex_again. now rewrite <- !app_assoc.
  - rewrite (exec_failure _ _ _ _ E).
    destruct (lastIndex <? length text).
    + destruct (Hb (sliceFrom text lastIndex) (keyPrefix ++ js "-tail")
                   (setLastIndex h re 0)) as [e He].
      { unfold sliceFrom. rewrite length_skipn. lia. }
      exists e. unfold bind. now rewrite He.
    + exists []. now rewrite app_nil_r.
Qed.

Lemma renderRichTextInternalM_returns fuel :
  forall text keyPrefix depth h,
  length (nullish_empty text) + 3 <= fuel ->
  exists e,
    renderRichTextInternalM styles fuel text keyPrefix depth h
    = Returns (renderRichTextInternal styles text keyPrefix depth) (h ++ e).
Proof.
  induction fuel as [|fuel IH]; intros text keyPrefix depth h Hfuel; [lia|].
  cbn [renderRichTextInternalM]. rewrite renderRichTextInternal_body.
  destruct text as [[|c t]|]; try (exists []; now rewrite app_nil_r).
  destruct (8 <? depth); [exists []; now rewrite app_nil_r|].
  unfold newRegExp. cbn [nullish_empty] in Hfuel.
  edestruct (styleLoopM_returns (renderBracketHighlightsM styles fuel)
               (fun content prefix =>
                  renderRichTextInternalM styles fuel (Some content) prefix
                    (depth + 1))
               (fun content prefix =>
                  renderRichTextInternal styles (Some content) prefix
                    (depth + 1))
               fuel (c :: t) keyPrefix (length h) 0 0 0 [] (h ++ [0]))
    as [e He].
  - intros u prefix h0 Hu. exists [0].
    apply renderBracketHighlightsM_returns. lia.
  - intros u prefix h0 Hu. apply IH. cbn [nullish_empty]. lia.
  - lia.
  - rewrite length_app. simpl. lia.
  - unfold lastIndexOf. now rewrite nth_middle.
  - rewrite He. exists ([0] ++ e). f_equal.
    now rewrite setLastIndex_new, <- app_assoc.
Qed.

End Simulation.

(** With fuel for the length of the text, a call returns the nodes of the
    pure function and leaves the objects that were there as they were. *)
Lemma renderRichTextM_returns fuel text h :
  length (nullish_empty text) + 3 <= fuel ->
  exists e, renderRichTextM fuel text h = Returns (interpret text) (h ++ e).
Proof. apply renderRichTextInternalM_returns. Qed.

(** ** Totality and leniency *)













(** ** Purity *)

Lemma str_eqb_eq a b : str_eqb a b = true <-> a = b.
Proof. unfold str_eqb. destruct (list_eq_dec N.eq_dec a b); split; congruence. Qed.

(** C9: [interpret] is a function of its input and the static table, and a
    call has no effect on what was there before it.  Run with its
    regular-expression objects on any heap, a call returns the nodes of
    [interpret text], whatever the [lastIndex] of the objects it finds,
    and leaves these objects as they were: the heap only grows by the
    objects the call made for itself.  A second call on the same input,
    run on the heap the first one left, returns the same nodes. *)
Theorem interpret_is_pure (text : option str) (h : heap) (fuel : nat) :
  length (nullish_empty text) + 3 <= fuel ->
  exists e e',
    renderRichTextM fuel text h = Returns (interpret text) (h ++ e)
    /\ renderRichTextM fuel text (h ++ e)
       = Returns (interpret text) ((h ++ e) ++ e').
Proof.
  intros Hfuel.
  destruct (renderRichTextM_returns fuel text h Hfuel) as [e He].
  destruct (renderRichTextM_returns fuel text (h ++ e) Hfuel) as [e' He'].
  now exists e, e'.
Qed.

Lemma interpret_is_pure_witness :
  length (nullish_empty (Some (js "{{red:a}}" ++ highlight (js "b")))) + 3 <= 15
  /\ exists e e',
       renderRichTextM 15 (Some (js "{{red:a}}" ++ highlight (js "b"))) [4; 9]
       = Returns (interpret (Some (js "{{red:a}}" ++ highlight (js "b"))))
                 ([4; 9] ++ e)
       /\ renderRichTextM 15 (Some (js "{{red:a}}" ++ highlight (js "b")))
            ([4; 9] ++ e)
          = Returns (interpret (Some (js "{{red:a}}" ++ highlight (js "b"))))
                    (([4; 9] ++ e) ++ e').
Proof.
  split; [simpl; lia|].
  apply (interpret_is_pure (Some (js "{{red:a}}" ++ highlight (js "b")))
           [4; 9] 15).
  simpl. lia.
Defined.

(** The table is read through the classes it gives to valid keys and to
    nothing else: tables that give the same classes give the same nodes. *)
Lemma jsvalue_eqb_eq a b : jsvalue_eqb a b = true -> a = b.
Proof.
  destruct a, b; simpl; try discriminate; try reflexivity;
    intros H; apply str_eqb_eq in H; now subst.
Qed.

Lemma own_some_key t k v : own t k = Some v -> In k (map fst t).
Proof.
  induction t as [|[k' v'] t IH]; simpl; [discriminate|].
  destruct (str_eqb k k') eqn:E; [|auto].
  apply str_eqb_eq in E. auto.
Qed.

Lemma same_entries_get t1 t2 :
  same_entries t1 t2 = true -> forall k, get t1 k = get t2 k.
Proof.
  unfold same_entries. intros H k.
  assert (Hin : In k (map fst t1 ++ map fst t2) -> get t1 k = get t2 k).
  { intros Hk. apply jsvalue_eqb_eq.
    now apply (proj1 (forallb_forall _ _) H). }
  destruct (own t1 k) as [v1|] eqn:E1.
  - apply Hin, in_or_app. left. now apply own_some_key with v1.
  - destruct (own t2 k) as [v2|] eqn:E2.
    + apply Hin, in_or_app. right. now apply own_some_key with v2.
    + unfold get. now rewrite E1, E2.
Qed.

Lemma renderRichText_reads_classes_only (styles1 styles2 : object)
    (text : option str) :
  (forall k, valid_key k = true -> get styles1 k = get styles2 k) ->
  renderRichText styles1 text = renderRichText styles2 text.
Proof.
  intros H. unfold renderRichText. now apply renderRichTextInternal_agree.
Qed.

(** ** Empty constructs *)

Lemma bracket_pass_no_empty styles keyPrefix i s nodes :
  bracket_pass styles keyPrefix i s nodes ->
  forall j, ~ In (mark_span styles keyPrefix j []) nodes.
Proof.
  induction 1 as [i s _|i gap body rest nodes _ Hne _ _ IH]; intros j Hin.
  - destruct s; simpl in Hin; [|destruct Hin as [Hin|[]]]; [destruct Hin|].
    discriminate.
  - apply in_app_or in Hin as [Hin|[Hin|Hin]].
    + destruct gap; simpl in Hin; [|destruct Hin as [Hin|[]]]; [destruct Hin|].
      discriminate.
    + destruct body as [|y body]; [congruence|].
      unfold mark_span, highlight in Hin. injection Hin as _ _ Hb.
      destruct body; discriminate.
    + now apply (IH j).
Qed.

(** C10: the bracket pattern never matches at an empty pair, no highlight
    span of the bracket pass is the empty pair, and 《》 alone is rendered
    as plain text; while a token with empty content, for each key of the
    style table, is one span of that key's class with no children. *)
Theorem empty_pair_plain_empty_token_styled :
  (forall rest, bracketHighlightRegex (LBRACKET :: RBRACKET :: rest) = None)
  /\ (forall text keyPrefix j,
        ~ In (mark_span RICH_TEXT_STYLES keyPrefix j [])
             (renderBracketHighlights RICH_TEXT_STYLES text keyPrefix))
  /\ interpret (Some [LBRACKET; RBRACKET]) = [Text [LBRACKET; RBRACKET]]
  /\ interpret (Some (js "{{red:}}"))
     = [Span (js "rt-span-0") (JString (js "text-red-600 font-semibold")) []]
  /\ Forall (fun kv =>
               interpret (Some (token (fst kv) []))
               = [Span (js "rt-span-0") (JString (snd kv)) []])
            RICH_TEXT_STYLES.
Proof.
  split; [reflexivity|]. split.
  - intros text keyPrefix j.
    apply (bracket_pass_no_empty RICH_TEXT_STYLES keyPrefix 0 text).
    apply renderBracketHighlights_pass.
  - split; [reflexivity|]. split; [reflexivity|].
    repeat (apply Forall_cons; [reflexivity|]). apply Forall_nil.
Qed.

(** * Further properties of the interpreter

    Properties of [renderBracketHighlights] and [renderRichTextInternal]
    that the rendering relies on: the shape of the returned nodes and the
    React keys given to the spans. *)

From Stdlib Require Import DecimalNat.

(** ** The style pass, declaratively

    [style_pass styles rec keyPrefix i s nodes]: reading [s] left to right,
    every token, numbered from [i], gives the bracket pass of the text
    before it followed by the token's nodes, whose children are [rec] of
    the content; the text after the last token goes to the bracket
    pass. *)
Inductive style_pass (styles : object) (rec : str -> str -> list node)
    (keyPrefix : str) : nat -> str -> list node -> Prop :=
| style_pass_done i s :
    (forall a b, s = a ++ b -> styleTokenRegex b = None) ->
    style_pass styles rec keyPrefix i s
      (renderBracketHighlights styles s (keyPrefix ++ js "-tail"))
| style_pass_token i gap k c rest nodes :
    valid_key k = true -> minimal_content c = true ->
    style_pass styles rec keyPrefix (i + 1) rest nodes ->
    style_pass styles rec keyPrefix i (gap ++ token k c ++ rest)
      (renderBracketHighlights styles gap
         (keyPrefix ++ js "-p-" ++ decimal i)
       ++ token_nodes styles keyPrefix i k
            (rec c (keyPrefix ++ js "-s-" ++ decimal i))
       ++ nodes).

(** Every text node, at any depth, holds at least one code unit. *)
Fixpoint texts_nonempty (n : node) : bool :=
  match n with
  | Text [] => false
  | Text _ => true
  | Span _ _ children => forallb texts_nonempty children
  end.

(** A text node, or a span around exactly one text node. *)
Definition leaf_span (n : node) : bool :=
  match n with
  | Text _ => true
  | Span _ _ [Text _] => true
  | Span _ _ _ => false
  end.

(** A node whose children, if it has any, are text nodes and spans around
    one text node: no span lies deeper than the second level. *)
Definition shallow (n : node) : bool :=
  match n with
  | Text _ => true
  | Span _ _ children => forallb leaf_span children
  end.

(** The keys of the spans of a sibling list, in order. *)
Definition span_keys (nodes : list node) : list str :=
  flat_map (fun n => match n with Span key _ _ => [key] | Text _ => [] end)
           nodes.

(** No two sibling spans share a key, in the children of [n] and below. *)
Fixpoint keys_distinct (n : node) : Prop :=
  match n with
  | Text _ => True
  | Span _ _ children =>
      NoDup (span_keys children)
      /\ fold_right (fun c acc => keys_distinct c /\ acc) True children
  end.

Definition sibling_keys_distinct (nodes : list node) : Prop :=
  NoDup (span_keys nodes)
  /\ fold_right (fun c acc => keys_distinct c /\ acc) True nodes.

(** The places a span can come from: a highlight in the text before token
    [i], the wrapper of token [i], a highlight in the content of token [i],
    a highlight in the text after the last token. *)
Inductive slot :=
| GapMark (i j : nat)
| StyleSpan (i : nat)
| ContentMark (i j : nat)
| TailMark (j : nat).

Definition mark_key (keyPrefix : str) (j : nat) : str :=
  keyPrefix ++ js "-mark-" ++ decimal j.

Definition slot_key (keyPrefix : str) (s : slot) : str :=
  match s with
  | GapMark i j => mark_key (keyPrefix ++ js "-p-" ++ decimal i) j
  | StyleSpan i => keyPrefix ++ js "-span-" ++ decimal i
  | ContentMark i j =>
      mark_key ((keyPrefix ++ js "-s-" ++ decimal i) ++ js "-tail") j
  | TailMark j => mark_key (keyPrefix ++ js "-tail") j
  end.

Definition slot_iteration (s : slot) : option nat :=
  match s with
  | GapMark i _ | StyleSpan i | ContentMark i _ => Some i
  | TailMark _ => None
  end.

Definition isDigit (c : code_unit) : bool := (N.leb 48 c && N.leb c 57)%N.

Section StylePass.

Variable styles : object.

Lemma styleLoop_pass n : forall rec text keyPrefix p matchIndex nodes,
  length text - p <= n -> p <= length text ->
  exists out,
    styleLoop styles rec text keyPrefix p p matchIndex nodes = nodes ++ out
    /\ style_pass styles rec keyPrefix matchIndex (skipn p text) out.
Proof.
  induction n as [|n IH]; intros rec text keyPrefix p matchIndex nodes Hn Hp;
    (destruct (style_cases text p Hp)
      as [Hnone|(gap & k & c & rest & Hs & Hgap & Hk & Hc)];
     [eexists; split;
      [apply (styleLoop_done styles rec text keyPrefix p matchIndex nodes Hp Hnone)
      | now apply style_pass_done] |]);
    pose proof (suffix_bounds text p (gap ++ token k c) rest Hp) as Hb2;
    rewrite <- app_assoc in Hb2; destruct (Hb2 Hs) as (Hle & Hrest & _);
    rewrite length_app in Hle, Hrest; rewrite Nat.add_assoc in Hle, Hrest;
    assert (0 < length (token k c)) by (unfold token; simpl; lia).
  - lia.
  - rewrite (styleLoop_token styles rec text keyPrefix p matchIndex nodes
               gap k c rest Hp Hs Hgap Hk Hc).
    edestruct (IH rec text keyPrefix (p + length gap + length (token k c)))
      as (out & -> & Hout); [lia | lia |].
    rewrite Hrest in Hout. eexists. split.
    + rewrite <- !app_assoc. reflexivity.
    + rewrite Hs. now apply style_pass_token.
Qed.

(** A call below the ceiling, on a text that is not empty, is the style
    pass with the call one level down for the contents. *)
Lemma renderRichTextInternal_pass x s keyPrefix depth :
  depth <= 8 ->
  style_pass styles
    (fun content prefix =>
       renderRichTextInternal styles (Some content) prefix (depth + 1))
    keyPrefix 0 (x :: s)
    (renderRichTextInternal styles (Some (x :: s)) keyPrefix depth).
Proof.
  intros Hd. rewrite renderRichTextInternal_body.
  destruct (Nat.ltb_spec 8 depth); [lia|].
  edestruct (styleLoop_pass (length (x :: s))) as (out & -> & Hout);
    [| | exact Hout]; [lia | simpl; lia].
Qed.

(** *** Text nodes *)

Lemma plain_texts_nonempty s : forallb texts_nonempty (plain s) = true.
Proof. now destruct s. Qed.

Lemma bracket_pass_texts_nonempty keyPrefix i s nodes :
  bracket_pass styles keyPrefix i s nodes ->
  forallb texts_nonempty nodes = true.
Proof.
  induction 1 as [i s _|i gap body rest nodes _ _ _ _ IH].
  - apply plain_texts_nonempty.
  - rewrite forallb_app, plain_texts_nonempty. cbn. exact IH.
Qed.

Lemma renderBracketHighlights_texts_nonempty text keyPrefix :
  forallb texts_nonempty (renderBracketHighlights styles text keyPrefix)
  = true.
Proof.
  apply (bracket_pass_texts_nonempty keyPrefix 0 text).
  apply renderBracketHighlights_pass.
Qed.

Lemma token_nodes_texts_nonempty keyPrefix i k children :
  forallb texts_nonempty children = true ->
  forallb texts_nonempty (token_nodes styles keyPrefix i k children) = true.
Proof.
  intros H. unfold token_nodes. destruct (truthy _); [|exact H].
  cbn. now rewrite H.
Qed.

Lemma style_pass_texts_nonempty rec keyPrefix i s nodes :
  (forall c prefix, contains CLOSE c = false ->
                    forallb texts_nonempty (rec c prefix) = true) ->
  style_pass styles rec keyPrefix i s nodes ->
  forallb texts_nonempty nodes = true.
Proof.
  intros Hrec. induction 1 as [i s _|i gap k c rest nodes _ Hc _ IH].
  - apply renderBracketHighlights_texts_nonempty.
  - rewrite !forallb_app, renderBracketHighlights_texts_nonempty, IH.
    rewrite token_nodes_texts_nonempty; [reflexivity|].
    apply Hrec. now apply minimal_no_close.
Qed.

Lemma render_content_texts_nonempty c keyPrefix depth :
  contains CLOSE c = false ->
  forallb texts_nonempty
    (renderRichTextInternal styles (Some c) keyPrefix depth) = true.
Proof.
  intros H. rewrite render_content by exact H. destruct (8 <? depth).
  - apply plain_texts_nonempty.
  - apply renderBracketHighlights_texts_nonempty.
Qed.

(** *** Depth of the returned tree *)

Lemma leaf_span_shallow nodes :
  forallb leaf_span nodes = true -> forallb shallow nodes = true.
Proof.
  induction nodes as [|n nodes IH]; [reflexivity|]. cbn [forallb].
  intros H. apply andb_prop in H as [Hn H]. rewrite (IH H), andb_true_r.
  destruct n as [v|k cls [|[v|k' cls' ch'] [|c2 ch]]]; try discriminate;
    reflexivity.
Qed.

Lemma plain_leaf_span s : forallb leaf_span (plain s) = true.
Proof. now destruct s. Qed.

Lemma bracket_pass_leaf_span keyPrefix i s nodes :
  bracket_pass styles keyPrefix i s nodes ->
  forallb leaf_span nodes = true.
Proof.
  induction 1 as [i s _|i gap body rest nodes _ _ _ _ IH].
  - apply plain_leaf_span.
  - rewrite forallb_app, plain_leaf_span. cbn. exact IH.
Qed.

Lemma renderBracketHighlights_leaf_span text keyPrefix :
  forallb leaf_span (renderBracketHighlights styles text keyPrefix) = true.
Proof.
  apply (bracket_pass_leaf_span keyPrefix 0 text).
  apply renderBracketHighlights_pass.
Qed.

Lemma style_pass_shallow rec keyPrefix i s nodes :
  (forall c prefix, contains CLOSE c = false ->
                    forallb leaf_span (rec c prefix) = true) ->
  style_pass styles rec keyPrefix i s nodes ->
  forallb shallow nodes = true.
Proof.
  intros Hrec. induction 1 as [i s _|i gap k c rest nodes _ Hc _ IH].
  - apply leaf_span_shallow, renderBracketHighlights_leaf_span.
  - rewrite !forallb_app, IH, andb_true_r.
    rewrite (leaf_span_shallow _ (renderBracketHighlights_leaf_span gap _)).
    pose proof (Hrec c (keyPrefix ++ js "-s-" ++ decimal i)
                  (minimal_no_close c Hc)) as Hch.
    unfold token_nodes. destruct (truthy _).
    + cbn [forallb shallow]. now rewrite Hch.
    + now apply leaf_span_shallow.
Qed.

Lemma render_content_leaf_span c keyPrefix depth :
  contains CLOSE c = false ->
  forallb leaf_span
    (renderRichTextInternal styles (Some c) keyPrefix depth) = true.
Proof.
  intros H. rewrite render_content by exact H. destruct (8 <? depth).
  - apply plain_leaf_span.
  - apply renderBracketHighlights_leaf_span.
Qed.

(** *** Keys *)

Lemma digits_isDigit u : forallb isDigit (digits u) = true.
Proof. induction u; simpl; auto. Qed.

Lemma digits_inj u : forall v, digits u = digits v -> u = v.
Proof.
  induction u; destruct v; simpl; intros H;
    try discriminate; try reflexivity;
    injection H as H; f_equal; now apply IHu.
Qed.

Lemma decimal_inj a b : decimal a = decimal b -> a = b.
Proof.
  unfold decimal. intros H. apply digits_inj in H.
  rewrite <- (Unsigned.of_to a), <- (Unsigned.of_to b). now rewrite H.
Qed.

(** Two numbers followed by something that is not a digit: the numbers
    and what follows are equal. *)
Lemma decimal_split a b x r y r' :
  isDigit x = false -> isDigit y = false ->
  decimal a ++ x :: r = decimal b ++ y :: r' ->
  a = b /\ x :: r = y :: r'.
Proof.
  intros Hx Hy H.
  assert (Ha : decimal a = decimal b).
  { apply (f_equal (takeWhile isDigit)) in H.
    rewrite !takeWhile_app in H
      by (try apply digits_isDigit; assumption).
    exact H. }
  split; [now apply decimal_inj|].
  rewrite Ha in H. now apply app_inv_head in H.
Qed.

Lemma slot_key_inj keyPrefix s s' :
  slot_key keyPrefix s = slot_key keyPrefix s' -> s = s'.
Proof.
  destruct s, s'; unfold slot_key, mark_key; rewrite <- ?app_assoc;
    intros H; apply app_inv_head in H; simpl in H;
    try discriminate; injection H as H.
  - apply decimal_split in H; [|reflexivity|reflexivity].
    destruct H as [-> H]. injection H as H. now apply decimal_inj in H as ->.
  - now apply decimal_inj in H as ->.
  - apply decimal_split in H; [|reflexivity|reflexivity].
    destruct H as [-> H]. injection H as H. now apply decimal_inj in H as ->.
  - now apply decimal_inj in H as ->.
Qed.

Lemma NoDup_map_inj {A B} (f : A -> B) l :
  (forall x y, f x = f y -> x = y) -> NoDup l -> NoDup (map f l).
Proof.
  intros Hf. induction 1 as [|x l Hx _ IH]; simpl; constructor; auto.
  intros Hin. apply in_map_iff in Hin as (y & Hy & Hin).
  apply Hf in Hy. now subst.
Qed.

Lemma span_keys_app a b : span_keys (a ++ b) = span_keys a ++ span_keys b.
Proof. apply flat_map_app. Qed.

Lemma span_keys_plain s : span_keys (plain s) = [].
Proof. now destruct s. Qed.

Lemma keys_distinct_app a b :
  fold_right (fun c acc => keys_distinct c /\ acc) True (a ++ b)
  <-> fold_right (fun c acc => keys_distinct c /\ acc) True a
      /\ fold_right (fun c acc => keys_distinct c /\ acc) True b.
Proof. induction a; simpl; tauto. Qed.

Lemma keys_distinct_plain s :
  fold_right (fun c acc => keys_distinct c /\ acc) True (plain s).
Proof. destruct s; simpl; auto. Qed.

(** The bracket pass numbers its spans consecutively. *)
Lemma bracket_pass_keys keyPrefix i s nodes :
  bracket_pass styles keyPrefix i s nodes ->
  (exists n, span_keys nodes = map (mark_key keyPrefix) (seq i n))
  /\ fold_right (fun c acc => keys_distinct c /\ acc) True nodes.
Proof.
  induction 1 as [i s _|i gap body rest nodes _ _ _ _ [[n IH] IH2]].
  - split; [exists 0; apply span_keys_plain | apply keys_distinct_plain].
  - split.
    + exists (S n). rewrite span_keys_app, span_keys_plain. simpl.
      f_equal. now rewrite IH, Nat.add_1_r.
    + apply keys_distinct_app. split; [apply keys_distinct_plain|].
      simpl. repeat split; [constructor | exact IH2].
Qed.

Lemma renderBracketHighlights_keys text keyPrefix :
  (exists n, span_keys (renderBracketHighlights styles text keyPrefix)
             = map (mark_key keyPrefix) (seq 0 n))
  /\ fold_right (fun c acc => keys_distinct c /\ acc) True
       (renderBracketHighlights styles text keyPrefix).
Proof.
  apply (bracket_pass_keys keyPrefix 0 text).
  apply renderBracketHighlights_pass.
Qed.

Lemma mark_key_inj keyPrefix a b :
  mark_key keyPrefix a = mark_key keyPrefix b -> a = b.
Proof.
  unfold mark_key. intros H. apply app_inv_head in H.
  apply app_inv_head in H. now apply decimal_inj.
Qed.

Lemma NoDup_mark_keys keyPrefix i n :
  NoDup (map (mark_key keyPrefix) (seq i n)).
Proof. apply NoDup_map_inj; [apply mark_key_inj | apply seq_NoDup]. Qed.

(** The spans of a style pass sit at distinct places, none before
    iteration [i]. *)
Lemma style_pass_slots rec keyPrefix i s nodes :
  (forall c prefix, contains CLOSE c = false ->
     (exists n, span_keys (rec c prefix)
                = map (mark_key (prefix ++ js "-tail")) (seq 0 n))
     /\ fold_right (fun c acc => keys_distinct c /\ acc) True (rec c prefix)) ->
  style_pass styles rec keyPrefix i s nodes ->
  (exists slots,
     span_keys nodes = map (slot_key keyPrefix) slots /\ NoDup slots
     /\ forall sl j, In sl slots -> slot_iteration sl = Some j -> i <= j)
  /\ fold_right (fun c acc => keys_distinct c /\ acc) True nodes.
Proof.
  intros Hrec.
  induction 1 as [i s _|i gap k c rest nodes _ Hc _ [(slots & IH & IHnd & IHi) IH2]].
  - destruct (renderBracketHighlights_keys s (keyPrefix ++ js "-tail"))
      as [[n Hn] Hd].
    split; [|exact Hd]. exists (map TailMark (seq 0 n)). split; [|split].
    + now rewrite Hn, map_map.
    + apply NoDup_map_inj; [now intros x y [= ->] | apply seq_NoDup].
    + intros sl j Hin. apply in_map_iff in Hin as (y & <- & _). discriminate.
  - destruct (renderBracketHighlights_keys gap
                (keyPrefix ++ js "-p-" ++ decimal i)) as [[n Hn] Hd].
    destruct (Hrec c (keyPrefix ++ js "-s-" ++ decimal i)
                (minimal_no_close c Hc)) as [[m Hm] Hcd].
    set (here := if truthy (get styles k) then [StyleSpan i]
                 else map (ContentMark i) (seq 0 m)).
    assert (Hhere : span_keys (token_nodes styles keyPrefix i k
                      (rec c (keyPrefix ++ js "-s-" ++ decimal i)))
                    = map (slot_key keyPrefix) here).
    { unfold token_nodes, here. destruct (truthy _); [reflexivity|].
      now rewrite Hm, map_map. }
    assert (Hnd : NoDup here).
    { unfold here. destruct (truthy _).
      - repeat constructor. intros [].
      - apply NoDup_map_inj; [now intros x y [= ->] | apply seq_NoDup]. }
    assert (Hiter : forall sl, In sl here -> slot_iteration sl = Some i
                                 /\ forall j, sl <> GapMark i j).
    { unfold here. intros sl Hin. destruct (truthy _).
      - destruct Hin as [<-|[]]. now split.
      - apply in_map_iff in Hin as (y & <- & _). now split. }
    split.
    + exists (map (GapMark i) (seq 0 n) ++ here ++ slots).
      split; [|split].
      * rewrite !span_keys_app, Hn, Hhere, IH, !map_app, map_map.
        reflexivity.
      * apply NoDup_app.
        -- apply NoDup_map_inj; [now intros x y [= ->] | apply seq_NoDup].
        -- apply NoDup_app; [exact Hnd | exact IHnd |].
           intros sl Hin Hin'. destruct (Hiter sl Hin) as [Hsl _].
           specialize (IHi sl i Hin' Hsl). lia.
        -- intros sl Hin Hin'. apply in_map_iff in Hin as (y & <- & _).
           apply in_app_or in Hin' as [Hin'|Hin'].
           ++ destruct (Hiter _ Hin') as [_ Hg]. now apply (Hg y).
           ++ specialize (IHi _ i Hin' eq_refl). lia.
      * intros sl j Hin Hj. apply in_app_or in Hin as [Hin|Hin].
        { apply in_map_iff in Hin as (y & <- & _). injection Hj as <-. lia. }
        apply in_app_or in Hin as [Hin|Hin].
        { destruct (Hiter sl Hin) as [Hsl _]. rewrite Hsl in Hj.
          injection Hj as <-. lia. }
        specialize (IHi sl j Hin Hj). lia.
    + apply keys_distinct_app. split; [exact Hd|].
      apply keys_distinct_app. split; [|exact IH2].
      unfold token_nodes. destruct (truthy _); [|exact Hcd].
      cbn [fold_right keys_distinct]. split; [split; [|exact Hcd] | exact I].
      rewrite Hm. apply NoDup_mark_keys.
Qed.

Lemma render_content_keys c prefix depth :
  contains CLOSE c = false ->
  (exists n, span_keys (renderRichTextInternal styles (Some c) prefix depth)
             = map (mark_key (prefix ++ js "-tail")) (seq 0 n))
  /\ fold_right (fun c acc => keys_distinct c /\ acc) True
       (renderRichTextInternal styles (Some c) prefix depth).
Proof.
  intros H. rewrite render_content by exact H. destruct (8 <? depth).
  - split; [exists 0; apply span_keys_plain | apply keys_distinct_plain].
  - apply renderBracketHighlights_keys.
Qed.

End StylePass.

(** X1.  No text node returned by the interpreter is empty, at any depth
    of the returned tree, for any text, key prefix and recursion depth:
    text is pushed only for a gap that is not empty, and a highlight holds
    at least its two brackets. *)
Theorem no_empty_text_node (styles : object) (text : option str)
    (keyPrefix : str) (depth : nat) :
  forallb texts_nonempty
    (renderRichTextInternal styles text keyPrefix depth) = true.
Proof.
  destruct text as [[|x s]|];
    try (rewrite renderRichTextInternal_body; reflexivity).
  destruct (Nat.leb_spec depth 8) as [Hd|Hd].
  - eapply style_pass_texts_nonempty;
      [|apply renderRichTextInternal_pass; exact Hd].
    intros c prefix Hc. now apply render_content_texts_nonempty.
  - rewrite depth_guard by lia. reflexivity.
Qed.

(** X2.  The React keys of the spans are pairwise distinct among siblings:
    in the sequence the interpreter returns and in the children of every
    span in it, no two spans carry the same key, whatever the text, the
    key prefix and the style table. *)
Theorem sibling_span_keys_distinct (styles : object) (text : option str)
    (keyPrefix : str) (depth : nat) :
  sibling_keys_distinct (renderRichTextInternal styles text keyPrefix depth).
Proof.
  unfold sibling_keys_distinct.
  destruct text as [[|x s]|];
    try (rewrite renderRichTextInternal_body; split; [constructor|exact I]).
  destruct (Nat.leb_spec depth 8) as [Hd|Hd].
  - destruct (style_pass_slots styles _ keyPrefix 0 (x :: s) _
                (fun c prefix Hc => render_content_keys styles c prefix (depth + 1) Hc)
                (renderRichTextInternal_pass styles x s keyPrefix depth Hd))
      as [(slots & -> & Hnd & _) Hd2].
    split; [|exact Hd2].
    apply NoDup_map_inj; [apply slot_key_inj | exact Hnd].
  - rewrite depth_guard by lia. split; [constructor | simpl; auto].
Qed.

(** X15.  The returned tree has at most two levels of spans, whatever the
    text: each returned node is a text node, or a span whose children are
    text nodes and spans around exactly one text node.  A span for a style
    token never lies inside another span. *)
Theorem returned_tree_is_shallow (styles : object) (text : option str)
    (keyPrefix : str) (depth : nat) :
  forallb shallow (renderRichTextInternal styles text keyPrefix depth) = true.
Proof.
  destruct text as [[|x s]|];
    try (rewrite renderRichTextInternal_body; reflexivity).
  destruct (Nat.leb_spec depth 8) as [Hd|Hd].
  - eapply style_pass_shallow;
      [|apply renderRichTextInternal_pass; exact Hd].
    intros c prefix Hc. now apply render_content_leaf_span.
  - rewrite depth_guard by lia. reflexivity.
Qed.

(** * The timeline's HTML highlighter (the Undergrad page)

    An earlier revision of the page renders the notes of the timeline with
    [dangerouslySetInnerHTML] and the local function [highlightBrackets],
    which rewrites the text with [String.prototype.replace]. *)

(** [/《([^》]+)》/g] *)
Definition highlightBracketsRegex : pattern :=
  matcher [Chr LBRACKET; Group (Plus notClose); Chr RBRACKET].

Definition QUOTE : code_unit := 34%N.

(** The replacement template
    [<span class=QUOTE text-red-600 font-bold QUOTE>《$1》</span>] expanded
    for a match: [$1] is the first capture, the empty string when it is
    undefined. *)
Definition substitution (m : list str) : str :=
  js "<span class=" ++ [QUOTE] ++ js "text-red-600 font-bold" ++ [QUOTE]
  ++ js ">" ++ [LBRACKET] ++ nullish_empty (nth_error m 1) ++ [RBRACKET]
  ++ js "</span>".

Lemma capture_match_nonempty s m :
  highlightBracketsRegex s = Some m -> 0 < length (nth 0 m []).
Proof.
  unfold highlightBracketsRegex, matcher.
  destruct s as [|c r]; [discriminate|]. cbn [run step].
  destruct (N.eqb c LBRACKET); [|discriminate].
  destruct (greedy _ _ r) as [[caps rest]|] eqn:E; [|discriminate].
  intros H; injection H as <-. cbn [nth].
  assert (Hlen : forall (k : cont) t caps rest,
             (forall u caps rest, k u = Some (caps, rest) ->
                                  length rest <= length u) ->
             greedy notClose k t = Some (caps, rest) ->
             length rest < length t).
  { intros k t. induction t as [|x t IH]; intros caps0 rest0 Hk; simpl;
      [discriminate|].
    destruct (notClose x); [|discriminate].
    destruct (greedy notClose k t) as [[c1 r1]|] eqn:G.
    - intros H; injection H as <- <-. specialize (IH _ _ Hk eq_refl). lia.
    - intros H. apply Hk in H. apply Nat.lt_succ_r. exact H. }
  apply Hlen in E.
  - rewrite length_firstn. change (length (c :: r)) with (S (length r)).
    destruct (length rest); lia.
  - intros u caps0 rest0. destruct u as [|y u]; [discriminate|].
    destruct (N.eqb y RBRACKET); [|discriminate].
    intros H; injection H as _ <-. simpl. lia.
Qed.

(** [text.replace(re, template)] for the global pattern above: the matches
    are found left to right from [lastIndex] 0; each one appends the text
    since the previous match and the expanded template; the text after the
    last match is appended at the end. *)
Equations? replaceLoop (text : str) (reLastIndex nextSourcePosition : nat)
    (accumulatedResult : str) : str by wf (length text + 1 - reLastIndex) lt :=
  replaceLoop text reLastIndex nextSourcePosition accumulatedResult
    with inspect (exec highlightBracketsRegex reLastIndex text) := {
    | exist _ (Some (position, m), reLastIndex') _ =>
        let matched := nth 0 m [] in
        let state :=
          if nextSourcePosition <=? position
          then (position + length matched,
                accumulatedResult
                  ++ slice text nextSourcePosition position
                  ++ substitution m)
          else (nextSourcePosition, accumulatedResult) in
        replaceLoop text reLastIndex' (fst state) (snd state)
    | exist _ (None, _) _ =>
        accumulatedResult ++ sliceFrom text nextSourcePosition }.
Proof.
  eapply exec_progress; [exact capture_match_nonempty | eassumption].
Qed.

(** [(text || '').replace(...)] *)
Definition highlightBrackets (text : option str) : str :=
  replaceLoop (or_empty text) 0 0 [].

(** A node written as HTML with its text copied as it is: a span with a
    string class becomes a [span] element around the text of its
    children. *)
Definition unescaped_html (n : node) : str :=
  match n with
  | Text value => value
  | Span _ (JString cls) children =>
      js "<span class=" ++ [QUOTE] ++ cls ++ [QUOTE] ++ js ">"
      ++ text_of children ++ js "</span>"
  | Span _ _ children => text_of children
  end.

Lemma replaceLoop_iter text reLastIndex next acc :
  replaceLoop text reLastIndex next acc =
  match exec highlightBracketsRegex reLastIndex text with
  | (Some (position, m), reLastIndex') =>
      if next <=? position
      then replaceLoop text reLastIndex' (position + length (nth 0 m []))
             (acc ++ slice text next position ++ substitution m)
      else replaceLoop text reLastIndex' next acc
  | (None, _) => acc ++ sliceFrom text next
  end.
Proof.
  rewrite replaceLoop_equation_1.
  destruct (inspect (exec highlightBracketsRegex reLastIndex text))
    as [[[[position m]|] r'] E];
    cbn [replaceLoop_unfold_clause_1]; rewrite E; [|reflexivity].
  cbv zeta. now destruct (next <=? position).
Qed.

(** The pattern with the capture group matches where the pattern of
    [renderBracketHighlights] does, and captures the run between the
    brackets. *)
Lemma capture_match_complete body rest :
  body <> [] -> mem RBRACKET body = false ->
  highlightBracketsRegex (highlight body ++ rest)
  = Some [highlight body; body].
Proof.
  intros Hne Hb. apply notClose_all in Hb.
  destruct body as [|x body]; [congruence|].
  unfold highlight. rewrite <- !app_assoc.
  change ([LBRACKET] ++ (x :: body) ++ [RBRACKET] ++ rest)
    with (LBRACKET :: ((x :: body) ++ RBRACKET :: rest)).
  unfold highlightBracketsRegex, matcher. cbn [run step].
  rewrite N.eqb_refl. rewrite greedy_whole_run.
  2:{ intros y t Hy. unfold notClose in Hy. apply negb_true_iff in Hy.
      now rewrite Hy. }
  rewrite (takeWhile_app notClose _ RBRACKET _ Hb eq_refl).
  rewrite (dropWhile_app notClose _ RBRACKET _ Hb eq_refl).
  rewrite N.eqb_refl. do 2 f_equal.
  - replace (LBRACKET :: (x :: body) ++ RBRACKET :: rest)
      with ((LBRACKET :: (x :: body) ++ [RBRACKET]) ++ rest)
      by (cbn [app]; now rewrite <- app_assoc).
    apply firstn_prefix.
  - f_equal. replace (length ((x :: body) ++ RBRACKET :: rest)
                      - length (RBRACKET :: rest))
      with (length (x :: body)) by (rewrite length_app; lia).
    apply firstn_app_exact.
Qed.

Lemma capture_match_none s :
  bracketHighlightRegex s = None -> highlightBracketsRegex s = None.
Proof.
  rewrite bracketHighlightRegex_closed_form.
  unfold highlightAt, highlightBracketsRegex, matcher.
  destruct s as [|c r]; [reflexivity|]. cbn [run step].
  destruct (N.eqb c LBRACKET); [|reflexivity].
  rewrite greedy_whole_run.
  2:{ intros y t Hy. unfold notClose in Hy. apply negb_true_iff in Hy.
      now rewrite Hy. }
  destruct (takeWhile notClose r) as [|x run]; [reflexivity|].
  destruct (dropWhile notClose r) as [|d rest] eqn:D; [reflexivity|].
  discriminate.
Qed.

Lemma no_highlight_none s : ~ starts_highlight s -> bracketHighlightRegex s = None.
Proof.
  intros H. destruct (bracketHighlightRegex s) as [m|] eqn:E; [|reflexivity].
  destruct (bracket_match_sound _ _ E) as (body & rest & Hne & Hb & -> & _).
  exfalso. apply H. now exists body, rest.
Qed.

Lemma unescaped_html_plain s : flat_map unescaped_html (plain s) = s.
Proof. destruct s; [reflexivity|]. simpl. now rewrite app_nil_r. Qed.

Lemma replaceLoop_pass keyPrefix i s nodes :
  bracket_pass RICH_TEXT_STYLES keyPrefix i s nodes ->
  forall text p acc,
    p <= length text -> skipn p text = s ->
    replaceLoop text p p acc = acc ++ flat_map unescaped_html nodes.
Proof.
  induction 1 as [i s Hnone|i gap body rest nodes Hgap Hne Hb _ IH];
    intros text p acc Hp Hs.
  - rewrite replaceLoop_iter, exec_none.
    + unfold sliceFrom. now rewrite Hs, unescaped_html_plain.
    + intros a b Hab. apply capture_match_none, no_highlight_none.
      apply (Hnone a b). now rewrite <- Hs.
  - rewrite replaceLoop_iter.
    rewrite (exec_found _ text p gap (highlight body ++ rest)
               [highlight body; body] Hp Hs).
    + destruct (Nat.leb_spec p (p + length gap)); [|lia].
      destruct (suffix_bounds text p gap _ Hp Hs) as (_ & _ & ->).
      pose proof (suffix_bounds text p (gap ++ highlight body) rest Hp) as Hb2.
      rewrite <- app_assoc in Hb2. destruct (Hb2 Hs) as (Hle & Hrest & _).
      rewrite length_app, Nat.add_assoc in Hle, Hrest.
      cbn [nth]. rewrite (IH text _ _ Hle Hrest).
      rewrite flat_map_app, unescaped_html_plain. cbn [flat_map].
      rewrite <- !app_assoc. do 2 f_equal.
      unfold substitution, mark_span, unescaped_html, highlight.
      cbn [nth_error nullish_empty text_of flat_map text_content].
      change (get RICH_TEXT_STYLES (js "mark"))
        with (JString (js "text-red-600 font-bold")).
      rewrite app_nil_r. now rewrite <- !app_assoc.
    + intros a x b Hab. apply capture_match_none, no_highlight_none.
      now apply (Hgap a x b).
    + now apply capture_match_complete.
Qed.

(** X3.  [highlightBrackets] marks exactly the runs that
    [renderBracketHighlights] returns as spans, with the class of the
    style [mark]: its result is the nodes of [renderBracketHighlights],
    under any key prefix, written as HTML with the text copied as it is;
    an undefined text counts as the empty string. *)
Theorem highlightBrackets_agrees_with_renderBracketHighlights
    (text : option str) (keyPrefix : str) :
  highlightBrackets text
  = flat_map unescaped_html
      (renderBracketHighlights RICH_TEXT_STYLES (or_empty text) keyPrefix).
Proof.
  unfold highlightBrackets.
  apply (replaceLoop_pass keyPrefix 0 (or_empty text) _
           (renderBracketHighlights_pass _ _ _) (or_empty text) 0 []).
  - lia.
  - reflexivity.
Qed.

(** X4.  A text without the closing bracket is returned unchanged by
    [highlightBrackets], whatever else it holds: markup in the text
    reaches the page as markup. *)
Theorem highlightBrackets_copies_unbracketed_text (text : str) :
  mem RBRACKET text = false ->
  highlightBrackets (Some text) = text.
Proof.
  intros H. unfold highlightBrackets.
  assert (Ho : or_empty (Some text) = text) by now destruct text.
  rewrite Ho, replaceLoop_iter, exec_none; [reflexivity|].
  intros a b Hab. apply capture_match_none.
  now apply (no_rbracket_no_highlight text H a b).
Qed.

Lemma highlightBrackets_copies_unbracketed_text_witness :
  mem RBRACKET (js "<b onclick=x()>" ++ [LBRACKET] ++ js "A</b>") = false
  /\ highlightBrackets (Some (js "<b onclick=x()>" ++ [LBRACKET] ++ js "A</b>"))
     = js "<b onclick=x()>" ++ [LBRACKET] ++ js "A</b>".
Proof.
  split; [reflexivity|].
  apply (highlightBrackets_copies_unbracketed_text
           (js "<b onclick=x()>" ++ [LBRACKET] ++ js "A</b>")).
  reflexivity.
Defined.

(** * The requirement excerpts (the Undergrad page)

    [splitRequirementExcerpt] cuts the excerpt of a requirement document
    into the text of the requirement and the text of the pathway; the page
    hands the first to [RichText]. *)

Definition LF : code_unit := 10%N.
Definition SPACE : code_unit := 32%N.
Definition HYPHEN : code_unit := 45%N.
Definition FULLWIDTH_COLON : code_unit := 65306%N.  (* U+FF1A *)

(** The two header words of the excerpts, 毕业要求 and 达成途径. *)
Definition REQUIREMENT_HEADER : str := [27605; 19994; 35201; 27714]%N.
Definition PATHWAY_HEADER : str := [36798; 25104; 36884; 24452]%N.

(** [s.split(sep)] for a separator of one code unit. *)
Fixpoint split (sep : code_unit) (s : str) : list str :=
  match s with
  | [] => [[]]
  | c :: t =>
      if N.eqb c sep then [] :: split sep t
      else match split sep t with
           | piece :: pieces => (c :: piece) :: pieces
           | [] => [[c]]
           end
  end.

(** [lines.join(sep)] *)
Fixpoint join (sep : str) (l : list str) : str :=
  match l with
  | [] => []
  | x :: r => match r with [] => x | _ :: _ => x ++ sep ++ join sep r end
  end.

(** [array.findIndex(p)]; [None] is -1. *)
Fixpoint findIndex {A} (p : A -> bool) (l : list A) : option nat :=
  match l with
  | [] => None
  | x :: t => if p x then Some 0 else option_map S (findIndex p t)
  end.

(** [array.slice(from, to)] on indices within the array. *)
Definition array_slice {A} (l : list A) (from to : nat) : list A :=
  firstn (to - from) (skipn from l).

(** [Boolean(s)] for a string. *)
Definition nonempty (s : str) : bool :=
  match s with [] => false | _ :: _ => true end.

(** [line.replace(/^-\s+/, '')]: the pattern is anchored at the start, so
    it is tried at position 0 only. *)
Definition stripBullet (line : str) : str :=
  match matcher [Chr HYPHEN; Plus isWhiteSpace] line with
  | Some m => skipn (length (nth 0 m [])) line
  | None => line
  end.

(** [new RegExp(`^${header}[:：]?$`).test(line.trim())] for a header
    that holds no pattern syntax, as the two headers of the source: the
    trimmed line is the header, followed by at most one colon of either
    width, and nothing else. *)
Definition isHeader (line header : str) : bool :=
  let t := trim line in
  prefixb header t
  && match skipn (length header) t with
     | [] => true
     | [c] => N.eqb c COLON || N.eqb c FULLWIDTH_COLON
     | _ => false
     end.

Definition notHeader (line : str) : bool :=
  negb (isHeader line REQUIREMENT_HEADER)
  && negb (isHeader line PATHWAY_HEADER).

Record excerpt_parts := { requirement : str; pathway : str }.

Definition splitRequirementExcerpt (excerpt : option str) : excerpt_parts :=
  let raw := trim (or_empty excerpt) in
  match raw with
  | [] => {| requirement := []; pathway := [] |}
  | _ :: _ =>
      let lines := filter nonempty (map trim (split LF raw)) in
      match lines with
      | [] => {| requirement := []; pathway := [] |}
      | first :: _ =>
          let requirementHeaderIndex :=
            findIndex (fun line => isHeader line REQUIREMENT_HEADER) lines in
          let pathwayHeaderIndex :=
            findIndex (fun line => isHeader line PATHWAY_HEADER) lines in
          match requirementHeaderIndex with
          | Some requirementHeaderIndex =>
              let requirementStart := requirementHeaderIndex + 1 in
              let requirementEnd :=
                match pathwayHeaderIndex with
                | Some i => if requirementHeaderIndex <? i then i
                            else length lines
                | None => length lines
                end in
              {| requirement :=
                   trim (join [SPACE]
                     (map stripBullet
                        (filter notHeader
                           (array_slice lines requirementStart requirementEnd))));
                 pathway :=
                   match pathwayHeaderIndex with
                   | Some i =>
                       trim (join [SPACE]
                         (map stripBullet
                            (filter notHeader (skipn (i + 1) lines))))
                   | None => []
                   end |}
          | None =>
              {| requirement := stripBullet first;
                 pathway := join [SPACE] (map stripBullet (skipn 1 lines)) |}
          end
      end
  end.

(** ** Notions used to state the properties *)

(** A bullet line of an excerpt. *)
Definition bullet (item : str) : str := [HYPHEN; SPACE] ++ item.

(** A text that begins and ends with a code unit that is not white
    space. *)
Definition trimmed (s : str) : bool :=
  match s, rev s with
  | x :: _, y :: _ => negb (isWhiteSpace x) && negb (isWhiteSpace y)
  | _, _ => false
  end.

(** A line of a document: trimmed and without a line feed. *)
Definition one_line (s : str) : bool := trimmed s && negb (mem LF s).

(** A header line: the header word, alone or with a colon of either
    width. *)
Definition header_line (header line : str) : bool :=
  str_eqb line header || str_eqb line (header ++ [COLON])
  || str_eqb line (header ++ [FULLWIDTH_COLON]).

(** ** Lines *)

Lemma mem_In c s : mem c s = true <-> In c s.
Proof.
  unfold mem. rewrite existsb_exists. split.
  - intros (x & Hin & Hx). now apply N.eqb_eq in Hx as ->.
  - intros H. exists c. split; [exact H | apply N.eqb_refl].
Qed.

Lemma mem_false c s : mem c s = false <-> ~ In c s.
Proof.
  rewrite <- mem_In. destruct (mem c s); split; congruence.
Qed.

Lemma In_dropWhile {A} (p : A -> bool) l x : In x (dropWhile p l) -> In x l.
Proof.
  induction l as [|y l IH]; simpl; [tauto|].
  destruct (p y); [auto | simpl; tauto].
Qed.

Lemma In_trim x s : In x (trim s) -> In x s.
Proof.
  unfold trim. intros H. apply in_rev, In_dropWhile in H.
  apply in_rev in H. now apply In_dropWhile in H.
Qed.

Lemma In_skipn_inv {A} n (l : list A) x : In x (skipn n l) -> In x l.
Proof.
  intros H. rewrite <- (firstn_skipn n l). apply in_or_app. now right.
Qed.

Lemma In_firstn_inv {A} n (l : list A) x : In x (firstn n l) -> In x l.
Proof.
  intros H. rewrite <- (firstn_skipn n l). apply in_or_app. now left.
Qed.

Lemma In_stripBullet x line : In x (stripBullet line) -> In x line.
Proof.
  unfold stripBullet. destruct (matcher _ line); [|auto].
  apply In_skipn_inv.
Qed.

Lemma In_join x sep ls :
  In x (join sep ls) -> In x sep \/ exists l, In l ls /\ In x l.
Proof.
  induction ls as [|l ls IH]; simpl; [tauto|].
  destruct ls as [|l' ls].
  - intros H. right. exists l. auto.
  - intros H. apply in_app_or in H as [H|H].
    + right. exists l. auto.
    + apply in_app_or in H as [H|H]; [now left|].
      destruct (IH H) as [Hs|(l0 & Hin & Hx)]; [now left|].
      right. exists l0. split; [now right | exact Hx].
Qed.

Lemma split_no_sep sep s : Forall (fun piece => ~ In sep piece) (split sep s).
Proof.
  induction s as [|c t IH]; simpl.
  - constructor; [intros [] | constructor].
  - destruct (N.eqb_spec c sep) as [->|Hc].
    + constructor; [intros [] | exact IH].
    + destruct (split sep t) as [|piece pieces].
      * constructor; [|constructor]. intros [H|[]]. congruence.
      * inversion IH as [|? ? Hp Hps]; subst. constructor; [|exact Hps].
        intros [H|H]; [congruence | now apply Hp].
Qed.

Lemma split_piece sep l :
  ~ In sep l -> split sep l = [l].
Proof.
  induction l as [|c l IH]; simpl; [reflexivity|]. intros H.
  destruct (N.eqb_spec c sep) as [->|Hc]; [exfalso; apply H; now left|].
  rewrite IH; [reflexivity|]. intros Hin. apply H. now right.
Qed.

Lemma split_app sep l rest :
  ~ In sep l -> split sep (l ++ sep :: rest) = l :: split sep rest.
Proof.
  induction l as [|c l IH]; simpl; intros H.
  - now rewrite N.eqb_refl.
  - destruct (N.eqb_spec c sep) as [->|Hc]; [exfalso; apply H; now left|].
    rewrite IH; [reflexivity|]. intros Hin. apply H. now right.
Qed.

(** Splitting what was joined with line feeds gives the lines back. *)
Lemma split_join ls :
  ls <> [] -> Forall (fun l => ~ In LF l) ls ->
  split LF (join [LF] ls) = ls.
Proof.
  induction ls as [|l ls IH]; [congruence|]. intros _ H.
  inversion H as [|? ? Hl Hls]; subst. destruct ls as [|l' ls].
  - simpl. now apply split_piece.
  - change (join [LF] (l :: l' :: ls)) with (l ++ LF :: join [LF] (l' :: ls)).
    rewrite split_app by exact Hl. f_equal. apply IH; [discriminate|exact Hls].
Qed.

Lemma trim_trimmed s : trimmed s = true -> trim s = s.
Proof.
  unfold trimmed, trim. destruct s as [|x t]; [discriminate|].
  destruct (rev (x :: t)) as [|y u] eqn:E; [discriminate|]. intros H.
  apply andb_prop in H as [Hx Hy].
  apply negb_true_iff in Hx, Hy. cbn [dropWhile]. rewrite Hx, E.
  cbn [dropWhile]. rewrite Hy, <- E. apply rev_involutive.
Qed.

Lemma trimmed_app a m b :
  trimmed a = true -> trimmed b = true -> trimmed (a ++ m ++ b) = true.
Proof.
  unfold trimmed. destruct a as [|x a]; [discriminate|].
  destruct b as [|z b]; [discriminate|].
  cbn [app]. change (x :: a ++ m ++ z :: b) with ((x :: a) ++ m ++ z :: b).
  rewrite !rev_app_distr.
  destruct (rev (x :: a)) as [|y1 u1]; [discriminate|].
  destruct (rev (z :: b)) as [|y2 u2]; [discriminate|].
  cbn [app]. intros H1 H2.
  apply andb_prop in H1 as [-> _]. now apply andb_prop in H2 as [_ ->].
Qed.

Lemma trimmed_join sep l ls :
  forallb trimmed (l :: ls) = true -> trimmed (join sep (l :: ls)) = true.
Proof.
  revert l; induction ls as [|l' ls IH]; intros l H.
  - simpl in *. now rewrite andb_true_r in H.
  - cbn [forallb] in H. apply andb_prop in H as [Hl H].
    change (join sep (l :: l' :: ls)) with (l ++ sep ++ join sep (l' :: ls)).
    apply trimmed_app; [exact Hl | now apply IH].
Qed.

Lemma trimmed_nonempty s : trimmed s = true -> nonempty s = true.
Proof. now destruct s. Qed.

Lemma one_line_trimmed s : one_line s = true -> trimmed s = true.
Proof. unfold one_line. intros H. now apply andb_prop in H as [-> _]. Qed.

Lemma one_line_no_LF s : one_line s = true -> ~ In LF s.
Proof.
  unfold one_line. intros H. apply andb_prop in H as [_ H].
  apply negb_true_iff in H. now apply mem_false.
Qed.

(** A document made of lines: trimming changes nothing and the lines the
    function works on are the lines of the document. *)
Lemma document_lines l ls :
  forallb one_line (l :: ls) = true ->
  trim (or_empty (Some (join [LF] (l :: ls)))) = join [LF] (l :: ls)
  /\ join [LF] (l :: ls) <> []
  /\ filter nonempty (map trim (split LF (join [LF] (l :: ls)))) = l :: ls.
Proof.
  intros H.
  assert (Ht : forallb trimmed (l :: ls) = true).
  { apply forallb_forall. intros x Hx. apply one_line_trimmed.
    revert x Hx. now apply forallb_forall. }
  pose proof (trimmed_join [LF] l ls Ht) as Hj.
  assert (Hne : join [LF] (l :: ls) <> []).
  { intros E. rewrite E in Hj. discriminate. }
  split; [|split; [exact Hne|]].
  - destruct (join [LF] (l :: ls)) eqn:E; [congruence|].
    cbn [or_empty]. now apply trim_trimmed.
  - rewrite split_join; [|discriminate|].
    + assert (Hm : forall xs, forallb trimmed xs = true ->
                     filter nonempty (map trim xs) = xs).
      { induction xs as [|x xs IHx]; [reflexivity|]. cbn [forallb map filter].
        intros Hx. apply andb_prop in Hx as [Hx Hxs].
        rewrite (trim_trimmed x Hx), (trimmed_nonempty x Hx).
        now rewrite IHx. }
      now apply Hm.
    + apply Forall_forall. intros x Hx. apply one_line_no_LF.
      revert x Hx. now apply forallb_forall.
Qed.

(** ** Bullets and headers *)

Lemma trimmed_bullet item : trimmed item = true -> trimmed (bullet item) = true.
Proof.
  unfold bullet. intros H.
  change ([HYPHEN; SPACE] ++ item) with ([HYPHEN] ++ [SPACE] ++ item).
  now apply trimmed_app.
Qed.

Lemma one_line_bullet item : one_line item = true -> one_line (bullet item) = true.
Proof.
  unfold one_line. intros H. apply andb_prop in H as [Ht Hl].
  rewrite (trimmed_bullet item Ht). unfold bullet, mem in *. cbn.
  exact Hl.
Qed.

Lemma stripBullet_bullet item :
  trimmed item = true -> stripBullet (bullet item) = item.
Proof.
  unfold trimmed. destruct item as [|x t]; [discriminate|].
  destruct (rev (x :: t)); [discriminate|]. intros H.
  apply andb_prop in H as [Hx _]. apply negb_true_iff in Hx.
  unfold stripBullet, bullet, matcher. cbn [app run step greedy].
  change (N.eqb HYPHEN HYPHEN) with true.
  change (isWhiteSpace SPACE) with true. cbv iota. rewrite Hx.
  change (HYPHEN :: SPACE :: x :: t) with ([HYPHEN; SPACE] ++ x :: t).
  rewrite firstn_prefix. reflexivity.
Qed.

Lemma isHeader_bullet item header c h :
  trimmed item = true -> header = c :: h -> N.eqb HYPHEN c = false ->
  isHeader (bullet item) header = false.
Proof.
  intros Ht -> Hc. unfold isHeader.
  rewrite (trim_trimmed _ (trimmed_bullet item Ht)).
  unfold bullet. cbn [app prefixb]. now rewrite Hc.
Qed.

Lemma notHeader_bullet item :
  trimmed item = true -> notHeader (bullet item) = true.
Proof.
  intros Ht. unfold notHeader.
  rewrite (isHeader_bullet item REQUIREMENT_HEADER _ _ Ht eq_refl eq_refl).
  rewrite (isHeader_bullet item PATHWAY_HEADER _ _ Ht eq_refl eq_refl).
  reflexivity.
Qed.

Lemma header_line_cases header line :
  header_line header line = true ->
  line = header \/ line = header ++ [COLON]
  \/ line = header ++ [FULLWIDTH_COLON].
Proof.
  unfold header_line. intros H.
  apply orb_prop in H as [H|H]; [apply orb_prop in H as [H|H]|];
    apply str_eqb_eq in H; auto.
Qed.

Lemma requirement_header_line h :
  header_line REQUIREMENT_HEADER h = true ->
  isHeader h REQUIREMENT_HEADER = true /\ isHeader h PATHWAY_HEADER = false
  /\ notHeader h = false /\ one_line h = true.
Proof.
  intros H. destruct (header_line_cases _ _ H) as [->|[->| ->]];
    repeat split; reflexivity.
Qed.

Lemma pathway_header_line h :
  header_line PATHWAY_HEADER h = true ->
  isHeader h PATHWAY_HEADER = true /\ isHeader h REQUIREMENT_HEADER = false
  /\ notHeader h = false /\ one_line h = true.
Proof.
  intros H. destruct (header_line_cases _ _ H) as [->|[->| ->]];
    repeat split; reflexivity.
Qed.

Lemma bullets_one_line items :
  forallb one_line items = true -> forallb one_line (map bullet items) = true.
Proof.
  induction items as [|x xs IH]; [reflexivity|]. cbn [forallb map].
  intros H. apply andb_prop in H as [Hx Hxs].
  now rewrite (one_line_bullet x Hx), IH.
Qed.

Lemma bullets_body items :
  forallb one_line items = true ->
  map stripBullet (filter notHeader (map bullet items)) = items.
Proof.
  induction items as [|x xs IH]; [reflexivity|]. cbn [forallb map filter].
  intros H. apply andb_prop in H as [Hx Hxs].
  apply one_line_trimmed in Hx.
  rewrite (notHeader_bullet x Hx). cbn [map].
  now rewrite (stripBullet_bullet x Hx), IH.
Qed.

Lemma findIndex_bullets header c h items :
  header = c :: h -> N.eqb HYPHEN c = false ->
  forallb one_line items = true ->
  forall rest,
    findIndex (fun line => isHeader line header) (map bullet items ++ rest)
    = option_map (Nat.add (length items))
        (findIndex (fun line => isHeader line header) rest).
Proof.
  intros Hh Hc Hi rest. induction items as [|x xs IH].
  - simpl. now destruct (findIndex _ rest).
  - cbn [forallb] in Hi. apply andb_prop in Hi as [Hx Hxs].
    cbn [map app findIndex].
    rewrite (isHeader_bullet x header c h (one_line_trimmed x Hx) Hh Hc).
    rewrite (IH Hxs). now destruct (findIndex _ rest).
Qed.

Lemma trim_join_items items :
  forallb one_line items = true ->
  trim (join [SPACE] items) = join [SPACE] items.
Proof.
  destruct items as [|x xs]; [reflexivity|]. intros H.
  apply trim_trimmed, trimmed_join, forallb_forall. intros y Hy.
  apply one_line_trimmed. revert y Hy. now apply forallb_forall.
Qed.

Lemma findIndex_none {A} (p : A -> bool) l :
  forallb (fun x => negb (p x)) l = true -> findIndex p l = None.
Proof.
  induction l as [|x l IH]; [reflexivity|]. cbn [forallb findIndex].
  intros H. apply andb_prop in H as [Hx Hl].
  apply negb_true_iff in Hx. now rewrite Hx, IH.
Qed.

(** ** No line feed in the results *)

Lemma lines_no_LF raw :
  Forall (fun l => ~ In LF l) (filter nonempty (map trim (split LF raw))).
Proof.
  apply Forall_forall. intros l Hl. apply filter_In in Hl as [Hl _].
  apply in_map_iff in Hl as (piece & <- & Hp). intros H. apply In_trim in H.
  pose proof (split_no_sep LF raw) as Hs.
  rewrite Forall_forall in Hs. now apply (Hs piece Hp).
Qed.

Lemma body_no_LF lines :
  Forall (fun l => ~ In LF l) lines ->
  ~ In LF (join [SPACE] (map stripBullet lines)).
Proof.
  intros H Hin. rewrite Forall_forall in H.
  apply In_join in Hin as [[Hin|[]]|(l & Hl & Hin)]; [discriminate|].
  apply in_map_iff in Hl as (line & <- & Hline).
  apply In_stripBullet in Hin. now apply (H line Hline).
Qed.

Lemma Forall_sub {A} (P : A -> Prop) (l l' : list A) :
  (forall x, In x l' -> In x l) -> Forall P l -> Forall P l'.
Proof.
  intros Hsub H. rewrite Forall_forall in *. auto.
Qed.

(** X5.  An excerpt that is undefined, empty or made of white space only
    gives an empty requirement and an empty pathway. *)
Theorem blank_excerpt_gives_empty_parts (excerpt : option str) :
  forallb isWhiteSpace (or_empty excerpt) = true ->
  splitRequirementExcerpt excerpt = {| requirement := []; pathway := [] |}.
Proof.
  intros H. unfold splitRequirementExcerpt.
  assert (E : trim (or_empty excerpt) = []).
  { unfold trim.
    assert (Hd : forall l, forallb isWhiteSpace l = true ->
                           dropWhile isWhiteSpace l = []).
    { induction l as [|x l IH]; [reflexivity|]. simpl. intros Hl.
      apply andb_prop in Hl as [-> Hl]. now apply IH. }
    now rewrite (Hd _ H). }
  now rewrite E.
Qed.

Lemma blank_excerpt_gives_empty_parts_witness :
  forallb isWhiteSpace (or_empty (Some [SPACE; LF; 9%N; SPACE])) = true
  /\ splitRequirementExcerpt (Some [SPACE; LF; 9%N; SPACE])
     = {| requirement := []; pathway := [] |}.
Proof.
  split; [reflexivity|].
  apply (blank_excerpt_gives_empty_parts (Some [SPACE; LF; 9%N; SPACE])).
  reflexivity.
Defined.

(** X6.  Neither part returned by [splitRequirementExcerpt] holds a line
    feed, whatever the excerpt: the lines are joined with single
    spaces. *)
Theorem excerpt_parts_hold_no_line_feed (excerpt : option str) :
  mem LF (requirement (splitRequirementExcerpt excerpt)) = false
  /\ mem LF (pathway (splitRequirementExcerpt excerpt)) = false.
Proof.
  unfold splitRequirementExcerpt.
  destruct (trim (or_empty excerpt)) as [|c raw]; [now split|].
  pose proof (lines_no_LF (c :: raw)) as Hl.
  set (lines := filter nonempty (map trim (split LF (c :: raw)))) in *.
  destruct lines as [|first rest] eqn:E; [now split|]. rewrite <- E in *.
  assert (Hbody : forall sub, (forall x, In x sub -> In x lines) ->
            mem LF (trim (join [SPACE] (map stripBullet (filter notHeader sub))))
            = false).
  { intros sub Hsub. apply mem_false. intros H. apply In_trim in H.
    revert H. apply body_no_LF. apply (Forall_sub _ lines); [|exact Hl].
    intros x Hx. apply filter_In in Hx as [Hx _]. auto. }
  destruct (findIndex _ lines) as [ri|]; cbn [requirement pathway].
  - split.
    + apply Hbody. unfold array_slice. intros x Hx.
      now apply In_firstn_inv, In_skipn_inv in Hx.
    + destruct (findIndex _ lines) as [i|]; [|reflexivity].
      apply Hbody. intros x Hx. now apply In_skipn_inv in Hx.
  - split.
    + apply mem_false. intros H. apply In_stripBullet in H.
      rewrite Forall_forall in Hl. apply (Hl first); [|exact H].
      rewrite E. now left.
    + apply mem_false. apply body_no_LF. apply (Forall_sub _ lines); [|exact Hl].
      intros x Hx. now apply In_skipn_inv in Hx.
Qed.

(** The lines of an excerpt in the expected layout that go to each
    part. *)
Lemma structured_excerpt_lines (h1 h2 : str) (rs ps : list str) :
  header_line REQUIREMENT_HEADER h1 = true ->
  header_line PATHWAY_HEADER h2 = true ->
  forallb one_line (rs ++ ps) = true ->
  splitRequirementExcerpt
    (Some (join [LF] ((h1 :: map bullet rs) ++ h2 :: map bullet ps)))
  = {| requirement :=
         trim (join [SPACE]
                 (map stripBullet (filter notHeader (map bullet rs))));
       pathway :=
         trim (join [SPACE]
                 (map stripBullet (filter notHeader (map bullet ps)))) |}.
Proof.
  intros H1 H2 Hi. rewrite forallb_app in Hi. apply andb_prop in Hi as [Hr Hp].
  destruct (requirement_header_line h1 H1) as (H1r & H1p & H1n & H1l).
  destruct (pathway_header_line h2 H2) as (H2p & H2r & H2n & H2l).
  cbn [app].
  assert (Hl : forallb one_line (h1 :: map bullet rs ++ h2 :: map bullet ps)
               = true).
  { cbn [forallb]. rewrite H1l, forallb_app, (bullets_one_line rs Hr).
    cbn [forallb]. now rewrite H2l, (bullets_one_line ps Hp). }
  destruct (document_lines _ _ Hl) as (Hraw & Hne & Hlines).
  unfold splitRequirementExcerpt. rewrite Hraw.
  destruct (join [LF] (h1 :: map bullet rs ++ h2 :: map bullet ps)) eqn:Ej;
    [congruence|]. rewrite <- Ej in Hlines |- *. rewrite Hlines. clear Ej.
  cbn [findIndex]. rewrite H1r, H1p.
  rewrite (findIndex_bullets PATHWAY_HEADER _ _ rs eq_refl eq_refl Hr).
  cbn [findIndex]. rewrite H2p. cbn [option_map].
  rewrite Nat.add_0_r. cbn [Nat.ltb Nat.leb Nat.add].
  unfold array_slice. cbn [skipn].
  replace (S (length rs) - 1) with (length (map bullet rs))
    by (rewrite length_map; lia).
  rewrite firstn_app_exact.
  replace (skipn (length rs + 1) (map bullet rs ++ h2 :: map bullet ps))
    with (map bullet ps); [reflexivity|].
  rewrite <- (length_map bullet rs), Nat.add_1_r.
  change (h2 :: map bullet ps) with ([h2] ++ map bullet ps).
  rewrite app_assoc.
  replace (S (length (map bullet rs)))
    with (length (map bullet rs ++ [h2]))
    by (rewrite length_app; simpl; lia).
  now rewrite skipn_app_exact.
Qed.

(** X7.  An excerpt in the expected layout is read back: a requirement
    header line, the requirement as bullet lines, a pathway header line and
    the pathway as bullet lines (each header with or without a colon of
    either width, each bullet item trimmed and on one line) give the
    requirement items joined by single spaces and the pathway items joined
    by single spaces. *)
Theorem structured_excerpt_is_read_back (h1 h2 : str) (rs ps : list str) :
  header_line REQUIREMENT_HEADER h1 = true ->
  header_line PATHWAY_HEADER h2 = true ->
  forallb one_line (rs ++ ps) = true ->
  splitRequirementExcerpt
    (Some (join [LF] ((h1 :: map bullet rs) ++ h2 :: map bullet ps)))
  = {| requirement := join [SPACE] rs; pathway := join [SPACE] ps |}.
Proof.
  intros H1 H2 Hi. rewrite (structured_excerpt_lines h1 h2 rs ps H1 H2 Hi).
  rewrite forallb_app in Hi. apply andb_prop in Hi as [Hr Hp].
  rewrite (bullets_body rs Hr), (bullets_body ps Hp).
  now rewrite (trim_join_items rs Hr), (trim_join_items ps Hp).
Qed.

Lemma structured_excerpt_is_read_back_witness :
  let h1 := REQUIREMENT_HEADER ++ [FULLWIDTH_COLON] in
  let h2 := PATHWAY_HEADER in
  let rs := [js "pass all courses"; js "150 credits"] in
  let ps := [js "see the handbook"] in
  header_line REQUIREMENT_HEADER h1 = true
  /\ header_line PATHWAY_HEADER h2 = true
  /\ forallb one_line (rs ++ ps) = true
  /\ splitRequirementExcerpt
       (Some (join [LF] ((h1 :: map bullet rs) ++ h2 :: map bullet ps)))
     = {| requirement := js "pass all courses 150 credits";
          pathway := js "see the handbook" |}.
Proof.
  cbv zeta. split; [reflexivity|]. split; [reflexivity|].
  split; [reflexivity|].
  apply (structured_excerpt_is_read_back
           (REQUIREMENT_HEADER ++ [FULLWIDTH_COLON]) PATHWAY_HEADER
           [js "pass all courses"; js "150 credits"]
           [js "see the handbook"]); reflexivity.
Defined.

(** X8.  When the pathway header comes before the requirement header, the
    requirement is still read from the lines after its header, and the
    pathway takes every bullet line after the pathway header, those of the
    requirement included. *)
Theorem pathway_first_excerpt_repeats_requirement (h1 h2 : str)
    (rs ps : list str) :
  header_line REQUIREMENT_HEADER h1 = true ->
  header_line PATHWAY_HEADER h2 = true ->
  forallb one_line (ps ++ rs) = true ->
  splitRequirementExcerpt
    (Some (join [LF] ((h2 :: map bullet ps) ++ h1 :: map bullet rs)))
  = {| requirement := join [SPACE] rs; pathway := join [SPACE] (ps ++ rs) |}.
Proof.
  intros H1 H2 Hi. pose proof Hi as Hall.
  rewrite forallb_app in Hi. apply andb_prop in Hi as [Hp Hr].
  destruct (requirement_header_line h1 H1) as (H1r & H1p & H1n & H1l).
  destruct (pathway_header_line h2 H2) as (H2p & H2r & H2n & H2l).
  cbn [app].
  assert (Hl : forallb one_line (h2 :: map bullet ps ++ h1 :: map bullet rs)
               = true).
  { cbn [forallb]. rewrite H2l, forallb_app, (bullets_one_line ps Hp).
    cbn [forallb]. now rewrite H1l, (bullets_one_line rs Hr). }
  destruct (document_lines _ _ Hl) as (Hraw & Hne & Hlines).
  unfold splitRequirementExcerpt. rewrite Hraw.
  destruct (join [LF] (h2 :: map bullet ps ++ h1 :: map bullet rs)) eqn:Ej;
    [congruence|]. rewrite <- Ej in Hlines |- *. rewrite Hlines. clear Ej.
  cbn [findIndex]. rewrite H2r, H2p.
  rewrite (findIndex_bullets REQUIREMENT_HEADER _ _ ps eq_refl eq_refl Hp).
  cbn [findIndex]. rewrite H1r. cbn [option_map].
  rewrite Nat.add_0_r. cbn [Nat.ltb Nat.leb Nat.add skipn].
  unfold array_slice.
  replace (skipn (S (length ps + 1)) (h2 :: map bullet ps ++ h1 :: map bullet rs))
    with (map bullet rs).
  2:{ rewrite Nat.add_1_r, skipn_cons.
      rewrite <- (length_map bullet ps).
      change (h1 :: map bullet rs) with ([h1] ++ map bullet rs).
      rewrite app_assoc.
      replace (S (length (map bullet ps)))
        with (length (map bullet ps ++ [h1]))
        by (rewrite length_app; simpl; lia).
      now rewrite skipn_app_exact. }
  rewrite firstn_all2
    by (cbn [length]; rewrite length_app; cbn [length];
        rewrite !length_map; lia).
  rewrite (bullets_body rs Hr), (trim_join_items rs Hr). f_equal.
  rewrite filter_app, map_app. cbn [filter]. rewrite H1n.
  rewrite <- map_app, <- filter_app, <- map_app.
  now rewrite (bullets_body _ Hall), (trim_join_items _ Hall).
Qed.

Lemma pathway_first_excerpt_repeats_requirement_witness :
  let h1 := REQUIREMENT_HEADER in
  let h2 := PATHWAY_HEADER ++ [COLON] in
  let rs := [js "150 credits"] in
  let ps := [js "see the handbook"] in
  header_line REQUIREMENT_HEADER h1 = true
  /\ header_line PATHWAY_HEADER h2 = true
  /\ forallb one_line (ps ++ rs) = true
  /\ splitRequirementExcerpt
       (Some (join [LF] ((h2 :: map bullet ps) ++ h1 :: map bullet rs)))
     = {| requirement := js "150 credits";
          pathway := js "see the handbook 150 credits" |}.
Proof.
  cbv zeta. split; [reflexivity|]. split; [reflexivity|].
  split; [reflexivity|].
  apply (pathway_first_excerpt_repeats_requirement
           REQUIREMENT_HEADER (PATHWAY_HEADER ++ [COLON])
           [js "150 credits"] [js "see the handbook"]); reflexivity.
Defined.

(** X9.  Without a requirement header the first line is the requirement
    and the other lines, joined by single spaces, are the pathway, each
    line without its bullet; a pathway header among them is kept as
    text. *)
Theorem headerless_excerpt_splits_at_first_line (first : str)
    (others : list str) :
  forallb one_line (first :: others) = true ->
  forallb (fun line => negb (isHeader line REQUIREMENT_HEADER))
          (first :: others) = true ->
  splitRequirementExcerpt (Some (join [LF] (first :: others)))
  = {| requirement := stripBullet first;
       pathway := join [SPACE] (map stripBullet others) |}.
Proof.
  intros Hl Hn.
  destruct (document_lines _ _ Hl) as (Hraw & Hne & Hlines).
  unfold splitRequirementExcerpt. rewrite Hraw.
  destruct (join [LF] (first :: others)) eqn:Ej; [congruence|].
  rewrite <- Ej in Hlines |- *. rewrite Hlines. clear Ej.
  now rewrite (findIndex_none _ _ Hn).
Qed.

Lemma headerless_excerpt_splits_at_first_line_witness :
  let first := js "- 150 credits" in
  let others := [PATHWAY_HEADER ++ [FULLWIDTH_COLON]; js "-  handbook"] in
  forallb one_line (first :: others) = true
  /\ forallb (fun line => negb (isHeader line REQUIREMENT_HEADER))
             (first :: others) = true
  /\ splitRequirementExcerpt (Some (join [LF] (first :: others)))
     = {| requirement := js "150 credits";
          pathway := PATHWAY_HEADER ++ [FULLWIDTH_COLON] ++ js " handbook" |}.
Proof.
  cbv zeta. split; [reflexivity|]. split; [reflexivity|].
  apply (headerless_excerpt_splits_at_first_line
           (js "- 150 credits")
           [PATHWAY_HEADER ++ [FULLWIDTH_COLON]; js "-  handbook"]);
    reflexivity.
Defined.

(** * The requirement cards and the timeline (the Undergrad page) *)

(** ** The cells of a requirement card

    [renderRequirements] shows each part of the excerpt with
    [<RichText text={part || fallback} />]. *)

(** The fallback text 点击查看详细要求与认定方式。 *)
Definition FALLBACK_TEXT : str :=
  [28857; 20987; 26597; 30475; 35814; 32454; 35201; 27714; 19982; 35748;
   23450; 26041; 24335; 12290]%N.

(** [a || b] for two strings. *)
Definition or_else (a b : str) : str :=
  match a with [] => b | _ :: _ => a end.

Definition requirementCell (excerpt : option str) : option (list node) :=
  RichText RICH_TEXT_STYLES
    (Some (or_else (requirement (splitRequirementExcerpt excerpt))
                   FALLBACK_TEXT)).

Definition pathwayCell (excerpt : option str) : option (list node) :=
  RichText RICH_TEXT_STYLES
    (Some (or_else (pathway (splitRequirementExcerpt excerpt))
                   FALLBACK_TEXT)).

(** ** The modules of the summary *)

Module SummaryModule.
Record t := { key : str; title : str; file : str; tags : option (list str) }.
End SummaryModule.

(** A [Map] with string keys: its entries in insertion order. *)
Section JsMap.

Variable V : Type.

Definition Map := list (str * V).

Definition Map_has (m : Map) (k : str) : bool :=
  existsb (fun e => str_eqb (fst e) k) m.

(** [map.set(k, v)]: the value of an existing key is replaced in place, a
    new key is added at the end. *)
Fixpoint Map_set (m : Map) (k : str) (v : V) : Map :=
  match m with
  | [] => [(k, v)]
  | (k', v') :: r =>
      if str_eqb k' k then (k', v) :: r else (k', v') :: Map_set r k v
  end.

Definition Map_values (m : Map) : list V := map snd m.

End JsMap.

Arguments Map_has {V} m k.
Arguments Map_set {V} m k v.
Arguments Map_values {V} m.

(** [modules] is [summary?.modules]: [None] when the summary or its
    modules are missing, and then nothing is visited. *)
Definition uniqueModules (modules : option (list SummaryModule.t))
  : list SummaryModule.t :=
  Map_values
    (fold_left
       (fun map m =>
          if negb (Map_has map (SummaryModule.key m))
          then Map_set map (SummaryModule.key m) m
          else map)
       (match modules with Some l => l | None => [] end)
       []).

(** ** The axis of the timeline *)

Module TimelineAxis.
Record t := { id : str; date : str; label : str;
              note : option str; link : option str }.
End TimelineAxis.

(** [filteredAxis[filteredAxis.findIndex(a => a.id === axisDef.id) + 1]]:
    an index that is not found is -1, and the element read is then the
    one at index 0. *)
Definition nextAxis (filteredAxis : list TimelineAxis.t)
    (axisDef : TimelineAxis.t) : option TimelineAxis.t :=
  match findIndex (fun a => str_eqb (TimelineAxis.id a) (TimelineAxis.id axisDef))
                  filteredAxis with
  | Some i => nth_error filteredAxis (i + 1)
  | None => nth_error filteredAxis 0
  end.

(** * The experience list (hooks/useContent) *)

Module Experience.
Record t := { title : str; author : str; year : str; date : str;
              excerpt : str; tags : list str; category : str; file : str;
              link : option str }.
End Experience.

(** The category names 全部 and 通知. *)
Definition ALL_CATEGORIES : str := [20840; 37096]%N.
Definition NOTICES : str := [36890; 30693]%N.

Definition getFilteredExperiences (experiences : list Experience.t)
    (category : str) : list Experience.t :=
  if str_eqb category ALL_CATEGORIES then experiences
  else
    let actualCategory :=
      if str_eqb category NOTICES then js "announcements" else category in
    filter (fun exp => str_eqb (Experience.category exp) actualCategory)
           experiences.

(** ** Properties *)

Lemma or_else_nonempty a b : b <> [] -> or_else a b <> [].
Proof. destruct a; simpl; [auto | discriminate]. Qed.

(** X10.  The two cells of a requirement card never render [null]:
    whatever the excerpt, [RichText] gets a text that is not empty (the
    part, or the fallback text when the part is empty) and returns a
    fragment. *)
Theorem requirement_cells_always_render (excerpt : option str) :
  requirementCell excerpt <> None /\ pathwayCell excerpt <> None.
Proof.
  unfold requirementCell, pathwayCell, RichText. split.
  - pose proof (or_else_nonempty
                  (requirement (splitRequirementExcerpt excerpt))
                  FALLBACK_TEXT) as H.
    destruct (or_else _ _); [|discriminate].
    exfalso. apply H; [discriminate | reflexivity].
  - pose proof (or_else_nonempty
                  (pathway (splitRequirementExcerpt excerpt))
                  FALLBACK_TEXT) as H.
    destruct (or_else _ _); [|discriminate].
    exfalso. apply H; [discriminate | reflexivity].
Qed.

(** X11.  For an excerpt in the expected layout whose requirement items
    hold no [}}], the requirement cell shows the items joined by single
    spaces: the cell is the interpreter's rendering of the joined items,
    and the text of that rendering is the joined items. *)
Theorem requirement_cell_shows_items (h1 h2 : str) (rs ps : list str) :
  header_line REQUIREMENT_HEADER h1 = true ->
  header_line PATHWAY_HEADER h2 = true ->
  forallb one_line (rs ++ ps) = true ->
  rs <> [] ->
  contains CLOSE (join [SPACE] rs) = false ->
  requirementCell
    (Some (join [LF] ((h1 :: map bullet rs) ++ h2 :: map bullet ps)))
  = Some (interpret (Some (join [SPACE] rs)))
  /\ text_of (interpret (Some (join [SPACE] rs))) = join [SPACE] rs.
Proof.
  intros H1 H2 Hi Hne Hc. split.
  - unfold requirementCell.
    rewrite (structured_excerpt_lines h1 h2 rs ps H1 H2 Hi).
    cbn [requirement].
    rewrite forallb_app in Hi. apply andb_prop in Hi as [Hr _].
    rewrite (bullets_body rs Hr), (trim_join_items rs Hr).
    assert (Hj : join [SPACE] rs <> []).
    { destruct rs as [|r rs']; [congruence|].
      assert (Ht : forallb trimmed (r :: rs') = true).
      { apply forallb_forall. intros x Hx. apply one_line_trimmed.
        revert x Hx. now apply forallb_forall. }
      pose proof (trimmed_join [SPACE] r rs' Ht) as Hj.
      intros E. rewrite E in Hj. discriminate. }
    destruct (join [SPACE] rs) eqn:E; [congruence|]. reflexivity.
  - unfold interpret, renderRichText. now apply render_content_text.
Qed.

Lemma requirement_cell_shows_items_witness :
  let h1 := REQUIREMENT_HEADER ++ [FULLWIDTH_COLON] in
  let h2 := PATHWAY_HEADER ++ [FULLWIDTH_COLON] in
  let rs := [js "pass " ++ highlight (js "thesis"); js "150 credits"] in
  let ps := [js "see the handbook"] in
  header_line REQUIREMENT_HEADER h1 = true
  /\ header_line PATHWAY_HEADER h2 = true
  /\ forallb one_line (rs ++ ps) = true
  /\ rs <> []
  /\ contains CLOSE (join [SPACE] rs) = false
  /\ requirementCell
       (Some (join [LF] ((h1 :: map bullet rs) ++ h2 :: map bullet ps)))
     = Some (interpret (Some (join [SPACE] rs)))
  /\ text_of (interpret (Some (join [SPACE] rs))) = join [SPACE] rs.
Proof.
  cbv zeta. split; [reflexivity|]. split; [reflexivity|].
  split; [reflexivity|]. split; [discriminate|]. split; [reflexivity|].
  apply (requirement_cell_shows_items
           (REQUIREMENT_HEADER ++ [FULLWIDTH_COLON])
           (PATHWAY_HEADER ++ [FULLWIDTH_COLON])
           [js "pass " ++ highlight (js "thesis"); js "150 credits"]
           [js "see the handbook"]);
    try reflexivity; discriminate.
Defined.

(** *** Modules *)

Lemma Map_has_In {V} (m : Map V) k : Map_has m k = true <-> In k (map fst m).
Proof.
  unfold Map_has. rewrite existsb_exists, in_map_iff. split.
  - intros (e & He & Hk). apply str_eqb_eq in Hk. now exists e.
  - intros (e & Hk & He). exists e. split; [exact He|]. now apply str_eqb_eq.
Qed.

Lemma Map_set_new {V} (m : Map V) k v :
  Map_has m k = false -> Map_set m k v = m ++ [(k, v)].
Proof.
  induction m as [|[k' v'] m IH]; [reflexivity|]. cbn.
  destruct (str_eqb k' k); [discriminate|]. cbn. intros H. now rewrite IH.
Qed.

Lemma uniqueModules_loop ms : forall acc : Map SummaryModule.t,
  NoDup (map fst acc) ->
  (forall e, In e acc -> fst e = SummaryModule.key (snd e)) ->
  let r := fold_left
             (fun map m =>
                if negb (Map_has map (SummaryModule.key m))
                then Map_set map (SummaryModule.key m) m
                else map) ms acc in
  NoDup (map SummaryModule.key (Map_values r))
  /\ forall m,
       In m (Map_values r) <->
       In m (Map_values acc)
       \/ (Map_has acc (SummaryModule.key m) = false
           /\ find (fun x => str_eqb (SummaryModule.key x) (SummaryModule.key m)) ms
              = Some m).
Proof.
  induction ms as [|x ms IH]; intros acc Hnd Hk; cbn [fold_left find].
  - split.
    + unfold Map_values. rewrite map_map.
      rewrite <- (map_ext_in fst _ acc); [exact Hnd|]. intros e He. now apply Hk.
    + intros m. split; [now left|]. intros [H|[_ H]]; [exact H|discriminate].
  - destruct (Map_has acc (SummaryModule.key x)) eqn:Hx; cbn [negb].
    + destruct (IH acc Hnd Hk) as [IH1 IH2]. split; [exact IH1|].
      intros m. rewrite IH2.
      destruct (str_eqb (SummaryModule.key x) (SummaryModule.key m)) eqn:E;
        [|reflexivity].
      apply str_eqb_eq in E. rewrite E in Hx.
      split; (intros [H|[Hm H]]; [now left | congruence]).
    + rewrite (Map_set_new acc _ x Hx).
      assert (Hnd' : NoDup (map fst (acc ++ [(SummaryModule.key x, x)]))).
      { rewrite map_app. apply NoDup_app; [exact Hnd | repeat constructor; auto |].
        intros k Hin [<-|[]]. apply Map_has_In in Hin. cbn in Hin. congruence. }
      assert (Hk' : forall e, In e (acc ++ [(SummaryModule.key x, x)]) ->
                              fst e = SummaryModule.key (snd e)).
      { intros e He. apply in_app_or in He as [He|[<-|[]]]; [now apply Hk|].
        reflexivity. }
      assert (Hhas : forall k,
                 Map_has (acc ++ [(SummaryModule.key x, x)]) k
                 = Map_has acc k || str_eqb (SummaryModule.key x) k).
      { intros k. unfold Map_has. rewrite existsb_app. cbn.
        now rewrite orb_false_r. }
      destruct (IH _ Hnd' Hk') as [IH1 IH2]. split; [exact IH1|].
      intros m. rewrite IH2, Hhas. unfold Map_values at 1. rewrite map_app.
      cbn [map snd]. rewrite in_app_iff. cbn [In].
      destruct (str_eqb (SummaryModule.key x) (SummaryModule.key m)) eqn:E.
      * apply str_eqb_eq in E. rewrite <- E, Hx. rewrite orb_true_r.
        split.
        -- intros [[H|[<-|[]]]|[Hm _]]; [now left | now right | discriminate].
        -- intros [H|[_ H]]; [now left; left|]. injection H as <-.
           left. right. now left.
      * rewrite orb_false_r. split.
        -- intros [[H|[<-|[]]]|H]; [now left | | now right].
           assert (Hr : str_eqb (SummaryModule.key x) (SummaryModule.key x) = true)
             by now apply str_eqb_eq.
           congruence.
        -- intros [H|H]; [now left; left | now right].
Qed.

(** X12.  [uniqueModules] keeps one module for each key, the first in the
    list: the keys of the result are pairwise distinct, and a module is in
    the result exactly when it is the first module of the list with its
    key. *)
Theorem uniqueModules_keeps_first_of_each_key
    (modules : list SummaryModule.t) :
  NoDup (map SummaryModule.key (uniqueModules (Some modules)))
  /\ forall m,
       In m (uniqueModules (Some modules)) <->
       find (fun x => str_eqb (SummaryModule.key x) (SummaryModule.key m))
            modules = Some m.
Proof.
  unfold uniqueModules.
  destruct (uniqueModules_loop modules [] (NoDup_nil _)) as [H1 H2];
    [intros e []|]. split; [exact H1|].
  intros m. rewrite H2. cbn. split; [intros [[]|[_ H]]; exact H | auto].
Qed.

(** *** The next axis *)

Lemma findIndex_unique {A} (f : A -> str) l : forall i a,
  NoDup (map f l) -> nth_error l i = Some a ->
  findIndex (fun x => str_eqb (f x) (f a)) l = Some i.
Proof.
  induction l as [|x l IH]; intros i a Hnd Hi; [now destruct i|].
  cbn [map] in Hnd. inversion Hnd as [|? ? Hx Hl]; subst.
  destruct i as [|i]; cbn [nth_error findIndex] in *.
  - injection Hi as ->.
    assert (E : str_eqb (f a) (f a) = true) by now apply str_eqb_eq.
    now rewrite E.
  - destruct (str_eqb (f x) (f a)) eqn:E.
    + apply str_eqb_eq in E. exfalso. apply Hx. rewrite E.
      apply in_map. now apply nth_error_In with i.
    + now rewrite (IH i a Hl Hi).
Qed.

(** X13.  When the ids of the axis are pairwise distinct, [nextAxis] of
    the element at position [i] is the element at position [i + 1], and
    there is none after the last element. *)
Theorem nextAxis_is_the_successor (filteredAxis : list TimelineAxis.t)
    (i : nat) (axisDef : TimelineAxis.t) :
  NoDup (map TimelineAxis.id filteredAxis) ->
  nth_error filteredAxis i = Some axisDef ->
  nextAxis filteredAxis axisDef = nth_error filteredAxis (i + 1)
  /\ (i + 1 = length filteredAxis -> nextAxis filteredAxis axisDef = None).
Proof.
  intros Hnd Hi. unfold nextAxis.
  rewrite (findIndex_unique TimelineAxis.id filteredAxis i axisDef Hnd Hi).
  split; [reflexivity|]. intros Hlen. apply nth_error_None. lia.
Qed.

Lemma nextAxis_is_the_successor_witness :
  let axis (name : string) :=
    {| TimelineAxis.id := js name; TimelineAxis.date := js "2026-09";
       TimelineAxis.label := js name; TimelineAxis.note := None;
       TimelineAxis.link := None |} in
  let filteredAxis := [axis "enrol"%string; axis "midterm"%string; axis "thesis"%string] in
  NoDup (map TimelineAxis.id filteredAxis)
  /\ nth_error filteredAxis 1 = Some (axis "midterm"%string)
  /\ nextAxis filteredAxis (axis "midterm"%string) = nth_error filteredAxis (1 + 1)
  /\ (1 + 1 = length filteredAxis ->
      nextAxis filteredAxis (axis "midterm"%string) = None).
Proof.
  cbv zeta.
  assert (Hnd : NoDup [js "enrol"; js "midterm"; js "thesis"]).
  { repeat constructor; simpl; intros H;
      repeat (destruct H as [H|H]; [discriminate H|]); exact H. }
  split; [exact Hnd|]. split; [reflexivity|].
  refine (nextAxis_is_the_successor _ 1 _ _ _); [exact Hnd | reflexivity].
Defined.

(** *** Experiences *)

(** X14.  Under every category name but 全部, [getFilteredExperiences]
    never returns an experience whose own category is 通知: that name is
    read as [announcements]. *)
Theorem notices_category_is_never_returned (experiences : list Experience.t)
    (category : str) (exp : Experience.t) :
  str_eqb category ALL_CATEGORIES = false ->
  In exp (getFilteredExperiences experiences category) ->
  str_eqb (Experience.category exp) NOTICES = false
  /\ In exp experiences.
Proof.
  intros Hall Hin. unfold getFilteredExperiences in Hin. rewrite Hall in Hin.
  apply filter_In in Hin as [Hin Hc]. split; [|exact Hin].
  apply str_eqb_eq in Hc. rewrite Hc.
  destruct (str_eqb category NOTICES) eqn:E; [reflexivity | exact E].
Qed.

Lemma notices_category_is_never_returned_witness :
  let item c :=
    {| Experience.title := js "t"; Experience.author := js "a";
       Experience.year := js "2026"; Experience.date := js "2026-09-01";
       Experience.excerpt := js "e"; Experience.tags := [];
       Experience.category := c; Experience.file := js "f.md";
       Experience.link := None |} in
  let experiences := [item NOTICES; item (js "announcements")] in
  str_eqb NOTICES ALL_CATEGORIES = false
  /\ In (item (js "announcements"))
        (getFilteredExperiences experiences NOTICES)
  /\ str_eqb (Experience.category (item (js "announcements"))) NOTICES = false
  /\ In (item (js "announcements")) experiences.
Proof.
  cbv zeta. split; [reflexivity|].
  assert (Hin : In {| Experience.title := js "t"; Experience.author := js "a";
                      Experience.year := js "2026";
                      Experience.date := js "2026-09-01";
                      Experience.excerpt := js "e"; Experience.tags := [];
                      Experience.category := js "announcements";
                      Experience.file := js "f.md"; Experience.link := None |}
                (getFilteredExperiences
                   [ {| Experience.title := js "t"; Experience.author := js "a";
                        Experience.year := js "2026";
                        Experience.date := js "2026-09-01";
                        Experience.excerpt := js "e"; Experience.tags := [];
                        Experience.category := NOTICES;
                        Experience.file := js "f.md"; Experience.link := None |};
                     {| Experience.title := js "t"; Experience.author := js "a";
                        Experience.year := js "2026";
                        Experience.date := js "2026-09-01";
                        Experience.excerpt := js "e"; Experience.tags := [];
                        Experience.category := js "announcements";
                        Experience.file := js "f.md"; Experience.link := None |} ]
                   NOTICES)).
  { left. reflexivity. }
  split; [exact Hin|].
  apply (notices_category_is_never_returned _ NOTICES _ eq_refl Hin).
Defined.
